(** * go-httpx: the HTTP/1.x framing engine, embedded and verified

    A shallow embedding of the line reader ([internal/netx]), of the three
    body readers and of the response writer ([internal/httpx]), followed by
    the properties of the framing specification that were checked against it.

    Conventions of the embedding.
    - A Go [string] and a Go [[]byte] are both sequences of bytes: [bytes].
    - An [int64] is a [Z]; every addition and subtraction the source performs
      on an [int64] goes through [wrap64].
    - A Go [error] value is an [option error]: [None] is [nil].
    - A [context.Context] is the error its [Err()] reports: [None] while the
      [Done()] channel is open, [Canceled] or [DeadlineExceeded] after.
    - Readers and writers are records, every method takes the record and
      returns the updated record next to its Go results.
    - A [for] loop without a bound is a function on a fuel argument that
      answers [None] when the fuel runs out. Where the data left in the
      source bounds the rounds, the method supplies that fuel and a lemma
      ([..._loop_total]) shows it is enough; for the consumer loop
      [ReadAll] the theorems give the fuel that is enough. *)

From Stdlib Require Import ZArith Ascii String List Lia Bool.
From stdpp Require Import gmap strings list.

Import ListNotations.

Abbreviation bytes := (list ascii).

(** A byte-string literal. *)
Notation "b! s" := (list_ascii_of_string s) (at level 1, format "b! s").

Definition CR : ascii := "013"%char.
Definition LF : ascii := "010"%char.
Definition CRLF : bytes := [CR; LF].

Definition byteZ (c : ascii) : Z := Z.of_N (N_of_ascii c).
Definition Zbyte (z : Z) : ascii := ascii_of_N (Z.to_N z).

(** ** Errors *)

(** The two values a done context reports from [Err()]. *)
Inductive ctxError : Set :=
  | Canceled               (* context.Canceled *)
  | DeadlineExceeded.      (* context.DeadlineExceeded *)

Inductive error : Set :=
  | EOF                    (* io.EOF *)
  | ErrBufferFull          (* bufio.ErrBufferFull *)
  | CtxErr (e : ctxError)  (* ctx.Err() *)
  | ErrLineTooLong         (* netx *)
  | ErrPeekBeyondCap       (* netx *)
  | ErrInvalidMax          (* errors.New("crlf: invalid max value") *)
  | ErrBodyTooLarge        (* httpx *)
  | ErrBadChunk
  | ErrLengthMismatch
  | ErrUnexpectedTrailer.

(** A [context.Context]: [None] while its [Done()] channel is open. *)
Abbreviation Context := (option ctxError).

(** [err == io.EOF] *)
Definition isEOF (e : option error) : bool :=
  match e with Some EOF => true | _ => false end.

(** ** int64 *)

Definition MaxInt64 : Z := 9223372036854775807.
Definition MaxUint64 : Z := 18446744073709551615.

Definition wrap64 (x : Z) : Z :=
  ((x + 9223372036854775808) mod 18446744073709551616 - 9223372036854775808)%Z.

(** ** The Go library functions the repository calls

    These are models of [strings] and [strconv]. Where Go decodes UTF-8
    ([strings.TrimSpace], [strings.EqualFold], [unicode.ToUpper],
    [unicode.ToLower]) the model is the function's behaviour on bytes below
    0x80 and leaves the other bytes alone. *)

Module strings.

(** '\t', '\n', '\v', '\f', '\r', ' ' *)
Definition isSpace (c : ascii) : bool :=
  let n := byteZ c in ((9 <=? n) && (n <=? 13) || (n =? 32))%Z.

Fixpoint TrimLeftSpace (s : bytes) : bytes :=
  match s with
  | c :: t => if isSpace c then TrimLeftSpace t else s
  | [] => []
  end.

Definition TrimRightSpace (s : bytes) : bytes :=
  rev (TrimLeftSpace (rev s)).

Definition TrimSpace (s : bytes) : bytes :=
  TrimRightSpace (TrimLeftSpace s).

(** Index of the first [c] in [s], or -1. *)
Fixpoint IndexByte (s : bytes) (c : ascii) : Z :=
  match s with
  | [] => (-1)%Z
  | x :: t =>
      if Ascii.eqb x c then 0%Z
      else let r := IndexByte t c in
           if (r <? 0)%Z then (-1)%Z else (r + 1)%Z
  end.

Fixpoint bytes_eqb (s t : bytes) : bool :=
  match s, t with
  | [], [] => true
  | a :: s', b :: t' => Ascii.eqb a b && bytes_eqb s' t'
  | _, _ => false
  end.

Definition HasSuffix (s suffix : bytes) : bool :=
  (length suffix <=? length s)%nat
  && bytes_eqb (drop (length s - length suffix) s) suffix.

Definition TrimSuffix (s suffix : bytes) : bytes :=
  if HasSuffix s suffix then take (length s - length suffix) s else s.

Definition isUpper (c : ascii) : bool :=
  let n := byteZ c in ((65 <=? n) && (n <=? 90))%Z.
Definition isLower (c : ascii) : bool :=
  let n := byteZ c in ((97 <=? n) && (n <=? 122))%Z.

Definition ToLower (c : ascii) : ascii :=
  if isUpper c then Zbyte (byteZ c + 32) else c.
Definition ToUpper (c : ascii) : ascii :=
  if isLower c then Zbyte (byteZ c - 32) else c.

(** Equality under simple case folding. *)
Fixpoint EqualFold (s t : bytes) : bool :=
  match s, t with
  | [], [] => true
  | a :: s', b :: t' => Ascii.eqb (ToLower a) (ToLower b) && EqualFold s' t'
  | _, _ => false
  end.

(** [strings.Split(s, sep)] for a one-byte separator: the parts between
    the separators, always at least one. *)
Fixpoint Split (s : bytes) (sep : ascii) : list bytes :=
  match s with
  | [] => [[]]
  | c :: t =>
      if Ascii.eqb c sep then [] :: Split t sep
      else match Split t sep with
           | p :: ps => (c :: p) :: ps
           | [] => [[c]]
           end
  end.

Fixpoint Join (parts : list bytes) (sep : bytes) : bytes :=
  match parts with
  | [] => []
  | [p] => p
  | p :: ps => p ++ sep ++ Join ps sep
  end.

(** [strings.ToLower] of a string. *)
Definition ToLowerString (s : bytes) : bytes := map ToLower s.

Definition HasPrefix (s prefix : bytes) : bool :=
  (length prefix <=? length s)%nat && bytes_eqb (take (length prefix) s) prefix.

Definition TrimPrefix (s prefix : bytes) : bytes :=
  if HasPrefix s prefix then drop (length prefix) s else s.

(** [strings.ContainsAny(s, chars)] for single-byte [chars]. *)
Definition ContainsAny (s chars : bytes) : bool :=
  existsb (fun c => existsb (Ascii.eqb c) chars) s.

(** The scan of [strings.Fields]: [cur] is the field being collected. *)
Fixpoint Fields_scan (s cur : bytes) : list bytes :=
  match s with
  | [] => match cur with [] => [] | _ => [cur] end
  | c :: t =>
      if isSpace c
      then match cur with
           | [] => Fields_scan t []
           | _ => cur :: Fields_scan t []
           end
      else Fields_scan t (cur ++ [c])
  end.

(** [strings.Fields(s)]: the maximal runs of non-space bytes. *)
Definition Fields (s : bytes) : list bytes := Fields_scan s [].

(** Every byte is below 0x80, the range on which the case mappings and
    the space test of this module are Go's. *)
Definition isASCII (s : bytes) : bool :=
  forallb (fun c => (byteZ c <? 128)%Z) s.

End strings.

Module strconv.

Definition digits : bytes := b!"0123456789abcdefghijklmnopqrstuvwxyz".

Definition digitChar (d : Z) : ascii := nth (Z.to_nat d) digits "0"%char.

(** The loop of [formatBits]: the digits of [u] in front of [acc]. The
    65-byte buffer of the source bounds the number of rounds. *)
Fixpoint formatBits (fuel : nat) (u base : Z) (acc : bytes) : bytes :=
  match fuel with
  | O => acc
  | S f =>
      if (u <? base)%Z then digitChar u :: acc
      else formatBits f (u / base)%Z base (digitChar (u mod base)%Z :: acc)
  end.

Definition FormatInt (i base : Z) : bytes :=
  if (i <? 0)%Z then "-"%char :: formatBits 64 (- i)%Z base []
  else formatBits 64 i base [].

Definition Itoa (i : Z) : bytes := FormatInt i 10.

(** The value of one digit in [ParseUint]: ['0'..'9'], or a letter after
    [lower(c) = c | ('x' - 'X')]. *)
Definition digitVal (c : ascii) : option Z :=
  let n := byteZ c in
  if ((48 <=? n) && (n <=? 57))%Z then Some (n - 48)%Z
  else let l := Z.lor n 32 in
       if ((97 <=? l) && (l <=? 122))%Z then Some (l - 97 + 10)%Z
       else None.

(** The digit loop of [ParseUint] for a 64-bit result; [None] is either
    of its two errors (syntax, range). *)
Fixpoint parseDigits (base : Z) (s : bytes) (n : Z) : option Z :=
  match s with
  | [] => Some n
  | c :: t =>
      match digitVal c with
      | None => None
      | Some d =>
          if (base <=? d)%Z then None
          else if (MaxUint64 / base + 1 <=? n)%Z then None
          else let n1 := (n * base + d)%Z in
               if (MaxUint64 <? n1)%Z then None
               else parseDigits base t n1
      end
  end.

Definition ParseUint (s : bytes) (base : Z) : option Z :=
  match s with
  | [] => None
  | _ => parseDigits base s 0
  end.

(** [strconv.ParseInt(s, base, 64)] for an explicit base (10 and 16 in
    this repository); [None] when Go returns a non-nil error. *)
Definition ParseInt (s : bytes) (base : Z) : option Z :=
  match s with
  | [] => None
  | c :: t =>
      let '(neg, body) :=
        if Ascii.eqb c "+"%char then (false, t)
        else if Ascii.eqb c "-"%char then (true, t)
        else (false, s) in
      match ParseUint body base with
      | None => None
      | Some un =>
          let cutoff := (MaxInt64 + 1)%Z in
          if negb neg && (cutoff <=? un)%Z then None
          else if neg && (cutoff <? un)%Z then None
          else Some (if neg then (- un)%Z else un)
      end
  end.

(** [strconv.Atoi(s)], on a platform whose [int] has 64 bits. *)
Definition Atoi (s : bytes) : option Z := ParseInt s 10.

End strconv.

(** ** Header: [map[string][]string] with canonical keys *)

Abbreviation Header := (gmap bytes (list bytes)).

Definition canonPart (p : bytes) : bytes :=
  match p with
  | [] => []
  | c :: t => strings.ToUpper c :: map strings.ToLower t
  end.

Definition CanonicalHeaderKey (s : bytes) : bytes :=
  match s with
  | [] => []
  | _ => strings.Join (map canonPart (strings.Split s "-"%char)) b!"-"
  end.

Definition Header_Add (h : Header) (key value : bytes) : Header :=
  let k := CanonicalHeaderKey key in
  <[k := default [] (h !! k) ++ [value]]> h.

Definition Header_Set (h : Header) (key value : bytes) : Header :=
  <[CanonicalHeaderKey key := [value]]> h.

Definition Header_Get (h : Header) (key : bytes) : bytes :=
  match h !! CanonicalHeaderKey key with
  | Some (v :: _) => v
  | _ => []
  end.

(** [Values] returns all the values of [key]; no entry is no value. *)
Definition Header_Values (h : Header) (key : bytes) : list bytes :=
  default [] (h !! CanonicalHeaderKey key).

Definition Header_Del (h : Header) (key : bytes) : Header :=
  delete (CanonicalHeaderKey key) h.

(** *** Validation *)

Inductive headerError : Set :=
  | ErrInvalidFieldName
  | ErrInvalidValue
  | ErrHeaderTooLarge
  | ErrKeyTooLarge
  | ErrValueTooLarge
  | ErrTotalValuesTooLarge.

Record HeaderLimits : Type := mkHeaderLimits {
  MaxFields : Z;
  MaxKeyBytes : Z;
  MaxValueBytes : Z;
  MaxTotalValuesBytes : Z
}.

(** The bytes [isValidFieldName] lets through: letters, digits and
    [! # $ % & ' * + - . ^ _ ` | ~]. *)
Definition isTokenByte (c : ascii) : bool :=
  let n := byteZ c in
  ((65 <=? n) && (n <=? 90) || (97 <=? n) && (n <=? 122)
   || (48 <=? n) && (n <=? 57))%Z
  || existsb (Ascii.eqb c) b!"!#$%&'*+-.^_`|~".

Definition isValidFieldName (s : bytes) : bool :=
  match s with
  | [] => false
  | _ => forallb isTokenByte s
  end.

(** HTAB, or neither a control byte nor DEL. *)
Definition isValueByte (c : ascii) : bool :=
  Ascii.eqb c "009"%char
  || negb ((byteZ c <? 32)%Z || (byteZ c =? 127)%Z).

Definition isValidValue (s : bytes) : bool := forallb isValueByte s.

(** The inner loop of [ValidateHeader] over the values of one key: the
    error, or the running total of value bytes. The lengths are those of
    strings in memory, so the [int] sum is the plain sum. *)
Fixpoint validateValues (lim : HeaderLimits) (vals : list bytes) (total : Z)
  : headerError + Z :=
  match vals with
  | [] => inr total
  | v :: vs =>
      if (0 <? MaxValueBytes lim)%Z && (MaxValueBytes lim <? Z.of_nat (length v))%Z
      then inl ErrValueTooLarge
      else if negb (isValidValue v) then inl ErrInvalidValue
      else validateValues lim vs (total + Z.of_nat (length v))%Z
  end.

(** The outer loop, over the entries in the order of the [range]. *)
Fixpoint validateEntries (lim : HeaderLimits)
    (entries : list (bytes * list bytes)) (total : Z) : headerError + Z :=
  match entries with
  | [] => inr total
  | (k, vals) :: rest =>
      if negb (isValidFieldName k) then inl ErrInvalidFieldName
      else if (0 <? MaxKeyBytes lim)%Z && (MaxKeyBytes lim <? Z.of_nat (length k))%Z
      then inl ErrKeyTooLarge
      else match validateValues lim vals total with
           | inl e => inl e
           | inr total' => validateEntries lim rest total'
           end
  end.

(** [ValidateHeader(h, lim)]; [None] is [nil]. As in [WriteResponse], the
    [range] over the map visits the entries in the order of
    [map_to_list]. *)
Definition ValidateHeader (h : Header) (lim : HeaderLimits) : option headerError :=
  if (0 <? MaxFields lim)%Z && (MaxFields lim <? Z.of_nat (size h))%Z
  then Some ErrHeaderTooLarge
  else match validateEntries lim (map_to_list h) 0 with
       | inl e => Some e
       | inr totalBytes =>
           if (0 <? MaxTotalValuesBytes lim)%Z
              && (MaxTotalValuesBytes lim <? totalBytes)%Z
           then Some ErrTotalValuesTooLarge
           else None
       end.

(** The number of value bytes a header holds. *)
Definition valueBytes (entries : list (bytes * list bytes)) : Z :=
  Z.of_nat (length (concat (concat (map snd entries)))).

(** Every key of the map is in canonical form. *)
Definition canonical_keys (h : Header) : Prop :=
  forall k vals, h !! k = Some vals -> CanonicalHeaderKey k = k.

(** [CanonicalHeaderKey] read as one pass over the bytes: [start] tells
    whether the next byte opens a part. *)
Fixpoint canonWalk (start : bool) (s : bytes) : bytes :=
  match s with
  | [] => []
  | c :: t =>
      if Ascii.eqb c "-"%char then c :: canonWalk true t
      else (if start then strings.ToUpper c else strings.ToLower c)
             :: canonWalk false t
  end.


(** ** Byte sources

    The readers of this repository pull from an [io.Reader] (fixed-length
    and close-delimited bodies, response bodies) or from a [bufio.Reader]
    wrapped around one (chunked bodies, the line reader). An [io.Reader]
    is modelled as an in-memory stream that reports [io.EOF] once it is
    drained, as [strings.Reader] does; so is the [bufio.Reader] of the
    line reader, the stream being what that reader has still to deliver.
    A [Read] may deliver fewer bytes than asked for:
    [short s (length (unread s)) n] is the most the stream is willing to
    hand out when [n] bytes are requested, at least one byte being
    delivered whenever one is asked for and one is left. [calls] counts the
    read operations performed on the stream. *)

Record Source : Type := mkSource {
  unread : bytes;
  short : nat -> nat -> nat;
  calls : nat
}.

Definition advance (s : Source) (k : nat) : Source :=
  {| unread := drop k (unread s); short := short s; calls := S (calls s) |}.

Definition grant (s : Source) (n : nat) : nat :=
  Nat.min (Nat.min n (length (unread s)))
          (Nat.max 1 (short s (length (unread s)) n)).

(** [Read(p)] with [len(p) = n]: the bytes stored in [p] and the error. *)
Definition src_Read (s : Source) (n : nat) : (bytes * option error) * Source :=
  match unread s with
  | [] => (([], Some EOF), advance s 0)
  | _ => let k := grant s n in ((take k (unread s), None), advance s k)
  end.

(** A source that always fills the buffer it is given. *)
Definition NewReader (data : bytes) : Source :=
  {| unread := data; short := fun _ n => n; calls := 0 |}.

(** The prefix of [u] up to and including the first [delim], and the rest. *)
Fixpoint splitDelim (u : bytes) (delim : ascii) : option (bytes * bytes) :=
  match u with
  | [] => None
  | c :: t =>
      if Ascii.eqb c delim then Some ([c], t)
      else match splitDelim t delim with
           | Some (l, r) => Some (c :: l, r)
           | None => None
           end
  end.

(** ** bufio.Reader

    The chunked reader pulls from a [bufio.Reader] of the default size
    that it wraps around the [io.Reader] of its caller. Such a reader
    takes bytes from its source ahead of what it hands out: [buf] is what
    it has taken and not handed out yet ([buf[r:w]] in Go), so that what it
    has still to deliver is [stream]. A source of this file returns no
    byte together with an error, and at least one byte when it is asked
    for one and has one: the error of a read is reported by the call that
    meets it, and [io.ErrNoProgress] does not arise. *)

Module bufio.

Definition defaultBufSize : nat := 4096.

Record Reader : Type := mkReader {
  rd : Source;     (* the reader provided by the client *)
  buf : bytes      (* taken from [rd], not handed out yet *)
}.

(** [bufio.NewReader(rd)]: a new reader with an empty buffer around
    [rd], which is what Go builds around every [io.Reader] that is not
    itself a [bufio.Reader] of this size or more. *)
Definition NewReader (src : Source) : Reader := {| rd := src; buf := [] |}.

Definition Buffered (b : Reader) : nat := length (buf b).

(** What the reader has still to deliver: its buffer, then what is left
    in the source. *)
Definition stream (b : Reader) : bytes := buf b ++ unread (rd b).

(** The rounds of [ReadString(delim)], which is [ReadSlice(delim)]
    repeated for as long as the buffer fills up without the delimiter:
    [full] collects the full buffers, [err] is the error the last fill
    met. A round searches the buffer; without the delimiter there, it
    returns the pending error with what is buffered, or hands over a full
    buffer, or fills the buffer with one [Read] of the source. *)
Fixpoint ReadString_loop (fuel : nat) (b : Reader) (delim : ascii)
    (full : bytes) (err : option error)
  : option ((bytes * option error) * Reader) :=
  match fuel with
  | O => None
  | S fuel' =>
      match splitDelim (buf b) delim with
      | Some (line, rest) =>
          Some ((full ++ line, None), {| rd := rd b; buf := rest |})
      | None =>
          match err with
          | Some e => Some ((full ++ buf b, Some e), {| rd := rd b; buf := [] |})
          | None =>
              if (defaultBufSize <=? Buffered b)%nat
              then ReadString_loop fuel' {| rd := rd b; buf := [] |} delim
                     (full ++ buf b) None
              else
                let '((data, e), rd') :=
                  src_Read (rd b) (defaultBufSize - Buffered b) in
                ReadString_loop fuel' {| rd := rd'; buf := buf b ++ data |}
                  delim full e
          end
      end
  end.

(** [ReadString(delim)]: everything up to and including the delimiter, or
    what is left together with [io.EOF]. A round that neither ends the
    call nor hands over a full buffer takes a byte from the source or
    meets its end, which bounds the rounds; [bufio_ReadString_spec] shows
    the fallback is never taken. *)
Definition ReadString (b : Reader) (delim : ascii)
  : (bytes * option error) * Reader :=
  match ReadString_loop (2 * length (unread (rd b)) + 3) b delim [] None with
  | Some res => res
  | None => (([], Some EOF), b)
  end.

(** [Read(p)] with [len(p) = n]. An empty [p] gets nothing and no error.
    With bytes in the buffer, [p] gets as many of them as it holds. With
    an empty buffer, a [p] of at least the size of the buffer is handed to
    the source itself; a smaller one gets its share of one [Read] of the
    source into the buffer. *)
Definition Read (b : Reader) (n : nat) : (bytes * option error) * Reader :=
  match n with
  | O => (([], None), b)
  | _ =>
      match buf b with
      | [] =>
          if (defaultBufSize <=? n)%nat
          then
            let '((data, e), rd') := src_Read (rd b) n in
            ((data, e), {| rd := rd'; buf := [] |})
          else
            let '((data, e), rd') := src_Read (rd b) defaultBufSize in
            match data with
            | [] => (([], e), {| rd := rd'; buf := [] |})
            | _ => ((take n data, None), {| rd := rd'; buf := drop n data |})
            end
      | _ => ((take n (buf b), None), {| rd := rd b; buf := drop n (buf b) |})
      end
  end.

End bufio.

(** [bufio.Reader.ReadSlice(delim)] for a buffer of [size] bytes: the
    delimiter is searched in the first [size] unread bytes; a full buffer
    without it is handed out with [ErrBufferFull]. *)
Definition br_ReadSlice (size : nat) (s : Source) (delim : ascii)
  : (bytes * option error) * Source :=
  match splitDelim (take size (unread s)) delim with
  | Some (line, _) => ((line, None), advance s (length line))
  | None =>
      if (size <=? length (unread s))%nat
      then ((take size (unread s), Some ErrBufferFull), advance s size)
      else ((unread s, Some EOF), advance s (length (unread s)))
  end.

(** The raw line at the head of [u]: its bytes up to and including the
    first LF, or all of [u] when it holds none. *)
Definition rawLine (u : bytes) : bytes :=
  match splitDelim u LF with
  | Some (line, _) => line
  | None => u
  end.

(** ** internal/netx: CRLFFastReader *)

Module netx.

Definition DefaultBufSize : nat := 4096.

Record CRLFFastReader : Type := mkCRLF {
  br : Source;       (* the bufio.Reader, as a stream *)
  bufSize : nat      (* its buffer size *)
}.

Definition NewCRLFFastReader (r : Source) : CRLFFastReader :=
  {| br := r; bufSize := DefaultBufSize |}.

(** The trimming done once a newline was found. *)
Definition trimEOL (buf : bytes) : bytes :=
  let n := length buf in
  let n :=
    if (0 <? n)%nat && Ascii.eqb (nth (n - 1) buf "000"%char) LF then
      let n := (n - 1)%nat in
      if (0 <? n)%nat && Ascii.eqb (nth (n - 1) buf "000"%char) CR
      then (n - 1)%nat else n
    else n in
  take n buf.

(** The [for] loop of [ReadLine]; the results are [line], [isPrefix],
    [err]. *)
Fixpoint ReadLine_loop (fuel : nat) (r : CRLFFastReader) (max : Z) (buf : bytes)
  : option ((bytes * bool * option error) * CRLFFastReader) :=
  match fuel with
  | O => None
  | S fuel' =>
      let '((part, perr), br') := br_ReadSlice (bufSize r) (br r) LF in
      let r' := {| br := br'; bufSize := bufSize r |} in
      if (max <? Z.of_nat (length buf) + Z.of_nat (length part))%Z
      then Some (([], true, Some ErrLineTooLong), r')
      else
        let buf := buf ++ part in
        match perr with
        | None => Some ((trimEOL buf, false, None), r')
        | Some ErrBufferFull => ReadLine_loop fuel' r' max buf
        | Some EOF =>
            if (length buf =? 0)%nat then Some (([], false, Some EOF), r')
            else Some ((buf, false, Some EOF), r')
        | Some e => Some ((buf, false, Some e), r')
        end
  end.

(** [ReadLine(max)]. Every round of the loop but the last consumes a full
    buffer, so the length of the unread data bounds the rounds;
    [ReadLine_loop_total] shows the fallback is never taken. *)
Definition ReadLine (r : CRLFFastReader) (max : Z)
  : (bytes * bool * option error) * CRLFFastReader :=
  if (max <=? 0)%Z then (([], false, Some ErrInvalidMax), r)
  else
    match ReadLine_loop (S (length (unread (br r)))) r max [] with
    | Some res => res
    | None => (([], false, Some ErrInvalidMax), r)
    end.

End netx.

(** ** internal/httpx: body readers *)

Module httpx.

(** Of [Request] the body readers consult the header only. *)
Record Request : Type := mkRequest {
  req_Header : Header
}.

(** *** fixedReader (Content-Length) *)

Record fixedReader : Type := mkFixed {
  f_ctx : Context;
  f_r : Source;
  f_n : Z;            (* remaining bytes *)
  f_limit : Z;        (* global body cap *)
  f_readTotal : Z
}.

Definition newFixedReader (ctx : Context) (r : Source) (n limit : Z)
  : fixedReader :=
  {| f_ctx := ctx; f_r := r; f_n := n; f_limit := limit; f_readTotal := 0 |}.

(** [p = p[:k]] when [int64(len(p)) > k]. *)
Definition clamp (lenp : nat) (k : Z) : nat :=
  if (k <? Z.of_nat lenp)%Z then Z.to_nat k else lenp.

Definition fixedReader_Read (f : fixedReader) (lenp : nat)
  : (bytes * option error) * fixedReader :=
  match f_ctx f with
  | Some e => (([], Some (CtxErr e)), f)
  | None =>
      if (f_n f <=? 0)%Z then (([], Some EOF), f)
      else
        let lenp := clamp lenp (f_n f) in
        let '((data, err), r') := src_Read (f_r f) lenp in
        let n := Z.of_nat (length data) in
        let f' := {| f_ctx := f_ctx f; f_r := r';
                     f_n := wrap64 (f_n f - n);
                     f_limit := f_limit f;
                     f_readTotal := wrap64 (f_readTotal f + n) |} in
        if (0 <? f_limit f')%Z && (f_limit f' <? f_readTotal f')%Z
        then ((data, Some ErrBodyTooLarge), f')
        else if isEOF err && (0 <? f_n f')%Z
        then ((data, Some ErrLengthMismatch), f')
        else if (f_n f' =? 0)%Z then ((data, Some EOF), f')
        else ((data, err), f')
  end.

(** *** chunkedReader (Transfer-Encoding: chunked) *)

Inductive chunkState : Set :=
  | stateChunkHeader   (* waiting for "<hex-size>\r\n" *)
  | stateChunkData     (* reading chunk data *)
  | stateChunkCRLF     (* expecting "\r\n" after data *)
  | stateTrailer       (* reading trailers *)
  | stateDone.         (* finished *)

(** [c_r] is the [bufio.Reader] the reader wraps around the source of its
    caller. [c_header] is the map the caller handed to
    [newChunkedReader]: a Go map is a reference, so the field stands for
    the one map object that the reader and its caller share. *)
Record chunkedReader : Type := mkChunked {
  c_ctx : Context;
  c_r : bufio.Reader;
  c_state : chunkState;
  c_remain : Z;
  c_limit : Z;
  c_readTotal : Z;
  c_header : Header
}.

Definition newChunkedReader (ctx : Context) (src : Source) (limit : Z)
    (hdr : Header) : chunkedReader :=
  {| c_ctx := ctx; c_r := bufio.NewReader src; c_state := stateChunkHeader;
     c_remain := 0;
     c_limit := limit; c_readTotal := 0; c_header := hdr |}.

Definition set_r (c : chunkedReader) (r : bufio.Reader) : chunkedReader :=
  {| c_ctx := c_ctx c; c_r := r; c_state := c_state c;
     c_remain := c_remain c; c_limit := c_limit c;
     c_readTotal := c_readTotal c; c_header := c_header c |}.

Definition set_state (c : chunkedReader) (st : chunkState) : chunkedReader :=
  {| c_ctx := c_ctx c; c_r := c_r c; c_state := st;
     c_remain := c_remain c; c_limit := c_limit c;
     c_readTotal := c_readTotal c; c_header := c_header c |}.

Definition set_remain (c : chunkedReader) (n : Z) : chunkedReader :=
  {| c_ctx := c_ctx c; c_r := c_r c; c_state := c_state c;
     c_remain := n; c_limit := c_limit c;
     c_readTotal := c_readTotal c; c_header := c_header c |}.

Definition set_readTotal (c : chunkedReader) (n : Z) : chunkedReader :=
  {| c_ctx := c_ctx c; c_r := c_r c; c_state := c_state c;
     c_remain := c_remain c; c_limit := c_limit c;
     c_readTotal := n; c_header := c_header c |}.

Definition set_header (c : chunkedReader) (h : Header) : chunkedReader :=
  {| c_ctx := c_ctx c; c_r := c_r c; c_state := c_state c;
     c_remain := c_remain c; c_limit := c_limit c;
     c_readTotal := c_readTotal c; c_header := h |}.

(** [nextChunkSize] parses "<hex-size>\r\n". *)
Definition nextChunkSize (r : bufio.Reader)
  : (Z * option error) * bufio.Reader :=
  let '((line, err), r') := bufio.ReadString r LF in
  match err with
  | Some e => ((0%Z, Some e), r')
  | None =>
      let line := strings.TrimSpace line in
      match line with
      | [] => ((0%Z, Some ErrBadChunk), r')
      | _ =>
          let semi := strings.IndexByte line ";"%char in
          let line := if (0 <=? semi)%Z then take (Z.to_nat semi) line
                      else line in
          match strconv.ParseInt line 16 with
          | None => ((0%Z, Some ErrBadChunk), r')
          | Some size =>
              if (size <? 0)%Z then ((0%Z, Some ErrBadChunk), r')
              else ((size, None), r')
          end
      end
  end.

(** The [for] loop of [readTrailers]. *)
Fixpoint readTrailers_loop (fuel : nat) (r : bufio.Reader) (h : Header)
  : option (option error * bufio.Reader * Header) :=
  match fuel with
  | O => None
  | S fuel' =>
      let '((line, err), r') := bufio.ReadString r LF in
      match err with
      | Some _ => Some (Some ErrUnexpectedTrailer, r', h)
      | None =>
          if strings.bytes_eqb line CRLF then Some (None, r', h)
          else
            let line := strings.TrimSuffix line CRLF in
            let i := strings.IndexByte line ":"%char in
            if (i <=? 0)%Z then Some (Some ErrUnexpectedTrailer, r', h)
            else
              let key := CanonicalHeaderKey (take (Z.to_nat i) line) in
              let val := strings.TrimSpace (drop (Z.to_nat (i + 1)) line) in
              readTrailers_loop fuel' r' (Header_Add h key val)
      end
  end.

(** [readTrailers]. Every round consumes a line of at least one byte, so
    the length of what the reader has still to deliver bounds the rounds;
    [readTrailers_loop_total] shows the fallback is never taken. *)
Definition readTrailers (r : bufio.Reader) (h : Header)
  : option error * bufio.Reader * Header :=
  match readTrailers_loop (S (length (bufio.stream r))) r h with
  | Some res => res
  | None => (Some ErrUnexpectedTrailer, r, h)
  end.

Definition chunkedReader_Read (c : chunkedReader) (lenp : nat)
  : (bytes * option error) * chunkedReader :=
  match c_ctx c with
  | Some e => (([], Some (CtxErr e)), c)
  | None =>
      match c_state c with
      | stateDone => (([], Some EOF), c)
      | stateChunkHeader =>
          let '((size, err), r') := nextChunkSize (c_r c) in
          let c := set_r c r' in
          match err with
          | Some e => (([], Some e), c)
          | None =>
              if (size =? 0)%Z then (([], None), set_state c stateTrailer)
              else (([], None), set_state (set_remain c size) stateChunkData)
          end
      | stateChunkData =>
          if (c_remain c <=? 0)%Z
          then (([], None), set_state c stateChunkCRLF)
          else
            let lenp := clamp lenp (c_remain c) in
            let '((data, err), r') := bufio.Read (c_r c) lenp in
            let n := Z.of_nat (length data) in
            let c := set_r c r' in
            let c := set_remain c (wrap64 (c_remain c - n)) in
            let c := set_readTotal c (wrap64 (c_readTotal c + n)) in
            if (0 <? c_limit c)%Z && (c_limit c <? c_readTotal c)%Z
            then ((data, Some ErrBodyTooLarge), c)
            else
              match err with
              | Some e => ((data, Some e), c)
              | None =>
                  if (c_remain c =? 0)%Z
                  then ((data, None), set_state c stateChunkCRLF)
                  else ((data, None), c)
              end
      | stateChunkCRLF =>
          let '((line, err), r') := bufio.ReadString (c_r c) LF in
          let c := set_r c r' in
          match err with
          | Some _ => (([], Some ErrBadChunk), c)
          | None =>
              if negb (strings.bytes_eqb line CRLF)
              then (([], Some ErrBadChunk), c)
              else (([], None), set_state c stateChunkHeader)
          end
      | stateTrailer =>
          let '(err, r', h') := readTrailers (c_r c) (c_header c) in
          let c := set_header (set_r c r') h' in
          match err with
          | Some e => (([], Some e), c)
          | None => (([], Some EOF), set_state c stateDone)
          end
      end
  end.

(** *** closeReader (no length: read until close) *)

Record closeReader : Type := mkClose {
  cl_ctx : Context;
  cl_r : Source;
  cl_limit : Z;
  cl_readTotal : Z
}.

Definition newCloseReader (ctx : Context) (r : Source) (limit : Z)
  : closeReader :=
  {| cl_ctx := ctx; cl_r := r; cl_limit := limit; cl_readTotal := 0 |}.

Definition closeReader_Read (c : closeReader) (lenp : nat)
  : (bytes * option error) * closeReader :=
  match cl_ctx c with
  | Some e => (([], Some (CtxErr e)), c)
  | None =>
      let remaining := wrap64 (cl_limit c - cl_readTotal c) in
      if (0 <? cl_limit c)%Z && (remaining <=? 0)%Z
      then (([], Some EOF), c)
      else
        let lenp := if (0 <? cl_limit c)%Z then clamp lenp remaining
                    else lenp in
        let '((data, err), r') := src_Read (cl_r c) lenp in
        let n := Z.of_nat (length data) in
        let c' := {| cl_ctx := cl_ctx c; cl_r := r';
                     cl_limit := cl_limit c;
                     cl_readTotal := wrap64 (cl_readTotal c + n) |} in
        if (0 <? cl_limit c')%Z && (cl_limit c' <? cl_readTotal c')%Z
        then ((data, Some ErrBodyTooLarge), c')
        else ((data, err), c')
  end.

(** *** The entry point *)

(** The [io.ReadCloser] that [NewBodyReader] returns is one of the three
    readers. *)
Inductive BodyReader : Type :=
  | FixedBody (f : fixedReader)
  | ChunkedBody (c : chunkedReader)
  | CloseBody (c : closeReader).

Definition Read (b : BodyReader) (lenp : nat)
  : (bytes * option error) * BodyReader :=
  match b with
  | FixedBody f =>
      let '(res, f') := fixedReader_Read f lenp in (res, FixedBody f')
  | ChunkedBody c =>
      let '(res, c') := chunkedReader_Read c lenp in (res, ChunkedBody c')
  | CloseBody c =>
      let '(res, c') := closeReader_Read c lenp in (res, CloseBody c')
  end.

(** [NewBodyReader]: the reader ([None] for Go's [nil]), the expected
    Content-Length and the error. *)
Definition NewBodyReader (ctx : Context) (req : Request) (r : Source)
    (maxSize : Z) : option BodyReader * Z * option error :=
  let h := req_Header req in
  if strings.EqualFold (Header_Get h b!"Transfer-Encoding") b!"chunked"
  then (Some (ChunkedBody (newChunkedReader ctx r maxSize h)), (-1)%Z, None)
  else
    match Header_Get h b!"Content-Length" with
    | [] => (Some (CloseBody (newCloseReader ctx r maxSize)), (-1)%Z, None)
    | cl =>
        match strconv.ParseInt (strings.TrimSpace cl) 10 with
        | None => (None, 0%Z, Some ErrLengthMismatch)
        | Some n =>
            if (n <? 0)%Z then (None, 0%Z, Some ErrLengthMismatch)
            else if (0 <? maxSize)%Z && (maxSize <? n)%Z
            then (None, 0%Z, Some ErrBodyTooLarge)
            else (Some (FixedBody (newFixedReader ctx r n maxSize)), n, None)
        end
    end.

(** [io.ReadAll], the consumer of a body: [bufsz i] is one less than the
    length of the buffer offered to the call number [i], so every call
    offers room for at least one byte. [None]: the fuel ran out. *)
Fixpoint ReadAll (fuel : nat) (bufsz : nat -> nat) (b : BodyReader)
    (i : nat) (acc : bytes) : option (bytes * option error * BodyReader) :=
  match fuel with
  | O => None
  | S fuel' =>
      let '((data, err), b') := Read b (S (bufsz i)) in
      match err with
      | None => ReadAll fuel' bufsz b' (S i) (acc ++ data)
      | Some EOF => Some (acc ++ data, None, b')
      | Some e => Some (acc ++ data, Some e, b')
      end
  end.

(** A caller's successive [Read] calls, the buffer of call [i] having
    length [nth i sizes]: the results in order and the reader afterwards. *)
Fixpoint Reads (b : BodyReader) (sizes : list nat)
  : list (bytes * option error) * BodyReader :=
  match sizes with
  | [] => ([], b)
  | n :: rest =>
      let '(res, b') := Read b n in
      let '(ress, b'') := Reads b' rest in
      (res :: ress, b'')
  end.

Definition ctx_of (b : BodyReader) : Context :=
  match b with
  | FixedBody f => f_ctx f
  | ChunkedBody c => c_ctx c
  | CloseBody c => cl_ctx c
  end.

(** *** The response writer

    The sink is the [bufio.Writer] wrapped around an in-memory
    [io.Writer] whose writes succeed ([bytes.Buffer]); it is modelled by
    the bytes handed to it so far, so [Flush] leaves it as it is. (On a
    path that returns an error before the last [Flush], the tail of these
    bytes may still sit in the writer's buffer.) *)

Record Response : Type := mkResponse {
  Proto : bytes;
  StatusCode : Z;
  Status : bytes;
  resp_Header : Header;
  Body : option Source      (* [None] is a nil Body *)
}.

Record chunkedWriter : Type := mkChunkedWriter {
  cw_ctx : Context;
  cw_w : bytes
}.

Definition newChunkedWriter (ctx : Context) (w : bytes) : chunkedWriter :=
  {| cw_ctx := ctx; cw_w := w |}.

(** [Write] emits one chunk for [p]: "<hex>\r\n<p>\r\n". *)
Definition chunkedWriter_Write (cw : chunkedWriter) (p : bytes)
  : (Z * option error) * chunkedWriter :=
  if (length p =? 0)%nat then ((0%Z, None), cw)
  else
    match cw_ctx cw with
    | Some e => ((0%Z, Some (CtxErr e)), cw)
    | None =>
        let w := cw_w cw ++ strconv.FormatInt (Z.of_nat (length p)) 16 in
        let w := w ++ CRLF in
        let w := w ++ p in
        let w := w ++ CRLF in
        ((Z.of_nat (length p), None), {| cw_ctx := cw_ctx cw; cw_w := w |})
    end.

(** [Close] writes the terminating zero-sized chunk. *)
Definition chunkedWriter_Close (cw : chunkedWriter)
  : option error * chunkedWriter :=
  match cw_ctx cw with
  | Some e => (Some (CtxErr e), cw)
  | None => (None, {| cw_ctx := cw_ctx cw; cw_w := cw_w cw ++ b!"0" ++ CRLF ++ CRLF |})
  end.

(** A caller's successive [Write] calls, one per buffer, stopping at the
    first error. *)
Fixpoint chunkedWriter_Writes (cw : chunkedWriter) (parts : list bytes)
  : option error * chunkedWriter :=
  match parts with
  | [] => (None, cw)
  | p :: rest =>
      match chunkedWriter_Write cw p with
      | ((_, Some e), cw') => (Some e, cw')
      | ((_, None), cw') => chunkedWriter_Writes cw' rest
      end
  end.

(** Encoding a sequence of buffers: a fresh chunked writer over an empty
    sink, one [Write] per buffer, then [Close]. The error and the bytes
    in the sink. *)
Definition chunked_encode (ctx : Context) (parts : list bytes)
  : option error * bytes :=
  match chunkedWriter_Writes (newChunkedWriter ctx []) parts with
  | (Some e, cw) => (Some e, cw_w cw)
  | (None, cw) => let '(err, cw) := chunkedWriter_Close cw in (err, cw_w cw)
  end.

(** The frame of one buffer on the wire; an empty buffer has none. *)
Definition chunk_frame (p : bytes) : bytes :=
  match p with
  | [] => []
  | _ => strconv.FormatInt (Z.of_nat (length p)) 16 ++ CRLF ++ p ++ CRLF
  end.

(** [io.CopyN(bw, src, n)]: the first [n] bytes of the source reach the
    sink; a source that ends before is [io.EOF]. *)
Definition io_CopyN (w : bytes) (src : Source) (n : Z)
  : option error * bytes * Source :=
  let k := Nat.min (Z.to_nat n) (length (unread src)) in
  (if (Z.of_nat k =? n)%Z then None else Some EOF,
   w ++ take k (unread src),
   if (n <=? 0)%Z then src else advance src k).

(** [io.Copy(bw, src)] into the buffered writer: everything the source
    holds reaches the sink. *)
Definition io_Copy (w : bytes) (src : Source) : option error * bytes * Source :=
  (None, w ++ unread src, advance src (length (unread src))).

(** [io.Copy(cw, src)] into the chunked writer, for a body that is a plain
    [io.Reader] (no [WriteTo]): the generic loop of [io.Copy], one [Write]
    per non-empty [Read] of a 32 KiB buffer. *)
Fixpoint copyChunked_loop (fuel : nat) (cw : chunkedWriter) (src : Source)
  : option (option error * chunkedWriter * Source) :=
  match fuel with
  | O => None
  | S fuel' =>
      let '((data, er), src') := src_Read src (32 * 1024) in
      let '((_, ew), cw') :=
        if (0 <? length data)%nat then chunkedWriter_Write cw data
        else ((0%Z, None), cw) in
      match ew with
      | Some e => Some (Some e, cw', src')
      | None =>
          match er with
          | Some EOF => Some (None, cw', src')
          | Some e => Some (Some e, cw', src')
          | None => copyChunked_loop fuel' cw' src'
          end
      end
  end.

(** Every round but the last consumes at least one byte;
    [copyChunked_loop_total] shows the fallback is never taken. *)
Definition copyChunked (cw : chunkedWriter) (src : Source)
  : option error * chunkedWriter * Source :=
  match copyChunked_loop (S (length (unread src))) cw src with
  | Some res => res
  | None => (None, cw, src)
  end.

(** The header lines, one per value, each after a poll of the context.
    Go leaves the order in which [range] visits a map open; the model
    visits the entries in the order of [map_to_list]. *)
Fixpoint writeValues (ctx : Context) (w : bytes) (ck : bytes)
    (vals : list bytes) : option error * bytes :=
  match vals with
  | [] => (None, w)
  | v :: vs =>
      match ctx with
      | Some e => (Some (CtxErr e), w)
      | None => writeValues ctx (w ++ ck ++ b!": " ++ v ++ CRLF) ck vs
      end
  end.

Fixpoint writeHeaders (ctx : Context) (w : bytes)
    (entries : list (bytes * list bytes)) : option error * bytes :=
  match entries with
  | [] => (None, w)
  | (k, vals) :: rest =>
      match writeValues ctx w (CanonicalHeaderKey k) vals with
      | (Some e, w') => (Some e, w')
      | (None, w') => writeHeaders ctx w' rest
      end
  end.

(** [WriteResponse(ctx, w, resp)]: the error, the bytes in the sink and
    the body source afterwards. [w] holds what the sink received before
    the call. *)
Definition WriteResponse (ctx : Context) (w : bytes) (resp : Response)
  : option error * bytes * option Source :=
  match ctx with
  | Some e => (Some (CtxErr e), w, Body resp)
  | None =>
      let proto := match Proto resp with [] => b!"HTTP/1.1" | p => p end in
      let status := match Status resp with
                    | [] => strconv.Itoa (StatusCode resp)
                    | st => st
                    end in
      let w := w ++ proto ++ b!" " ++ strconv.Itoa (StatusCode resp)
                 ++ b!" " ++ status ++ CRLF in
      match writeHeaders ctx w (map_to_list (resp_Header resp)) with
      | (Some e, w) => (Some e, w, Body resp)
      | (None, w) =>
          let w := w ++ CRLF in
          match Body resp with
          | None => (None, w, None)
          | Some body =>
              match Header_Get (resp_Header resp) b!"Content-Length" with
              | (_ :: _) as clStr =>
                  match strconv.ParseInt (strings.TrimSpace clStr) 10 with
                  | None => (Some ErrLengthMismatch, w, Some body)
                  | Some n =>
                      if (n <? 0)%Z then (Some ErrLengthMismatch, w, Some body)
                      else
                        let '(err, w, body) := io_CopyN w body n in
                        (err, w, Some body)
                  end
              | [] =>
                  if strings.EqualFold
                       (Header_Get (resp_Header resp) b!"Transfer-Encoding")
                       b!"chunked"
                  then
                    let cw := newChunkedWriter ctx w in
                    let '(err, cw, body) := copyChunked cw body in
                    match err with
                    | Some e =>
                        let '(_, cw) := chunkedWriter_Close cw in
                        (Some e, cw_w cw, Some body)
                    | None =>
                        let '(err, cw) := chunkedWriter_Close cw in
                        (err, cw_w cw, Some body)
                    end
                  else
                    let '(err, w, body) := io_Copy w body in
                    (err, w, Some body)
              end
          end
      end
  end.

(** *** Trailers on the wire *)

(** A trailer field [(key, value)] as it stands on the wire. *)
Definition trailer_line (kv : bytes * bytes) : bytes :=
  kv.1 ++ ":"%char :: kv.2 ++ CRLF.

(** The fields [readTrailers] accepts: a key that is not empty and holds
    no colon, and no LF inside the line. *)
Definition trailer_ok (kv : bytes * bytes) : Prop :=
  kv.1 <> [] /\ ~ In ":"%char kv.1 /\ ~ In LF kv.1 /\ ~ In LF kv.2.

(** What [readTrailers] does with one accepted field. *)
Definition add_trailer (h : Header) (kv : bytes * bytes) : Header :=
  Header_Add h (CanonicalHeaderKey kv.1) (strings.TrimSpace kv.2).

(** The values that the trailer fields [trailers] leave under the key [K]
    of the header map, in the order of the fields: [readTrailers] puts the
    key of a field in canonical form, [Add] does so once more, and the
    value is stored trimmed. *)
Fixpoint trailer_values (trailers : list (bytes * bytes)) (K : bytes)
  : list bytes :=
  match trailers with
  | [] => []
  | kv :: rest =>
      if decide (CanonicalHeaderKey (CanonicalHeaderKey kv.1) = K)
      then strings.TrimSpace kv.2 :: trailer_values rest K
      else trailer_values rest K
  end.

(** *** Invariants *)

(** What [NewBodyReader] establishes for a fixed-length reader of
    declared length [n0], and what every [Read] keeps: the bytes read so
    far and the bytes still expected add up to [n0], which respects a
    positive cap. *)
Definition fixed_inv (n0 : Z) (f : fixedReader) : Prop :=
  (0 <= f_n f)%Z /\ (0 <= f_readTotal f)%Z /\
  (f_n f + f_readTotal f = n0)%Z /\ (n0 <= MaxInt64)%Z /\
  (f_limit f <= 0 \/ n0 <= f_limit f)%Z.

(** *** The head of a response on the wire *)

Definition status_line (resp : Response) : bytes :=
  let proto := match Proto resp with [] => b!"HTTP/1.1" | p => p end in
  let status := match Status resp with
                | [] => strconv.Itoa (StatusCode resp)
                | st => st
                end in
  proto ++ b!" " ++ strconv.Itoa (StatusCode resp) ++ b!" " ++ status ++ CRLF.

Definition header_lines (entries : list (bytes * list bytes)) : bytes :=
  concat (map (fun e : bytes * list bytes =>
                 concat (map (fun v => CanonicalHeaderKey e.1 ++ b!": " ++ v ++ CRLF)
                             e.2))
              entries).

(** Status line, header lines, empty line. *)
Definition response_head (resp : Response) : bytes :=
  status_line resp ++ header_lines (map_to_list (resp_Header resp)) ++ CRLF.

(** A chunked reader derived from [c0] by reading: live context, the cap
    and the header map of [c0], in state [st] with [rt] payload bytes
    read so far and [u] still to come from its [bufio.Reader]. *)
Definition chunk_at (c0 : chunkedReader) (st : chunkState) (rt : Z)
    (u : bytes) (c : chunkedReader) : Prop :=
  c_ctx c = None /\ c_state c = st /\ c_limit c = c_limit c0 /\
  c_header c = c_header c0 /\ c_readTotal c = rt /\
  bufio.stream (c_r c) = u.

(** *** Request targets and request lines *)

(** The errors of the request parser, one constructor per message. *)
Inductive parseError : Set :=
  | EmptyRequestTarget         (* "empty request-target" *)
  | InvalidTargetChars         (* "invalid characters in request-target" *)
  | ReadRequestLine (e : error)  (* "read request line: %w" *)
  | EmptyRequestLine           (* "empty request line" *)
  | MalformedRequestLine       (* "malformed request line: %q" *)
  | InvalidMethod              (* "invalid method: %q" *)
  | MethodNotUppercase         (* "method must be uppercase A-Z: %q" *)
  | InvalidProtocol            (* "invalid protocol: %q" *)
  | InvalidHTTPVersion         (* "invalid HTTP version: %q" *)
  | InvalidVersionNumbers      (* "invalid HTTP version numbers: %q" *)
  | ParseCtxErr (e : ctxError).  (* ctx.Err() *)

Record URL : Type := mkURL {
  Scheme : bytes;
  Host : bytes;
  Path : bytes;
  RawQuery : bytes
}.

(** The common end of [ParseRequestURI]: split the query off [raw]. *)
Definition splitQuery (scheme host raw : bytes) : URL :=
  let qmark := strings.IndexByte raw "?"%char in
  let '(path, query) :=
    if (0 <=? qmark)%Z
    then (take (Z.to_nat qmark) raw, drop (Z.to_nat (qmark + 1)) raw)
    else (raw, []) in
  let path := match path with [] => b!"/" | _ => path end in
  {| Scheme := scheme; Host := host; Path := path; RawQuery := query |}.

(** [ParseRequestURI(raw)]. *)
Definition ParseRequestURI (raw : bytes) : parseError + URL :=
  match raw with
  | [] => inl EmptyRequestTarget
  | _ =>
      if strings.ContainsAny raw [" "%char; CR; LF] then inl InvalidTargetChars
      else if strings.bytes_eqb raw b!"*"
      then inr {| Scheme := []; Host := []; Path := b!"*"; RawQuery := [] |}
      else if strings.HasPrefix raw b!"http://"
      then
        let rest := strings.TrimPrefix raw b!"http://" in
        let slash := strings.IndexByte rest "/"%char in
        if (slash =? -1)%Z
        then inr {| Scheme := b!"http"; Host := strings.ToLowerString rest;
                    Path := b!"/"; RawQuery := [] |}
        else inr (splitQuery b!"http"
                    (strings.ToLowerString (take (Z.to_nat slash) rest))
                    (drop (Z.to_nat slash) rest))
      else if strings.HasPrefix raw b!"https://"
      then
        let rest := strings.TrimPrefix raw b!"https://" in
        let slash := strings.IndexByte rest "/"%char in
        if (slash =? -1)%Z
        then inr {| Scheme := b!"https"; Host := strings.ToLowerString rest;
                    Path := b!"/"; RawQuery := [] |}
        else inr (splitQuery b!"https"
                    (strings.ToLowerString (take (Z.to_nat slash) rest))
                    (drop (Z.to_nat slash) rest))
      else inr (splitQuery [] [] raw)
  end.

Record requestLine : Type := mkRequestLine {
  Method : bytes;
  RequestURI : bytes;
  rl_Proto : bytes;
  ProtoMajor : Z;
  ProtoMinor : Z
}.

(** [requestLine.String()] *)
Definition requestLine_String (rl : requestLine) : bytes :=
  Method rl ++ b!" " ++ RequestURI rl ++ b!" " ++ rl_Proto rl.

(** [parseRequestLine(line)]. The [range] over the method yields runes;
    a byte outside ['A'..'Z'] makes a rune outside it, so the test is the
    same on bytes. *)
Definition parseRequestLine (line : bytes) : parseError + requestLine :=
  match strings.Fields line with
  | [method; target; proto] =>
      if (length method =? 0)%nat || (20 <? length method)%nat
      then inl InvalidMethod
      else if negb (forallb strings.isUpper method) then inl MethodNotUppercase
      else if negb (strings.HasPrefix proto b!"HTTP/") then inl InvalidProtocol
      else
        let ver := strings.TrimPrefix proto b!"HTTP/" in
        let dot := strings.IndexByte ver "."%char in
        if (dot <? 0)%Z then inl InvalidHTTPVersion
        else
          match strconv.Atoi (take (Z.to_nat dot) ver),
                strconv.Atoi (drop (Z.to_nat (dot + 1)) ver) with
          | Some major, Some minor =>
              inr {| Method := method; RequestURI := target; rl_Proto := proto;
                     ProtoMajor := major; ProtoMinor := minor |}
          | _, _ => inl InvalidVersionNumbers
          end
  | _ => inl MalformedRequestLine
  end.

(** What [ParseRequest] fills in of a [Request]: the request line, the
    URL, an empty header map, the host and the context
    ([context.Background()] is [None]); [ContentLength] and [Body] stay
    zero. *)
Record ParsedRequest : Type := mkParsedRequest {
  pr_line : requestLine;
  pr_URL : URL;
  pr_Header : Header;
  pr_Host : bytes;
  pr_ctx : Context
}.

Record ParseLimits : Type := mkParseLimits {
  MaxLineBytes : Z;
  MaxHeaderBytes : Z
}.

(** [ParseRequest(r, limits)]: the result and the line reader afterwards. *)
Definition ParseRequest (r : netx.CRLFFastReader) (limits : ParseLimits)
  : (parseError + ParsedRequest) * netx.CRLFFastReader :=
  let '((line, _, err), r') := netx.ReadLine r (MaxLineBytes limits) in
  match err with
  | Some e => (inl (ReadRequestLine e), r')
  | None =>
      if (length line =? 0)%nat then (inl EmptyRequestLine, r')
      else
        match parseRequestLine line with
        | inl e => (inl e, r')
        | inr rl =>
            match ParseRequestURI (RequestURI rl) with
            | inl e => (inl e, r')
            | inr u =>
                (inr {| pr_line := rl; pr_URL := u; pr_Header := ∅;
                        pr_Host := match Host u with
                                   | [] => []
                                   | _ => strings.ToLowerString (Host u)
                                   end;
                        pr_ctx := None |}, r')
            end
        end
  end.

(** [parseRequestWithContext(ctx, r, limits)] *)
Definition parseRequestWithContext (ctx : Context) (r : netx.CRLFFastReader)
    (limits : ParseLimits)
  : (parseError + ParsedRequest) * netx.CRLFFastReader :=
  match ctx with
  | Some e => (inl (ParseCtxErr e), r)
  | None => ParseRequest r limits
  end.

End httpx.

(** ** Vocabulary of the statements *)

(** A run of bytes none of which [strings.Fields] splits at. *)
Definition nonSpace (f : bytes) : Prop :=
  forallb (fun c => negb (strings.isSpace c)) f = true.

(** A run of the bytes [strings.Fields] splits at. *)
Definition allSpace (w : bytes) : Prop := forallb strings.isSpace w = true.

(** [n] calls of [ReadLine] in a row, with their results in order. *)
Fixpoint ReadLines (n : nat) (r : netx.CRLFFastReader) (max : Z)
  : list (bytes * bool * option error) * netx.CRLFFastReader :=
  match n with
  | O => ([], r)
  | S n' =>
      let '(res, r') := netx.ReadLine r max in
      let '(rs, r'') := ReadLines n' r' max in
      (res :: rs, r'')
  end.


(** What a body reader has still to take its bytes from: the unread
    bytes of the [io.Reader] that a fixed-length or close-delimited reader
    reads itself, and for a chunked reader what its [bufio.Reader] has
    still to deliver, the buffer included. *)
Definition input_of (b : httpx.BodyReader) : bytes :=
  match b with
  | httpx.FixedBody f => unread (httpx.f_r f)
  | httpx.ChunkedBody c => bufio.stream (httpx.c_r c)
  | httpx.CloseBody c => unread (httpx.cl_r c)
  end.

(** The [io.Reader] of the caller. *)
Definition source_of (b : httpx.BodyReader) : Source :=
  match b with
  | httpx.FixedBody f => httpx.f_r f
  | httpx.ChunkedBody c => bufio.rd (httpx.c_r c)
  | httpx.CloseBody c => httpx.cl_r c
  end.

(** [s'] is [s] after some reads: bytes were taken from its front, and
    none was put back. *)
Definition forward (s s' : Source) : Prop :=
  exists taken, unread s = taken ++ unread s'.

(** * Properties *)

Example canon_ex : CanonicalHeaderKey b!"content-LENGTH" = b!"Content-Length".
Proof. reflexivity. Qed.
Example fmt_ex : strconv.FormatInt 255 16 = b!"ff".
Proof. reflexivity. Qed.
Example parse_ex : strconv.ParseInt b!"fF" 16 = Some 255%Z.
Proof. reflexivity. Qed.
Example get_ex :
  Header_Get (Header_Set ∅ b!"content-length" b!"11") b!"Content-Length" = b!"11".
Proof. vm_compute. reflexivity. Qed.

(** ** Arithmetic on int64 *)

(** Closes a goal that fixes the outcome of a comparison on [Z]. *)
Ltac zbool :=
  first [ apply Z.ltb_lt; lia | apply Z.ltb_ge; lia
        | apply Z.leb_le; lia | apply Z.leb_gt; lia
        | apply Z.eqb_eq; lia | apply Z.eqb_neq; lia ].

Lemma wrap64_id (x : Z) :
  (- 9223372036854775808 <= x <= MaxInt64)%Z -> wrap64 x = x.
Proof.
  unfold wrap64, MaxInt64. intros Hx.
  rewrite Z.mod_small; lia.
Qed.

(** ** Sources *)

Lemma src_Read_inv (s : Source) (n : nat) data err s' :
  src_Read s n = ((data, err), s') ->
  unread s = data ++ unread s' /\ (length data <= n)%nat /\
  short s' = short s /\ calls s' = S (calls s) /\
  ((err = None /\ unread s <> [] /\ ((0 < n)%nat -> (0 < length data)%nat))
   \/ (err = Some EOF /\ unread s = [] /\ data = [])).
Proof.
  unfold src_Read. destruct (unread s) as [|c u] eqn:Hu.
  - intros [= <- <- <-]. simpl. rewrite Hu, drop_0.
    repeat apply conj; auto with lia.
  - intros [= <- <- <-]. simpl. rewrite Hu.
    rewrite take_drop. repeat apply conj; auto.
    + rewrite length_take. unfold grant. rewrite Hu. lia.
    + left. repeat apply conj; [reflexivity|discriminate|].
      intros Hn. rewrite length_take. unfold grant. rewrite Hu. simpl length. lia.
Qed.

(** ** Cancellation *)

(** C9. With the context already done, a [Read] of any of the three body
    readers returns the context's error at once, with no byte delivered and
    the reader, its source included, exactly as it was (no read was
    performed on the source); [WriteResponse] returns the context's error
    with the sink and the body source exactly as they were. *)
Theorem cancelled_call_touches_nothing (e : ctxError) :
  (forall (b : httpx.BodyReader) (lenp : nat),
      httpx.ctx_of b = Some e ->
      httpx.Read b lenp = (([], Some (CtxErr e)), b)) /\
  (forall (w : bytes) (resp : httpx.Response),
      httpx.WriteResponse (Some e) w resp
      = (Some (CtxErr e), w, httpx.Body resp)).
Proof.
  split.
  - intros [f|c|c] lenp Hctx; simpl in *.
    + unfold httpx.fixedReader_Read. now rewrite Hctx.
    + unfold httpx.chunkedReader_Read. now rewrite Hctx.
    + unfold httpx.closeReader_Read. now rewrite Hctx.
  - reflexivity.
Qed.

Lemma cancelled_call_touches_nothing_witness :
  httpx.Read
    (httpx.ChunkedBody
       (httpx.newChunkedReader (Some Canceled)
          (NewReader (b!"3" ++ CRLF ++ b!"abc" ++ CRLF)) 0 ∅)) 512
  = (([], Some (CtxErr Canceled)),
     httpx.ChunkedBody
       (httpx.newChunkedReader (Some Canceled)
          (NewReader (b!"3" ++ CRLF ++ b!"abc" ++ CRLF)) 0 ∅)).
Proof.
  apply (proj1 (cancelled_call_touches_nothing Canceled)). reflexivity.
Defined.

(** ** strconv *)

Lemma digitVal_nonneg (c : ascii) (d : Z) :
  strconv.digitVal c = Some d -> (0 <= d)%Z.
Proof.
  unfold strconv.digitVal. cbv zeta.
  destruct ((48 <=? byteZ c)%Z && _) eqn:E1.
  - intros [= <-]. lia.
  - destruct ((97 <=? _)%Z && _) eqn:E2; [|discriminate]. intros [= <-]. lia.
Qed.

Lemma parseDigits_bounds (base : Z) (s : bytes) :
  forall n v, (0 <= base)%Z -> (0 <= n <= MaxUint64)%Z ->
    strconv.parseDigits base s n = Some v -> (0 <= v <= MaxUint64)%Z.
Proof.
  induction s as [|c t IH]; simpl; intros n v Hb Hn.
  - intros [= <-]. exact Hn.
  - destruct (strconv.digitVal c) as [d|] eqn:Hd; [|discriminate].
    apply digitVal_nonneg in Hd.
    destruct (base <=? d)%Z; [discriminate|].
    destruct (_ <=? n)%Z; [discriminate|].
    destruct (MaxUint64 <? n * base + d)%Z eqn:Hov; [discriminate|].
    apply IH; [exact Hb|]. split; [nia|lia].
Qed.

Lemma ParseInt_range (s : bytes) (base n : Z) :
  (0 <= base)%Z ->
  strconv.ParseInt s base = Some n -> (- MaxInt64 - 1 <= n <= MaxInt64)%Z.
Proof.
  intros Hb. unfold strconv.ParseInt. destruct s as [|c t]; [discriminate|].
  set (nb := if Ascii.eqb c "+" then _ else _). destruct nb as [neg body].
  destruct (strconv.ParseUint body base) as [un|] eqn:Hun; [|discriminate].
  assert (0 <= un <= MaxUint64)%Z as Hr.
  { unfold strconv.ParseUint in Hun. destruct body; [discriminate|].
    eapply parseDigits_bounds; [exact Hb| |exact Hun]. unfold MaxUint64; lia. }
  unfold MaxInt64, MaxUint64 in *.
  destruct neg; simpl.
  - destruct (_ <? un)%Z eqn:E; [discriminate|]. intros [= <-]. lia.
  - destruct (_ <=? un)%Z eqn:E; [discriminate|]. intros [= <-]. lia.
Qed.

(** ** Selection of the body reader *)

(** C5. In [NewBodyReader], when Transfer-Encoding does not fold to
    "chunked", the test for a Content-Length is that
    [Get("Content-Length")] is not the empty string. When it is empty,
    which it is for a Content-Length header that is present with an empty
    first value as much as for an absent one, the close-delimited reader
    over the untouched source is returned with length -1 and no error.
    When it is not empty: a value that does not parse as a base-10
    integer, or parses to a negative one, gives [ErrLengthMismatch]; a
    value above a positive [maxSize] gives [ErrBodyTooLarge], whatever the
    source holds and with no reader built on it; any other value [n] gives
    a fixed-length reader over the untouched source with [n] bytes
    remaining, together with the known length [n]. *)
Theorem NewBodyReader_content_length
    (ctx : Context) (req : httpx.Request) (r : Source) (maxSize : Z) :
  let h := httpx.req_Header req in
  let parsed :=
    strconv.ParseInt (strings.TrimSpace (Header_Get h b!"Content-Length")) 10 in
  strings.EqualFold (Header_Get h b!"Transfer-Encoding") b!"chunked" = false ->
  ((h !! b!"Content-Length" = None
    \/ h !! b!"Content-Length" = Some []
    \/ (exists more, h !! b!"Content-Length" = Some ([] :: more))) <->
   Header_Get h b!"Content-Length" = []) /\
  (Header_Get h b!"Content-Length" = [] ->
     httpx.NewBodyReader ctx req r maxSize
     = (Some (httpx.CloseBody
                {| httpx.cl_ctx := ctx; httpx.cl_r := r;
                   httpx.cl_limit := maxSize; httpx.cl_readTotal := 0 |}),
        (-1)%Z, None)) /\
  (Header_Get h b!"Content-Length" <> [] ->
   (parsed = None \/ (exists n, parsed = Some n /\ (n < 0)%Z) ->
      httpx.NewBodyReader ctx req r maxSize
      = (None, 0%Z, Some ErrLengthMismatch)) /\
   (forall n, parsed = Some n -> (0 <= n)%Z -> (0 < maxSize < n)%Z ->
      httpx.NewBodyReader ctx req r maxSize
      = (None, 0%Z, Some ErrBodyTooLarge)) /\
   (forall n, parsed = Some n -> (0 <= n)%Z -> (maxSize <= 0 \/ n <= maxSize)%Z ->
      httpx.NewBodyReader ctx req r maxSize
      = (Some (httpx.FixedBody
                 {| httpx.f_ctx := ctx; httpx.f_r := r; httpx.f_n := n;
                    httpx.f_limit := maxSize; httpx.f_readTotal := 0 |}),
         n, None))).
Proof.
  intros h parsed Hte. split; [|split].
  - unfold Header_Get.
    change (CanonicalHeaderKey b!"Content-Length") with b!"Content-Length".
    destruct (h !! b!"Content-Length") as [[|v more]|] eqn:Hlk.
    + split; [reflexivity|]. intros _. right. now left.
    + split.
      * intros [H|[H|(m & H)]]; [discriminate|discriminate|]. now injection H.
      * intros ->. right. right. now exists more.
    + split; [reflexivity|]. intros _. now left.
  - intros Hcl. unfold httpx.NewBodyReader. fold h. now rewrite Hte, Hcl.
  - intros Hcl. unfold httpx.NewBodyReader. fold h. rewrite Hte.
    destruct (Header_Get h b!"Content-Length") as [|c cl] eqn:Hget;
      [congruence|].
    fold parsed. repeat apply conj.
    + intros [-> | (n & -> & Hn)]; [reflexivity|].
      apply Z.ltb_lt in Hn. now rewrite Hn.
    + intros n -> Hn [Hm1 Hm2].
      apply Z.ltb_ge in Hn. rewrite Hn.
      apply Z.ltb_lt in Hm1, Hm2. now rewrite Hm1, Hm2.
    + intros n -> Hn Hm. apply Z.ltb_ge in Hn. rewrite Hn.
      assert ((0 <? maxSize)%Z && (maxSize <? n)%Z = false) as ->;
        [|reflexivity].
      apply andb_false_iff. destruct Hm as [Hm|Hm]; [left|right]; lia.
Qed.

Lemma NewBodyReader_content_length_witness :
  httpx.NewBodyReader None
    {| httpx.req_Header := Header_Set ∅ b!"content-length" b!" 11 " |}
    (NewReader b!"hello world") 0
  = (Some (httpx.FixedBody
             {| httpx.f_ctx := None; httpx.f_r := NewReader b!"hello world";
                httpx.f_n := 11; httpx.f_limit := 0; httpx.f_readTotal := 0 |}),
     11%Z, None).
Proof.
  refine (proj2 (proj2 (proj2 (proj2 (NewBodyReader_content_length None
            {| httpx.req_Header := Header_Set ∅ b!"content-length" b!" 11 " |}
            (NewReader b!"hello world") 0 _)) _)) 11%Z _ _ _).
  - vm_compute. reflexivity.
  - vm_compute. discriminate.
  - vm_compute. reflexivity.
  - lia.
  - lia.
Defined.

(** C5, the claim as stated fails: this request carries a Content-Length
    header, whose value is empty and so does not parse as an integer, and
    no Transfer-Encoding. [NewBodyReader] does not fail with
    [ErrLengthMismatch]: it returns the close-delimited reader, with
    length -1 and no error. *)
Lemma NewBodyReader_empty_content_length :
  let h := Header_Add ∅ b!"Content-Length" [] in
  let req := {| httpx.req_Header := h |} in
  h !! b!"Content-Length" = Some [[]] /\
  strings.EqualFold (Header_Get h b!"Transfer-Encoding") b!"chunked" = false /\
  strconv.ParseInt (strings.TrimSpace (Header_Get h b!"Content-Length")) 10
  = None /\
  httpx.NewBodyReader None req (NewReader b!"hello") 0
  = (Some (httpx.CloseBody
             {| httpx.cl_ctx := None; httpx.cl_r := NewReader b!"hello";
                httpx.cl_limit := 0; httpx.cl_readTotal := 0 |}),
     (-1)%Z, None) /\
  httpx.NewBodyReader None req (NewReader b!"hello") 0
  <> (None, 0%Z, Some ErrLengthMismatch).
Proof.
  intros h req. split; [reflexivity|]. split; [reflexivity|].
  split; [reflexivity|]. split; [vm_compute; reflexivity|].
  intros H. vm_compute in H. discriminate.
Qed.

(** ** The fixed-length reader *)

Lemma clamp_le (lenp : nat) (k : Z) :
  (0 <= k)%Z -> (Z.of_nat (httpx.clamp lenp k) <= k)%Z
                /\ (httpx.clamp lenp k <= lenp)%nat.
Proof.
  intros Hk. unfold httpx.clamp. destruct (k <? Z.of_nat lenp)%Z eqn:E; lia.
Qed.

Lemma clamp_pos (lenp : nat) (k : Z) :
  (0 < k)%Z -> (0 < lenp)%nat -> (0 < httpx.clamp lenp k)%nat.
Proof.
  intros Hk Hl. unfold httpx.clamp. destruct (k <? Z.of_nat lenp)%Z eqn:E; lia.
Qed.

Lemma fixedReader_Read_inv (n0 : Z) (f : httpx.fixedReader) (lenp : nat) res f' :
  httpx.fixed_inv n0 f ->
  httpx.fixedReader_Read f lenp = (res, f') ->
  httpx.fixed_inv n0 f' /\ httpx.f_limit f' = httpx.f_limit f
  /\ res.2 <> Some ErrBodyTooLarge.
Proof.
  intros Hinv. pose proof Hinv as (Hn & Hrt & Hsum & Hmax & Hlim).
  unfold httpx.fixedReader_Read.
  destruct (httpx.f_ctx f) as [e|] eqn:Hctx.
  { intros [= <- <-]. repeat apply conj; auto; discriminate. }
  destruct (httpx.f_n f <=? 0)%Z eqn:Hz.
  { intros [= <- <-]. repeat apply conj; auto; discriminate. }
  apply Z.leb_gt in Hz.
  destruct (src_Read _ _) as [[data err] r'] eqn:Hrd.
  apply src_Read_inv in Hrd as (Hu & Hlen & _ & _ & Herr).
  pose proof (clamp_le lenp (httpx.f_n f) Hn) as [Hc _].
  rewrite !wrap64_id by (unfold MaxInt64 in *; lia).
  cbn [httpx.f_limit httpx.f_readTotal httpx.f_n].
  assert ((0 <? httpx.f_limit f)%Z
          && (httpx.f_limit f <? httpx.f_readTotal f + Z.of_nat (length data))%Z
          = false) as ->.
  { apply andb_false_iff. destruct Hlim; [left|right]; lia. }
  assert (httpx.fixed_inv n0
            {| httpx.f_ctx := httpx.f_ctx f; httpx.f_r := r';
               httpx.f_n := httpx.f_n f - Z.of_nat (length data);
               httpx.f_limit := httpx.f_limit f;
               httpx.f_readTotal := httpx.f_readTotal f + Z.of_nat (length data) |})
    as Hinv'.
  { unfold httpx.fixed_inv; simpl. repeat apply conj; auto; lia. }
  rewrite Hctx in Hinv'.
  destruct (isEOF err && _) eqn:E1; [|destruct (_ =? 0)%Z eqn:E2];
    intros [= <- <-]; (split; [exact Hinv'|split; [reflexivity|]]);
    simpl; try discriminate.
  destruct Herr as [(-> & _)|(-> & _)]; discriminate.
Qed.

(** C10. A fixed-length reader that [NewBodyReader] built never takes the
    [ErrBodyTooLarge] branch of its [Read]: whatever buffer lengths the
    caller passes to its successive [Read] calls, no call returns
    [ErrBodyTooLarge], and under a positive [maxSize] the running total of
    bytes read stays at or below it. *)
Theorem fixedReader_BodyTooLarge_unreachable
    (ctx : Context) (req : httpx.Request) (r : Source) (maxSize n0 : Z)
    (f : httpx.fixedReader) (sizes : list nat) :
  httpx.NewBodyReader ctx req r maxSize = (Some (httpx.FixedBody f), n0, None) ->
  Forall (fun res => res.2 <> Some ErrBodyTooLarge)
         (httpx.Reads (httpx.FixedBody f) sizes).1 /\
  exists f', (httpx.Reads (httpx.FixedBody f) sizes).2 = httpx.FixedBody f' /\
             ((0 < maxSize)%Z -> (httpx.f_readTotal f' <= maxSize)%Z).
Proof.
  intros Hnew.
  assert (httpx.fixed_inv n0 f /\ httpx.f_limit f = maxSize) as [Hinv Hlim].
  { unfold httpx.NewBodyReader in Hnew.
    destruct (strings.EqualFold _ _); [discriminate|].
    destruct (Header_Get _ _) as [|c cl]; [discriminate|].
    destruct (strconv.ParseInt _ _) as [n|] eqn:Hp; [|discriminate].
    apply ParseInt_range in Hp; [|lia].
    destruct (n <? 0)%Z eqn:Hn; [discriminate|]. apply Z.ltb_ge in Hn.
    destruct (_ && _) eqn:Hm; [discriminate|].
    apply andb_false_iff in Hm.
    injection Hnew as <- <-. unfold httpx.fixed_inv; simpl.
    repeat apply conj; auto; lia. }
  clear Hnew. revert f Hinv Hlim.
  induction sizes as [|n sizes IH]; intros f Hinv Hlim; simpl.
  - split; [constructor|].
    exists f. split; [reflexivity|]. intros Hpos.
    destruct Hinv as (Hn & Hrt & Hsum & Hmax & Hl). lia.
  - destruct (httpx.fixedReader_Read f n) as [res f1] eqn:Hrd.
    destruct (fixedReader_Read_inv n0 f n res f1 Hinv Hrd) as (Hinv1 & Hl1 & Hne).
    destruct (IH f1 Hinv1 ltac:(congruence)) as [Hall Hex].
    destruct (httpx.Reads (httpx.FixedBody f1) sizes) as [ress b''] eqn:Hrs.
    simpl in *. split; [constructor; assumption|exact Hex].
Qed.

Lemma fixedReader_BodyTooLarge_unreachable_witness :
  let f := httpx.newFixedReader None (NewReader b!"hello") 5 5 in
  Forall (fun res => res.2 <> Some ErrBodyTooLarge)
         (httpx.Reads (httpx.FixedBody f) [2; 0; 7; 1]%nat).1 /\
  exists f', (httpx.Reads (httpx.FixedBody f) [2; 0; 7; 1]%nat).2
             = httpx.FixedBody f' /\
             ((0 < 5)%Z -> (httpx.f_readTotal f' <= 5)%Z).
Proof.
  apply (fixedReader_BodyTooLarge_unreachable None
           {| httpx.req_Header := Header_Set ∅ b!"Content-Length" b!"5" |}
           (NewReader b!"hello") 5 5).
  vm_compute. reflexivity.
Defined.

(** One [Read] of a fixed-length reader whose invariant holds and that
    still expects bytes, into a buffer with room: a short source is
    [ErrLengthMismatch], the last expected byte comes with [io.EOF], and
    anything else is progress. *)
Lemma fixedReader_Read_step (f : httpx.fixedReader) (lenp : nat) :
  httpx.f_ctx f = None -> (0 < httpx.f_n f)%Z -> (0 < lenp)%nat ->
  httpx.fixed_inv (httpx.f_n f + httpx.f_readTotal f) f ->
  exists data r',
    unread (httpx.f_r f) = data ++ unread r' /\
    short r' = short (httpx.f_r f) /\
    (Z.of_nat (length data) <= httpx.f_n f)%Z /\
    let f' := {| httpx.f_ctx := None; httpx.f_r := r';
                 httpx.f_n := httpx.f_n f - Z.of_nat (length data);
                 httpx.f_limit := httpx.f_limit f;
                 httpx.f_readTotal :=
                   httpx.f_readTotal f + Z.of_nat (length data) |} in
    ((unread (httpx.f_r f) = [] /\ data = [] /\
      httpx.fixedReader_Read f lenp = (([], Some ErrLengthMismatch), f'))
     \/ ((0 < length data)%nat /\ Z.of_nat (length data) = httpx.f_n f /\
         httpx.fixedReader_Read f lenp = ((data, Some EOF), f'))
     \/ ((0 < length data)%nat /\ (Z.of_nat (length data) < httpx.f_n f)%Z /\
         httpx.fixedReader_Read f lenp = ((data, None), f'))).
Proof.
  intros Hctx Hpos Hlenp (Hn & Hrt & _ & Hmax & Hlim).
  unfold httpx.fixedReader_Read. rewrite Hctx.
  assert ((httpx.f_n f <=? 0)%Z = false) as -> by lia.
  destruct (src_Read _ _) as [[data err] r'] eqn:Hrd.
  apply src_Read_inv in Hrd as (Hu & Hlen & Hsh & _ & Herr).
  pose proof (clamp_le lenp (httpx.f_n f) Hn) as [Hc _].
  pose proof (clamp_pos lenp (httpx.f_n f) Hpos Hlenp) as Hcp.
  exists data, r'. split; [exact Hu|]. split; [exact Hsh|]. split; [lia|].
  rewrite !wrap64_id by (unfold MaxInt64 in *; lia).
  cbn [httpx.f_limit httpx.f_readTotal httpx.f_n].
  assert ((0 <? httpx.f_limit f)%Z
          && (httpx.f_limit f <? httpx.f_readTotal f + Z.of_nat (length data))%Z
          = false) as ->.
  { apply andb_false_iff. destruct Hlim; [left|right]; lia. }
  destruct Herr as [(-> & Hne & Hd)|(-> & He & ->)].
  - specialize (Hd Hcp). simpl isEOF. cbn [andb].
    destruct (httpx.f_n f - Z.of_nat (length data) =? 0)%Z eqn:E.
    + right; left. repeat apply conj; auto; lia.
    + right; right. repeat apply conj; auto; lia.
  - left. simpl.
    assert ((0 <? httpx.f_n f - Z.of_nat 0)%Z = true) as -> by zbool.
    auto.
Qed.

(** Draining a fixed-length reader with [io.ReadAll]: the first [f_n]
    bytes of the source come out, with [ErrLengthMismatch] exactly when the
    source holds fewer. *)
Lemma fixedReader_ReadAll (bufsz : nat -> nat) :
  forall (m : nat) (f : httpx.fixedReader),
    (length (unread (httpx.f_r f)) <= m)%nat ->
    httpx.f_ctx f = None -> (0 < httpx.f_n f)%Z ->
    httpx.fixed_inv (httpx.f_n f + httpx.f_readTotal f) f ->
    forall (i : nat) (acc : bytes),
    exists (k : nat) (f' : httpx.fixedReader),
      httpx.f_ctx f' = None /\
      ((httpx.f_n f <= Z.of_nat (length (unread (httpx.f_r f))))%Z ->
         httpx.f_n f' = 0%Z /\
         unread (httpx.f_r f')
         = drop (Z.to_nat (httpx.f_n f)) (unread (httpx.f_r f))) /\
      forall fuel, (k <= fuel)%nat ->
        httpx.ReadAll fuel bufsz (httpx.FixedBody f) i acc
        = Some (acc ++ take (Z.to_nat (httpx.f_n f)) (unread (httpx.f_r f)),
                if (Z.of_nat (length (unread (httpx.f_r f))) <? httpx.f_n f)%Z
                then Some ErrLengthMismatch else None,
                httpx.FixedBody f').
Proof.
  induction m as [m IH] using lt_wf_ind.
  intros f Hm Hctx Hpos Hinv i acc.
  destruct (fixedReader_Read_step f (S (bufsz i)) Hctx Hpos ltac:(lia) Hinv)
    as (data & r' & Hu & Hsh & Hle & Hcases).
  cbv zeta in Hcases.
  set (f1 := {| httpx.f_ctx := None; httpx.f_r := r';
                httpx.f_n := httpx.f_n f - Z.of_nat (length data);
                httpx.f_limit := httpx.f_limit f;
                httpx.f_readTotal :=
                  httpx.f_readTotal f + Z.of_nat (length data) |}) in *.
  destruct Hcases as [(He & Hd0 & Hrd)|[(Hd & Heq & Hrd)|(Hd & Hlt & Hrd)]].
  - exists 1%nat, f1. split; [reflexivity|]. split.
    { rewrite He. simpl. lia. }
    intros [|fuel] Hf; [lia|]. simpl. rewrite Hrd.
    assert ((Z.of_nat (length (unread (httpx.f_r f))) <? httpx.f_n f)%Z = true)
      as -> by (rewrite He; simpl length; zbool).
    rewrite He, take_nil. reflexivity.
  - exists 1%nat, f1. split; [reflexivity|]. split.
    { intros _. simpl. split; [lia|]. rewrite Hu, <- Heq, Nat2Z.id.
      now rewrite drop_app_length. }
    intros [|fuel] Hf; [lia|]. simpl. rewrite Hrd.
    assert ((Z.of_nat (length (unread (httpx.f_r f))) <? httpx.f_n f)%Z = false)
      as ->.
    { rewrite Hu, length_app. zbool. }
    rewrite Hu, <- Heq, Nat2Z.id, take_app_length. reflexivity.
  - assert (length (unread r') < m)%nat as Hm'.
    { rewrite Hu, length_app in Hm. lia. }
    assert (httpx.fixed_inv (httpx.f_n f1 + httpx.f_readTotal f1) f1) as Hinv1.
    { destruct Hinv as (Hn & Hrt & _ & Hmax & Hlim).
      unfold httpx.fixed_inv, f1; simpl. repeat apply conj; auto; lia. }
    destruct (IH (length (unread r')) Hm' f1 ltac:(simpl; lia) eq_refl
                ltac:(simpl; lia) Hinv1 (S i) (acc ++ data))
      as (k & f' & Hctx' & Hfin & Hrun).
    exists (S k), f'. split; [exact Hctx'|]. split.
    { intros Hge. simpl in Hfin.
      destruct Hfin as [Hz Hrest].
      { rewrite Hu, length_app in Hge. lia. }
      split; [exact Hz|]. rewrite Hrest, Hu.
      replace (Z.to_nat (httpx.f_n f))
        with (length data + Z.to_nat (httpx.f_n f - Z.of_nat (length data)))%nat
        by lia.
      now rewrite drop_app_add. }
    intros [|fuel] Hf; [lia|]. simpl. rewrite Hrd.
    rewrite (Hrun fuel ltac:(lia)). simpl.
    rewrite Hu.
    replace (Z.to_nat (httpx.f_n f))
      with (length data + Z.to_nat (httpx.f_n f - Z.of_nat (length data)))%nat
      by lia.
    rewrite take_app_add. rewrite <- app_assoc.
    rewrite length_app.
    replace (Z.of_nat (length data + length (unread r'))
             <? httpx.f_n f)%Z
      with (Z.of_nat (length (unread r'))
            <? httpx.f_n f - Z.of_nat (length data))%Z; [reflexivity|].
    destruct (Z.ltb_spec (Z.of_nat (length (unread r')))
                (httpx.f_n f - Z.of_nat (length data)));
    destruct (Z.ltb_spec (Z.of_nat (length data + length (unread r')))
                (httpx.f_n f)); lia.
Qed.

Lemma fixedReader_Read_at_end (f : httpx.fixedReader) (lenp : nat) :
  httpx.f_ctx f = None -> httpx.f_n f = 0%Z ->
  httpx.fixedReader_Read f lenp = (([], Some EOF), f).
Proof.
  intros Hctx Hn. unfold httpx.fixedReader_Read. now rewrite Hctx, Hn.
Qed.

(** C4. A fixed-length reader with declared count [N] (a cap, when one is
    set, being at least [N], as [NewBodyReader] ensures), drained by
    [io.ReadAll] with buffers of any lengths from a source that may
    deliver short reads: over a source of exactly [N] bytes it yields
    those bytes and ends without error, and from then on every [Read]
    returns no byte and [io.EOF], leaving the reader as it is; over a
    source of fewer than [N] bytes it yields the bytes present and fails
    with [ErrLengthMismatch]. *)
Theorem fixedReader_exact_length
    (data : bytes) (N limit : Z) (sh : nat -> nat -> nat) (bufsz : nat -> nat) :
  let src := {| unread := data; short := sh; calls := 0 |} in
  let b := httpx.FixedBody (httpx.newFixedReader None src N limit) in
  (0 <= N <= MaxInt64)%Z -> (limit <= 0 \/ N <= limit)%Z ->
  (Z.of_nat (length data) = N ->
     exists k f',
       (forall fuel, (k <= fuel)%nat ->
          httpx.ReadAll fuel bufsz b 0 [] = Some (data, None, httpx.FixedBody f'))
       /\ forall lenp, httpx.fixedReader_Read f' lenp = (([], Some EOF), f'))
  /\
  ((Z.of_nat (length data) < N)%Z ->
     exists k f',
       forall fuel, (k <= fuel)%nat ->
         httpx.ReadAll fuel bufsz b 0 []
         = Some (data, Some ErrLengthMismatch, httpx.FixedBody f')).
Proof.
  intros src b [HN0 HN] Hlim.
  set (f := httpx.newFixedReader None src N limit).
  assert (httpx.fixed_inv (httpx.f_n f + httpx.f_readTotal f) f) as Hinv.
  { unfold httpx.fixed_inv, f; simpl. repeat apply conj; auto; lia. }
  split.
  - intros Hlen. destruct (Z.eq_dec N 0%Z) as [HZ|HZ].
    + exists 1%nat, f. split.
      * intros [|fuel] Hf; [lia|]. unfold b. fold f. simpl.
        rewrite (fixedReader_Read_at_end f _ eq_refl HZ).
        destruct data; [reflexivity|simpl in Hlen; lia].
      * intros lenp. now apply fixedReader_Read_at_end.
    + destruct (fixedReader_ReadAll bufsz (length data) f (le_n _) eq_refl
                  ltac:(simpl; lia) Hinv 0%nat [])
        as (k & f' & Hctx' & Hfin & Hrun).
      destruct Hfin as [Hz _]; [simpl; lia|].
      exists k, f'. split.
      * intros fuel Hf. unfold b. fold f. rewrite (Hrun fuel Hf). simpl.
        rewrite take_ge by lia.
        assert ((Z.of_nat (length data) <? N)%Z = false) as -> by zbool.
        reflexivity.
      * intros lenp. now apply fixedReader_Read_at_end.
  - intros Hlen.
    destruct (fixedReader_ReadAll bufsz (length data) f (le_n _) eq_refl
                ltac:(simpl; lia) Hinv 0%nat [])
      as (k & f' & Hctx' & _ & Hrun).
    exists k, f'. intros fuel Hf. unfold b. fold f. rewrite (Hrun fuel Hf).
    simpl. rewrite take_ge by lia.
    assert ((Z.of_nat (length data) <? N)%Z = true) as -> by zbool.
    reflexivity.
Qed.

Lemma fixedReader_exact_length_witness :
  (exists k f',
      (forall fuel, (k <= fuel)%nat ->
         httpx.ReadAll fuel (fun _ => 511%nat)
           (httpx.FixedBody
              (httpx.newFixedReader None (NewReader b!"hello world") 11 0))
           0 []
         = Some (b!"hello world", None, httpx.FixedBody f'))
      /\ forall lenp, httpx.fixedReader_Read f' lenp = (([], Some EOF), f'))
  /\
  (exists k f',
      forall fuel, (k <= fuel)%nat ->
        httpx.ReadAll fuel (fun _ => 511%nat)
          (httpx.FixedBody (httpx.newFixedReader None (NewReader b!"abc") 5 0))
          0 []
        = Some (b!"abc", Some ErrLengthMismatch, httpx.FixedBody f')).
Proof.
  split.
  - apply (fixedReader_exact_length b!"hello world" 11 0
             (fun _ n => n) (fun _ => 511%nat)).
    + unfold MaxInt64; lia.
    + lia.
    + reflexivity.
  - apply (fixedReader_exact_length b!"abc" 5 0
             (fun _ n => n) (fun _ => 511%nat)).
    + unfold MaxInt64; lia.
    + lia.
    + simpl; lia.
Defined.

(** ** The close-delimited reader *)

(** One [Read] of a capped close-delimited reader below its cap, into a
    buffer with room. *)
Lemma closeReader_Read_step (c : httpx.closeReader) (lenp : nat) :
  httpx.cl_ctx c = None -> (0 < lenp)%nat ->
  (0 <= httpx.cl_readTotal c < httpx.cl_limit c)%Z ->
  (httpx.cl_limit c <= MaxInt64)%Z ->
  exists data r',
    unread (httpx.cl_r c) = data ++ unread r' /\
    short r' = short (httpx.cl_r c) /\
    (httpx.cl_readTotal c + Z.of_nat (length data) <= httpx.cl_limit c)%Z /\
    let c' := {| httpx.cl_ctx := None; httpx.cl_r := r';
                 httpx.cl_limit := httpx.cl_limit c;
                 httpx.cl_readTotal :=
                   httpx.cl_readTotal c + Z.of_nat (length data) |} in
    ((unread (httpx.cl_r c) = [] /\ data = [] /\
      httpx.closeReader_Read c lenp = (([], Some EOF), c'))
     \/ ((0 < length data)%nat /\
         httpx.closeReader_Read c lenp = ((data, None), c'))).
Proof.
  intros Hctx Hlenp [Hrt Hlt] Hmax.
  unfold httpx.closeReader_Read. rewrite Hctx.
  rewrite (wrap64_id (httpx.cl_limit c - httpx.cl_readTotal c))
    by (unfold MaxInt64 in *; lia).
  assert ((0 <? httpx.cl_limit c)%Z = true) as Hl by zbool. rewrite Hl.
  assert ((httpx.cl_limit c - httpx.cl_readTotal c <=? 0)%Z = false) as ->
    by zbool.
  cbn [andb].
  destruct (src_Read _ _) as [[data err] r'] eqn:Hrd.
  apply src_Read_inv in Hrd as (Hu & Hlen & Hsh & _ & Herr).
  pose proof (clamp_le lenp (httpx.cl_limit c - httpx.cl_readTotal c)
                ltac:(lia)) as [Hc _].
  pose proof (clamp_pos lenp (httpx.cl_limit c - httpx.cl_readTotal c)
                ltac:(lia) Hlenp) as Hcp.
  exists data, r'. split; [exact Hu|]. split; [exact Hsh|]. split; [lia|].
  rewrite wrap64_id by (unfold MaxInt64 in *; lia).
  cbn [httpx.cl_limit httpx.cl_readTotal]. rewrite Hl.
  assert ((httpx.cl_limit c <? httpx.cl_readTotal c + Z.of_nat (length data))%Z
          = false) as -> by zbool.
  cbn [andb].
  destruct Herr as [(-> & Hne & Hd)|(-> & He & ->)].
  - right. split; [auto|reflexivity].
  - left. auto.
Qed.

(** Draining a capped close-delimited reader with [io.ReadAll]: what the
    source holds comes out, cut at the remaining allowance, and the stream
    ends without error either way. *)
Lemma closeReader_ReadAll (bufsz : nat -> nat) :
  forall (m : nat) (c : httpx.closeReader),
    (length (unread (httpx.cl_r c)) <= m)%nat ->
    httpx.cl_ctx c = None ->
    (0 <= httpx.cl_readTotal c <= httpx.cl_limit c)%Z ->
    (0 < httpx.cl_limit c <= MaxInt64)%Z ->
    forall (i : nat) (acc : bytes),
    exists (k : nat) (c' : httpx.closeReader),
      forall fuel, (k <= fuel)%nat ->
        httpx.ReadAll fuel bufsz (httpx.CloseBody c) i acc
        = Some (acc ++ take (Z.to_nat (httpx.cl_limit c - httpx.cl_readTotal c))
                            (unread (httpx.cl_r c)),
                None, httpx.CloseBody c').
Proof.
  induction m as [m IH] using lt_wf_ind.
  intros c Hm Hctx [Hrt Hle] [Hlpos Hmax] i acc.
  destruct (Z.eq_dec (httpx.cl_readTotal c) (httpx.cl_limit c)) as [Heq|Hne].
  { exists 1%nat, c. intros [|fuel] Hf; [lia|]. simpl.
    unfold httpx.closeReader_Read. rewrite Hctx, Heq, Z.sub_diag.
    assert ((0 <? httpx.cl_limit c)%Z = true) as -> by zbool.
    simpl. now rewrite take_0. }
  destruct (closeReader_Read_step c (S (bufsz i)) Hctx ltac:(lia) ltac:(lia) Hmax)
    as (data & r' & Hu & Hsh & Hcap & Hcases).
  cbv zeta in Hcases.
  set (c1 := {| httpx.cl_ctx := None; httpx.cl_r := r';
                httpx.cl_limit := httpx.cl_limit c;
                httpx.cl_readTotal :=
                  httpx.cl_readTotal c + Z.of_nat (length data) |}) in *.
  destruct Hcases as [(He & Hd0 & Hrd)|(Hd & Hrd)].
  - exists 1%nat, c1. intros [|fuel] Hf; [lia|]. simpl. rewrite Hrd.
    now rewrite He, take_nil.
  - assert (length (unread r') < m)%nat as Hm'.
    { rewrite Hu, length_app in Hm. lia. }
    destruct (IH (length (unread r')) Hm' c1 ltac:(simpl; lia) eq_refl
                ltac:(simpl; lia) ltac:(simpl; lia) (S i) (acc ++ data))
      as (k & c' & Hrun).
    exists (S k), c'. intros [|fuel] Hf; [lia|]. simpl. rewrite Hrd.
    rewrite (Hrun fuel ltac:(lia)). simpl. rewrite Hu.
    replace (Z.to_nat (httpx.cl_limit c - httpx.cl_readTotal c))
      with (length data
            + Z.to_nat (httpx.cl_limit c
                        - (httpx.cl_readTotal c + Z.of_nat (length data))))%nat
      by lia.
    now rewrite take_app_add, <- app_assoc.
Qed.

(** C1, on the code. A close-delimited reader with a positive cap never
    reports [ErrBodyTooLarge] when drained: whatever the source holds comes
    out cut to the first [limit] bytes and the stream ends normally. A body
    of exactly [limit] bytes is therefore delivered whole, and a body of
    [limit + 1] bytes loses its last byte without any error. *)
Theorem closeReader_cap_truncates
    (data : bytes) (limit : Z) (sh : nat -> nat -> nat) (bufsz : nat -> nat) :
  (0 < limit <= MaxInt64)%Z ->
  exists k c',
    forall fuel, (k <= fuel)%nat ->
      httpx.ReadAll fuel bufsz
        (httpx.CloseBody
           (httpx.newCloseReader None
              {| unread := data; short := sh; calls := 0 |} limit)) 0 []
      = Some (take (Z.to_nat limit) data, None, httpx.CloseBody c').
Proof.
  intros Hl.
  destruct (closeReader_ReadAll bufsz (length data)
              (httpx.newCloseReader None
                 {| unread := data; short := sh; calls := 0 |} limit)
              (le_n _) eq_refl ltac:(simpl; lia) ltac:(simpl; lia) 0%nat [])
    as (k & c' & Hrun).
  exists k, c'. intros fuel Hf. rewrite (Hrun fuel Hf). simpl.
  now rewrite Z.sub_0_r.
Qed.

Lemma closeReader_cap_truncates_witness :
  exists k c',
    forall fuel, (k <= fuel)%nat ->
      httpx.ReadAll fuel (fun _ => 511%nat)
        (httpx.CloseBody (httpx.newCloseReader None (NewReader b!"abcd") 3)) 0 []
      = Some (b!"abc", None, httpx.CloseBody c').
Proof.
  apply (closeReader_cap_truncates b!"abcd" 3 (fun _ n => n) (fun _ => 511%nat)).
  unfold MaxInt64; lia.
Defined.

(** The same on the bytes "abcd" under a cap of 3, run step by step. *)
Example closeReader_abcd_cap_3 :
  httpx.ReadAll 4 (fun _ => 511%nat)
    (httpx.CloseBody (httpx.newCloseReader None (NewReader b!"abcd") 3)) 0 []
  = Some (b!"abc", None,
          httpx.CloseBody
            {| httpx.cl_ctx := None;
               httpx.cl_r := {| unread := b!"d"; short := fun _ n => n;
                                calls := 1 |};
               httpx.cl_limit := 3; httpx.cl_readTotal := 3 |}).
Proof. reflexivity. Qed.

(** ** Lines *)

Lemma splitDelim_Some (u : bytes) (d : ascii) line rest :
  splitDelim u d = Some (line, rest) ->
  exists c, line = c ++ [d] /\ u = c ++ d :: rest /\ ~ In d c.
Proof.
  revert line rest. induction u as [|x u IH]; simpl; intros line rest; [discriminate|].
  destruct (Ascii.eqb x d) eqn:E.
  - apply Ascii.eqb_eq in E as ->. intros [= <- <-]. exists []. auto.
  - apply Ascii.eqb_neq in E.
    destruct (splitDelim u d) as [[l r]|]; [|discriminate].
    intros [= <- <-]. destruct (IH l r eq_refl) as (c & -> & -> & Hc).
    exists (x :: c). repeat apply conj; auto. intros [H|H]; auto.
Qed.

Lemma splitDelim_None (u : bytes) (d : ascii) :
  splitDelim u d = None -> ~ In d u.
Proof.
  induction u as [|x u IH]; simpl; [tauto|].
  destruct (Ascii.eqb x d) eqn:E; [discriminate|].
  apply Ascii.eqb_neq in E.
  destruct (splitDelim u d) as [[l r]|]; [discriminate|].
  intros _ [H|H]; [auto|]. now apply IH.
Qed.

Lemma splitDelim_app_notin (p v : bytes) (d : ascii) :
  ~ In d p ->
  splitDelim (p ++ v) d
  = match splitDelim v d with
    | Some (l, r) => Some (p ++ l, r)
    | None => None
    end.
Proof.
  induction p as [|x p IH]; simpl; intros Hp.
  - now destruct (splitDelim v d) as [[l r]|].
  - destruct (Ascii.eqb x d) eqn:E.
    { apply Ascii.eqb_eq in E. exfalso. auto. }
    rewrite IH by tauto. now destruct (splitDelim v d) as [[l r]|].
Qed.

Lemma splitDelim_found (c t : bytes) (d : ascii) :
  ~ In d c -> splitDelim (c ++ d :: t) d = Some (c ++ [d], t).
Proof.
  intros Hc. rewrite splitDelim_app_notin by exact Hc.
  simpl. now rewrite Ascii.eqb_refl.
Qed.

Lemma splitDelim_notin (u : bytes) (d : ascii) :
  ~ In d u -> splitDelim u d = None.
Proof.
  intros Hu. destruct (splitDelim u d) as [[l r]|] eqn:E; [|reflexivity].
  apply splitDelim_Some in E as (c & -> & -> & _).
  exfalso. apply Hu. apply in_app_iff. right. now left.
Qed.

Lemma rawLine_found (c t : bytes) :
  ~ In LF c -> rawLine (c ++ LF :: t) = c ++ [LF].
Proof. intros Hc. unfold rawLine. now rewrite splitDelim_found. Qed.

Lemma rawLine_notin (u : bytes) : ~ In LF u -> rawLine u = u.
Proof. intros Hu. unfold rawLine. now rewrite splitDelim_notin. Qed.

Lemma rawLine_app_notin (p v : bytes) :
  ~ In LF p -> rawLine (p ++ v) = p ++ rawLine v.
Proof.
  intros Hp. unfold rawLine. rewrite splitDelim_app_notin by exact Hp.
  now destruct (splitDelim v LF) as [[l r]|].
Qed.

(** The three outcomes of [ReadSlice('\n')]. *)
Lemma br_ReadSlice_cases (size : nat) (s : Source) :
  (exists c t, unread s = c ++ LF :: t /\ ~ In LF c /\ (length c < size)%nat /\
     br_ReadSlice size s LF = ((c ++ [LF], None), advance s (S (length c))))
  \/ ((size <= length (unread s))%nat /\ ~ In LF (take size (unread s)) /\
      br_ReadSlice size s LF
      = ((take size (unread s), Some ErrBufferFull), advance s size))
  \/ ((length (unread s) < size)%nat /\ ~ In LF (unread s) /\
      br_ReadSlice size s LF
      = ((unread s, Some EOF), advance s (length (unread s)))).
Proof.
  unfold br_ReadSlice.
  destruct (splitDelim (take size (unread s)) LF) as [[l r]|] eqn:E.
  - left. apply splitDelim_Some in E as (c & -> & Ht & Hc).
    exists c, (r ++ drop size (unread s)). repeat apply conj; auto.
    + rewrite <- (take_drop size (unread s)) at 1. rewrite Ht.
      now rewrite <- app_assoc.
    + assert (length (take size (unread s)) <= size)%nat as Hl
        by (rewrite length_take; lia).
      rewrite Ht, length_app in Hl. simpl in Hl. lia.
    + rewrite length_app. simpl. now rewrite Nat.add_1_r.
  - apply splitDelim_None in E. right.
    destruct (size <=? length (unread s))%nat eqn:Hs.
    + left. apply Nat.leb_le in Hs. auto.
    + right. apply Nat.leb_gt in Hs. rewrite take_ge in E by lia.
      repeat apply conj; auto.
Qed.

(** The loop of [ReadLine], started with [buf] already accumulated: the
    limit is checked against the accumulated bytes together with the raw
    line still in the source. *)
Lemma ReadLine_loop_spec :
  forall (fuel : nat) (r : netx.CRLFFastReader) (max : Z) (buf : bytes),
    (0 < netx.bufSize r)%nat ->
    (length (unread (netx.br r)) < fuel)%nat ->
    let u := unread (netx.br r) in
    let total := Z.of_nat (length buf + length (rawLine u)) in
    ((max < total)%Z ->
       exists r', netx.ReadLine_loop fuel r max buf
                  = Some (([], true, Some ErrLineTooLong), r'))
    /\ ((total <= max)%Z ->
          exists r',
            unread (netx.br r') = drop (length (rawLine u)) u /\
            netx.bufSize r' = netx.bufSize r /\
            (In LF u ->
               netx.ReadLine_loop fuel r max buf
               = Some ((netx.trimEOL (buf ++ rawLine u), false, None), r')) /\
            (~ In LF u ->
               netx.ReadLine_loop fuel r max buf
               = Some ((buf ++ u, false, Some EOF), r'))).
Proof.
  induction fuel as [|fuel IH]; intros r max buf Hsz Hfuel; [lia|].
  cbv zeta. simpl netx.ReadLine_loop.
  destruct (br_ReadSlice_cases (netx.bufSize r) (netx.br r))
    as [(c & t & Hu & Hc & Hlen & Hrs)|[(Hfull & Hno & Hrs)|(Hshort & Hno & Hrs)]];
    rewrite Hrs; clear Hrs.
  - (* the newline is in the buffer *)
    rewrite Hu, rawLine_found by exact Hc.
    split.
    + intros Hgt. eexists.
      assert ((max <? Z.of_nat (length buf) + Z.of_nat (length (c ++ [LF])))%Z
              = true) as -> by zbool.
      reflexivity.
    + intros Hle.
      exists {| netx.br := advance (netx.br r) (S (length c));
                netx.bufSize := netx.bufSize r |}.
      split; [|split; [|split]].
      * simpl. rewrite Hu. rewrite length_app. simpl.
        now rewrite Nat.add_1_r.
      * reflexivity.
      * intros _.
        assert ((max <? Z.of_nat (length buf) + Z.of_nat (length (c ++ [LF])))%Z
                = false) as -> by zbool.
        reflexivity.
      * intros Hn. exfalso. apply Hn. apply in_app_iff. right. now left.
  - (* a full buffer without newline *)
    set (part := take (netx.bufSize r) (unread (netx.br r))) in *.
    set (rest := drop (netx.bufSize r) (unread (netx.br r))).
    assert (unread (netx.br r) = part ++ rest) as Hu
      by (symmetry; apply take_drop).
    assert (length part = netx.bufSize r) as Hpl
      by (unfold part; rewrite length_take; lia).
    set (r1 := {| netx.br := advance (netx.br r) (netx.bufSize r);
                  netx.bufSize := netx.bufSize r |}).
    assert (unread (netx.br r1) = rest) as Hu1 by reflexivity.
    assert (length (unread (netx.br r1)) < fuel)%nat as Hfuel1.
    { rewrite Hu1. unfold rest. rewrite length_drop. lia. }
    destruct (IH r1 max (buf ++ part) Hsz Hfuel1) as [IHbig IHok].
    cbv zeta in IHbig, IHok. rewrite Hu1 in IHbig, IHok.
    rewrite Hu, rawLine_app_notin by exact Hno.
    assert (length (buf ++ part) + length (rawLine rest)
            = length buf + length (part ++ rawLine rest))%nat as Htot
      by (rewrite !length_app; lia).
    rewrite Htot in IHbig, IHok.
    destruct (max <? Z.of_nat (length buf) + Z.of_nat (length part))%Z eqn:Hchk.
    + split.
      * intros _. eexists. reflexivity.
      * intros Hle. exfalso. apply Z.ltb_lt in Hchk.
        rewrite length_app in Hle. lia.
    + split; [exact IHbig|].
      intros Hle. destruct (IHok Hle) as (r' & Hur & Hbr & Hin & Hnin).
      exists r'. split; [|split; [exact Hbr|split]].
      * rewrite Hur, length_app. now rewrite drop_app_add.
      * intros HLF. rewrite Hin; [now rewrite <- app_assoc|].
        apply in_app_iff in HLF as [H|H]; [contradiction|exact H].
      * intros HLF. rewrite Hnin; [now rewrite <- app_assoc|].
        intros H. apply HLF. apply in_app_iff. now right.
  - (* the source ends before a newline *)
    rewrite rawLine_notin by exact Hno.
    split.
    + intros Hgt. eexists.
      assert ((max <? Z.of_nat (length buf)
                      + Z.of_nat (length (unread (netx.br r))))%Z = true)
        as -> by zbool.
      reflexivity.
    + intros Hle.
      exists {| netx.br := advance (netx.br r) (length (unread (netx.br r)));
                netx.bufSize := netx.bufSize r |}.
      split; [|split; [|split]].
      * simpl. reflexivity.
      * reflexivity.
      * intros HLF. contradiction.
      * intros _.
        assert ((max <? Z.of_nat (length buf)
                        + Z.of_nat (length (unread (netx.br r))))%Z = false)
          as -> by zbool.
        destruct (length (buf ++ unread (netx.br r)) =? 0)%nat eqn:E;
          [|reflexivity].
        apply Nat.eqb_eq in E. apply length_zero_iff_nil in E.
        now rewrite E.
Qed.

(** The fuel [ReadLine] hands to its loop is enough. *)
Lemma ReadLine_loop_total (r : netx.CRLFFastReader) (max : Z) :
  (0 < netx.bufSize r)%nat ->
  is_Some (netx.ReadLine_loop (S (length (unread (netx.br r)))) r max []).
Proof.
  intros Hsz.
  destruct (ReadLine_loop_spec (S (length (unread (netx.br r)))) r max []
              Hsz ltac:(lia)) as [Hbig Hok].
  cbv zeta in Hbig, Hok.
  destruct (Z.lt_ge_cases max
              (Z.of_nat (length (@nil ascii)
                         + length (rawLine (unread (netx.br r)))))) as [H|H].
  - destruct (Hbig H) as (r' & ->). eauto.
  - destruct (Hok H) as (r' & _ & _ & Hin & Hnin).
    destruct (In_dec ascii_dec LF (unread (netx.br r))) as [HLF|HLF].
    + rewrite (Hin HLF). eauto.
    + rewrite (Hnin HLF). eauto.
Qed.

Lemma ReadLine_spec (r : netx.CRLFFastReader) (max : Z) :
  (0 < max)%Z -> (0 < netx.bufSize r)%nat ->
  let u := unread (netx.br r) in
  ((max < Z.of_nat (length (rawLine u)))%Z ->
     (netx.ReadLine r max).1 = ([], true, Some ErrLineTooLong))
  /\ ((Z.of_nat (length (rawLine u)) <= max)%Z ->
        unread (netx.br (netx.ReadLine r max).2) = drop (length (rawLine u)) u /\
        (In LF u ->
           (netx.ReadLine r max).1 = (netx.trimEOL (rawLine u), false, None)) /\
        (~ In LF u -> (netx.ReadLine r max).1 = (u, false, Some EOF))).
Proof.
  intros Hmax Hsz. cbv zeta. unfold netx.ReadLine.
  assert ((max <=? 0)%Z = false) as -> by zbool.
  destruct (ReadLine_loop_spec (S (length (unread (netx.br r)))) r max []
              Hsz ltac:(lia)) as [Hbig Hok].
  cbv zeta in Hbig, Hok. simpl length in Hbig, Hok.
  rewrite Nat.add_0_l in Hbig, Hok. simpl app in Hok.
  split.
  - intros H. destruct (Hbig H) as (r' & ->). reflexivity.
  - intros H. destruct (Hok H) as (r' & Hu & _ & Hin & Hnin).
    destruct (In_dec ascii_dec LF (unread (netx.br r))) as [HLF|HLF].
    + rewrite (Hin HLF). simpl. repeat apply conj; auto. intros; contradiction.
    + rewrite (Hnin HLF). simpl. repeat apply conj; auto. intros; contradiction.
Qed.

(** C6, as the code has it. For a positive [max], [ReadLine] fails with
    [ErrLineTooLong] exactly when the raw line at the head of the source
    (its content together with its terminator bytes, or the unterminated
    rest of the source) is longer than [max], and it then returns no line;
    a terminated line whose raw length is at most [max] is returned,
    trimmed, without error. *)
Theorem ReadLine_limit_counts_terminator (r : netx.CRLFFastReader) (max : Z) :
  (0 < max)%Z -> (0 < netx.bufSize r)%nat ->
  let u := unread (netx.br r) in
  ((netx.ReadLine r max).1.2 = Some ErrLineTooLong
   <-> (max < Z.of_nat (length (rawLine u)))%Z)
  /\ ((max < Z.of_nat (length (rawLine u)))%Z ->
        (netx.ReadLine r max).1 = ([], true, Some ErrLineTooLong))
  /\ (In LF u -> (Z.of_nat (length (rawLine u)) <= max)%Z ->
        (netx.ReadLine r max).1 = (netx.trimEOL (rawLine u), false, None)).
Proof.
  intros Hmax Hsz u. destruct (ReadLine_spec r max Hmax Hsz) as [Hbig Hok].
  fold u in Hbig, Hok. split; [|split].
  - split.
    + intros Herr.
      destruct (Z.lt_ge_cases max (Z.of_nat (length (rawLine u)))) as [H|H];
        [exact H|exfalso].
      destruct (Hok H) as (_ & Hin & Hnin).
      destruct (In_dec ascii_dec LF u) as [HLF|HLF].
      * rewrite (Hin HLF) in Herr. discriminate.
      * rewrite (Hnin HLF) in Herr. discriminate.
    + intros H. now rewrite (Hbig H).
  - exact Hbig.
  - intros HLF H. now apply Hok.
Qed.

Lemma ReadLine_limit_counts_terminator_witness :
  let r := netx.NewCRLFFastReader (NewReader (b!"Host: x" ++ CRLF ++ CRLF)) in
  ((netx.ReadLine r 9).1.2 = Some ErrLineTooLong
   <-> (9 < Z.of_nat (length (rawLine (unread (netx.br r)))))%Z)
  /\ ((9 < Z.of_nat (length (rawLine (unread (netx.br r)))))%Z ->
        (netx.ReadLine r 9).1 = ([], true, Some ErrLineTooLong))
  /\ (In LF (unread (netx.br r)) ->
      (Z.of_nat (length (rawLine (unread (netx.br r)))) <= 9)%Z ->
        (netx.ReadLine r 9).1
        = (netx.trimEOL (rawLine (unread (netx.br r))), false, None)).
Proof.
  apply (ReadLine_limit_counts_terminator
           (netx.NewCRLFFastReader (NewReader (b!"Host: x" ++ CRLF ++ CRLF))) 9).
  - lia.
  - unfold netx.NewCRLFFastReader, netx.DefaultBufSize. simpl. lia.
Defined.

(** C6, the claim as stated fails: the content "abc" is no longer than the
    limit 3, its line is terminated, and [ReadLine] still answers
    [ErrLineTooLong], because the two terminator bytes are counted. *)
Lemma ReadLine_content_fits_line_too_long :
  let r := netx.NewCRLFFastReader (NewReader (b!"abc" ++ CRLF)) in
  (Z.of_nat (length b!"abc") <= 3)%Z /\
  (netx.ReadLine r 3).1 = ([], true, Some ErrLineTooLong).
Proof. split; [simpl; lia|reflexivity]. Qed.

Lemma trimEOL_CRLF (c : bytes) : netx.trimEOL (c ++ CRLF) = c.
Proof.
  unfold netx.trimEOL, CRLF. rewrite length_app. simpl length.
  replace (length c + 2 - 1)%nat with (length (c ++ [CR])) at 1
    by (rewrite length_app; simpl; lia).
  replace (c ++ [CR; LF]) with ((c ++ [CR]) ++ LF :: []) at 1
    by (now rewrite <- app_assoc).
  rewrite nth_middle.
  assert ((0 <? length c + 2)%nat = true) as -> by (apply Nat.ltb_lt; lia).
  cbn [andb Ascii.eqb]. rewrite Ascii.eqb_refl.
  replace (length c + 2 - 1 - 1)%nat with (length c) by lia.
  rewrite nth_middle, Ascii.eqb_refl.
  assert ((0 <? length c + 2 - 1)%nat = true) as -> by (apply Nat.ltb_lt; lia).
  cbn [andb]. now rewrite take_app_length.
Qed.

Lemma trimEOL_LF (c : bytes) :
  (forall c0, c <> c0 ++ [CR]) -> netx.trimEOL (c ++ [LF]) = c.
Proof.
  intros Hc. unfold netx.trimEOL. rewrite length_app. simpl length.
  replace (length c + 1 - 1)%nat with (length c) by lia.
  rewrite nth_middle, Ascii.eqb_refl.
  assert ((0 <? length c + 1)%nat = true) as -> by (apply Nat.ltb_lt; lia).
  cbn [andb].
  destruct c as [|x c'] using rev_ind.
  - reflexivity.
  - clear IHc'. rewrite length_app. simpl length.
    replace (length c' + 1 - 1)%nat with (length c') by lia.
    rewrite <- app_assoc. simpl app. rewrite nth_middle.
    assert ((0 <? length c' + 1)%nat = true) as -> by (apply Nat.ltb_lt; lia).
    cbn [andb].
    destruct (Ascii.eqb x CR) eqn:E.
    + apply Ascii.eqb_eq in E. subst x. exfalso. now apply (Hc c').
    + replace (c' ++ [x; LF]) with ((c' ++ [x]) ++ [LF])
        by (now rewrite <- app_assoc).
      replace (length c' + 1)%nat with (length (c' ++ [x]))
        by (rewrite length_app; simpl; lia).
      now rewrite take_app_length.
Qed.

(** C7. [ReadLine] on a source whose first line fits the limit: a line
    ending in CR LF comes out without these two bytes and no more, so that
    a CR before the stripped CR stays; a line ending in a bare LF comes
    out without that LF; a CR elsewhere in the line is content; a source
    starting with CR LF or with LF gives the empty line. In each case no
    error is returned and the source is left at the byte after the LF. *)
Theorem ReadLine_strips_one_terminator (r : netx.CRLFFastReader) (max : Z) :
  (0 < netx.bufSize r)%nat ->
  (forall content tail,
      ~ In LF content -> unread (netx.br r) = content ++ CRLF ++ tail ->
      (Z.of_nat (length content) + 2 <= max)%Z ->
      (netx.ReadLine r max).1 = (content, false, None)
      /\ unread (netx.br (netx.ReadLine r max).2) = tail)
  /\ (forall content tail,
      ~ In LF content -> (forall c0, content <> c0 ++ [CR]) ->
      unread (netx.br r) = content ++ LF :: tail ->
      (Z.of_nat (length content) + 1 <= max)%Z ->
      (netx.ReadLine r max).1 = (content, false, None)
      /\ unread (netx.br (netx.ReadLine r max).2) = tail)
  /\ (forall tail,
      unread (netx.br r) = CRLF ++ tail -> (2 <= max)%Z ->
      (netx.ReadLine r max).1 = ([], false, None))
  /\ (forall tail,
      unread (netx.br r) = LF :: tail -> (1 <= max)%Z ->
      (netx.ReadLine r max).1 = ([], false, None)).
Proof.
  intros Hsz.
  assert (forall c tail, ~ In LF c -> unread (netx.br r) = c ++ LF :: tail ->
            (Z.of_nat (length c) + 1 <= max)%Z ->
            (netx.ReadLine r max).1 = (netx.trimEOL (c ++ [LF]), false, None)
            /\ unread (netx.br (netx.ReadLine r max).2) = tail) as Hgen.
  { intros c tail Hc Hu Hmax.
    destruct (ReadLine_spec r max ltac:(lia) Hsz) as [_ Hok].
    cbv zeta in Hok. rewrite Hu, rawLine_found in Hok by exact Hc.
    destruct Hok as (Hrest & Hin & _).
    { rewrite length_app. simpl. lia. }
    split.
    - apply Hin. apply in_app_iff. right. now left.
    - rewrite Hrest. replace (c ++ LF :: tail) with ((c ++ [LF]) ++ tail)
        by (now rewrite <- app_assoc).
      now rewrite drop_app_length. }
  assert (CR <> LF) as HCRLF by discriminate.
  split; [|split; [|split]].
  - intros content tail Hc Hu Hmax.
    destruct (Hgen (content ++ [CR]) tail) as [Hl Hr].
    + intros H. apply in_app_iff in H as [H|[H|[]]]; [auto|congruence].
    + rewrite Hu. now rewrite <- app_assoc.
    + rewrite length_app. simpl. lia.
    + split; [|exact Hr]. rewrite Hl, <- app_assoc.
      change ([CR] ++ [LF]) with CRLF. now rewrite trimEOL_CRLF.
  - intros content tail Hc Hcr Hu Hmax.
    destruct (Hgen content tail Hc Hu Hmax) as [Hl Hr].
    split; [|exact Hr]. now rewrite Hl, trimEOL_LF.
  - intros tail Hu Hmax.
    destruct (Hgen [CR] tail) as [Hl _].
    + intros [H|[]]. congruence.
    + exact Hu.
    + simpl. lia.
    + rewrite Hl. reflexivity.
  - intros tail Hu Hmax.
    destruct (Hgen [] tail ltac:(auto) Hu ltac:(simpl; lia)) as [Hl _].
    exact Hl.
Qed.

Lemma ReadLine_strips_one_terminator_witness :
  let r := netx.NewCRLFFastReader
             (NewReader (b!"a" ++ [CR] ++ b!"b" ++ [CR] ++ CRLF ++ b!"rest")) in
  (netx.ReadLine r 16).1 = (b!"a" ++ [CR] ++ b!"b" ++ [CR], false, None)
  /\ unread (netx.br (netx.ReadLine r 16).2) = b!"rest".
Proof.
  refine (proj1 (ReadLine_strips_one_terminator
                   (netx.NewCRLFFastReader
                      (NewReader (b!"a" ++ [CR] ++ b!"b" ++ [CR] ++ CRLF ++ b!"rest")))
                   16 _)
            (b!"a" ++ [CR] ++ b!"b" ++ [CR]) b!"rest" _ _ _).
  - unfold netx.NewCRLFFastReader, netx.DefaultBufSize. simpl. lia.
  - simpl. intros [H|[H|[H|[H|[]]]]]; discriminate.
  - reflexivity.
  - simpl. lia.
Defined.

(** ** Byte strings *)

Lemma bytes_eqb_eq (s t : bytes) : strings.bytes_eqb s t = true <-> s = t.
Proof.
  revert t. induction s as [|a s IH]; intros [|b t]; simpl; split;
    try discriminate; try reflexivity.
  - intros H. apply andb_true_iff in H as [H1 H2].
    apply Ascii.eqb_eq in H1. apply IH in H2. congruence.
  - intros [= -> ->]. rewrite Ascii.eqb_refl. now apply IH.
Qed.

Lemma bytes_eqb_refl (s : bytes) : strings.bytes_eqb s s = true.
Proof. now apply bytes_eqb_eq. Qed.

Lemma bytes_eqb_neq (s t : bytes) : s <> t -> strings.bytes_eqb s t = false.
Proof.
  intros H. destruct (strings.bytes_eqb s t) eqn:E; [|reflexivity].
  apply bytes_eqb_eq in E. contradiction.
Qed.

Lemma TrimSuffix_app (x suffix : bytes) :
  strings.TrimSuffix (x ++ suffix) suffix = x.
Proof.
  unfold strings.TrimSuffix, strings.HasSuffix. rewrite length_app.
  replace (length x + length suffix - length suffix)%nat with (length x) by lia.
  rewrite drop_app_length, bytes_eqb_refl, take_app_length.
  assert ((length suffix <=? length x + length suffix)%nat = true) as ->
    by (apply Nat.leb_le; lia).
  reflexivity.
Qed.

Lemma IndexByte_notin (s : bytes) (c : ascii) :
  ~ In c s -> strings.IndexByte s c = (-1)%Z.
Proof.
  induction s as [|x s IH]; simpl; intros H; [reflexivity|].
  destruct (Ascii.eqb x c) eqn:E.
  - apply Ascii.eqb_eq in E. exfalso. auto.
  - rewrite IH by tauto. reflexivity.
Qed.

Lemma IndexByte_found (k v : bytes) (c : ascii) :
  ~ In c k -> strings.IndexByte (k ++ c :: v) c = Z.of_nat (length k).
Proof.
  induction k as [|x k IH]; cbn [strings.IndexByte app]; intros H.
  - now rewrite Ascii.eqb_refl.
  - destruct (Ascii.eqb x c) eqn:E.
    { apply Ascii.eqb_eq in E. exfalso. apply H. now left. }
    rewrite IH by (intros H'; apply H; now right).
    assert ((Z.of_nat (length k) <? 0)%Z = false) as -> by zbool.
    cbn [length]. lia.
Qed.

(** ** The buffered reader *)

(** The rounds of [ReadString] deliver the line at the head of what the
    reader has still to deliver, whatever part of it is in the buffer,
    and leave the rest to be delivered. *)
Lemma bufio_ReadString_loop_spec (delim : ascii) :
  forall (fuel : nat) (b : bufio.Reader) (full : bytes) (err : option error),
    (err = None \/ (err = Some EOF /\ unread (bufio.rd b) = [])) ->
    (2 * length (unread (bufio.rd b))
     + (if (bufio.defaultBufSize <=? bufio.Buffered b)%nat then 1 else 0)
     + (match err with None => 1 | Some _ => 0 end) + 1 <= fuel)%nat ->
    exists b',
      (exists taken, unread (bufio.rd b) = taken ++ unread (bufio.rd b')) /\
      match splitDelim (bufio.stream b) delim with
      | Some (line, rest) =>
          bufio.ReadString_loop fuel b delim full err
          = Some ((full ++ line, None), b') /\ bufio.stream b' = rest
      | None =>
          bufio.ReadString_loop fuel b delim full err
          = Some ((full ++ bufio.stream b, Some EOF), b') /\
          bufio.stream b' = []
      end.
Proof.
  induction fuel as [|fuel IH]; intros b full err Herr Hfuel; [lia|].
  cbn [bufio.ReadString_loop].
  assert (bufio.stream b = bufio.buf b ++ unread (bufio.rd b)) as Hstream
    by reflexivity.
  rewrite Hstream. clear Hstream.
  destruct (splitDelim (bufio.buf b) delim) as [[line rest]|] eqn:Ebuf.
  - (* the delimiter is in the buffer *)
    apply splitDelim_Some in Ebuf as (c & -> & Hbuf & Hc).
    rewrite Hbuf, <- app_assoc. cbn [app].
    rewrite splitDelim_found by exact Hc.
    exists {| bufio.rd := bufio.rd b; bufio.buf := rest |}.
    split; [exists []; reflexivity|]. split; reflexivity.
  - apply splitDelim_None in Ebuf.
    rewrite splitDelim_app_notin by exact Ebuf.
    destruct err as [e|].
    + (* the end of the source was met *)
      destruct Herr as [Hn|[[= ->] Hu]]; [discriminate|].
      rewrite Hu. cbn [splitDelim]. rewrite app_nil_r.
      exists {| bufio.rd := bufio.rd b; bufio.buf := [] |}.
      split; [exists []; cbn; now rewrite Hu|]. split; [reflexivity|].
      unfold bufio.stream. cbn. exact Hu.
    + destruct (bufio.defaultBufSize <=? bufio.Buffered b)%nat eqn:Efull.
      * (* a full buffer is handed over *)
        destruct (IH {| bufio.rd := bufio.rd b; bufio.buf := [] |}
                    (full ++ bufio.buf b) None (or_introl eq_refl))
          as (b' & Htaken & Hres).
        { unfold bufio.Buffered. cbn [bufio.rd bufio.buf length].
          assert ((bufio.defaultBufSize <=? 0)%nat = false) as -> by reflexivity.
          lia. }
        exists b'. split; [exact Htaken|].
        change (bufio.stream {| bufio.rd := bufio.rd b; bufio.buf := [] |})
          with (unread (bufio.rd b)) in Hres.
        destruct (splitDelim (unread (bufio.rd b)) delim) as [[l r]|].
        -- destruct Hres as [-> Hs]. split; [|exact Hs].
           now rewrite <- app_assoc.
        -- destruct Hres as [-> Hs]. split; [|exact Hs].
           now rewrite <- app_assoc.
      * (* one read of the source into the buffer *)
        apply Nat.leb_gt in Efull.
        destruct (src_Read (bufio.rd b)
                    (bufio.defaultBufSize - bufio.Buffered b))
          as [[data e] rd'] eqn:Hrd.
        apply src_Read_inv in Hrd as (Hu & _ & _ & _ & Hcase).
        destruct (IH {| bufio.rd := rd'; bufio.buf := bufio.buf b ++ data |}
                    full e) as (b' & (taken & Htaken) & Hres).
        { destruct Hcase as [(-> & _)|(-> & He & ->)]; [now left|right].
          split; [reflexivity|]. cbn [bufio.rd]. rewrite He in Hu.
          symmetry in Hu. exact Hu. }
        { assert ((bufio.defaultBufSize <=? bufio.Buffered b)%nat = false)
            as Hnf by (apply Nat.leb_gt; exact Efull).
          unfold bufio.Buffered in *. cbn [bufio.rd bufio.buf].
          destruct Hcase as [(-> & Hne & Hpos)|(-> & He & ->)].
          - specialize (Hpos ltac:(lia)).
            rewrite Hu, length_app in Hfuel.
            match goal with
            | |- context [if ?c then _ else _] => destruct c
            end; lia.
          - rewrite app_nil_r, Hnf.
            rewrite He in Hu. cbn [app] in Hu. rewrite <- Hu.
            rewrite He in Hfuel. simpl in *. lia. }
        exists b'. split.
        { exists (data ++ taken). cbn [bufio.rd] in Htaken.
          now rewrite Hu, Htaken, app_assoc. }
        change (bufio.stream
                  {| bufio.rd := rd'; bufio.buf := bufio.buf b ++ data |})
          with ((bufio.buf b ++ data) ++ unread rd') in Hres.
        rewrite <- app_assoc, <- Hu in Hres.
        rewrite splitDelim_app_notin in Hres by exact Ebuf.
        exact Hres.
Qed.

Lemma bufio_ReadString_spec (b : bufio.Reader) (delim : ascii) :
  exists b',
    (exists taken, unread (bufio.rd b) = taken ++ unread (bufio.rd b')) /\
    match splitDelim (bufio.stream b) delim with
    | Some (line, rest) =>
        bufio.ReadString b delim = ((line, None), b') /\ bufio.stream b' = rest
    | None =>
        bufio.ReadString b delim = ((bufio.stream b, Some EOF), b') /\
        bufio.stream b' = []
    end.
Proof.
  destruct (bufio_ReadString_loop_spec delim
              (2 * length (unread (bufio.rd b)) + 3) b [] None
              (or_introl eq_refl)) as (b' & Htaken & Hres).
  { destruct (bufio.defaultBufSize <=? bufio.Buffered b)%nat; lia. }
  exists b'. split; [exact Htaken|]. unfold bufio.ReadString.
  destruct (splitDelim (bufio.stream b) delim) as [[line rest]|];
    destruct Hres as [-> Hs]; auto.
Qed.

(** A line is at the head of what the reader has still to deliver. *)
Lemma bufio_ReadString_found (b : bufio.Reader) (c t : bytes) :
  ~ In LF c -> bufio.stream b = c ++ LF :: t ->
  exists b',
    bufio.ReadString b LF = ((c ++ [LF], None), b') /\ bufio.stream b' = t.
Proof.
  intros Hc Hu. destruct (bufio_ReadString_spec b LF) as (b' & _ & Hres).
  rewrite Hu, splitDelim_found in Hres by exact Hc. eauto.
Qed.

(** One [Read] of the buffered reader into a buffer that is not empty. *)
Lemma bufio_Read_inv (b : bufio.Reader) (n : nat) data err b' :
  (0 < n)%nat ->
  bufio.Read b n = ((data, err), b') ->
  bufio.stream b = data ++ bufio.stream b' /\ (length data <= n)%nat /\
  (exists taken, unread (bufio.rd b) = taken ++ unread (bufio.rd b')) /\
  ((err = None /\ bufio.stream b <> [] /\ (0 < length data)%nat)
   \/ (err = Some EOF /\ bufio.stream b = [] /\ data = [])).
Proof.
  intros Hn. unfold bufio.Read, bufio.stream.
  destruct n as [|n]; [lia|].
  destruct (bufio.buf b) as [|x xs] eqn:Hbuf.
  - destruct (bufio.defaultBufSize <=? S n)%nat.
    + destruct (src_Read (bufio.rd b) (S n)) as [[d e] rd'] eqn:Hrd.
      apply src_Read_inv in Hrd as (Hu & Hlen & _ & _ & Hcase).
      intros [= <- <- <-]. cbn [bufio.rd bufio.buf app].
      split; [exact Hu|]. split; [exact Hlen|].
      split; [exists d; exact Hu|].
      destruct Hcase as [(-> & Hne & Hpos)|(-> & He & ->)].
      * left. split; [reflexivity|]. split; [exact Hne|]. apply Hpos. lia.
      * right. auto.
    + destruct (src_Read (bufio.rd b) bufio.defaultBufSize)
        as [[d e] rd'] eqn:Hrd.
      apply src_Read_inv in Hrd as (Hu & Hlen & _ & _ & Hcase).
      destruct d as [|y d'] eqn:Hd.
      * intros [= <- <- <-]. cbn [bufio.rd bufio.buf app].
        split; [exact Hu|]. split; [simpl; lia|].
        split; [exists []; exact Hu|].
        destruct Hcase as [(-> & Hne & Hpos)|(-> & He & _)].
        -- exfalso. unfold bufio.defaultBufSize in Hpos.
           specialize (Hpos ltac:(lia)). simpl in Hpos. lia.
        -- right. auto.
      * rewrite <- Hd in *. intros [= <- <- <-]. cbn [bufio.rd bufio.buf app].
        split; [now rewrite app_assoc, take_drop|].
        split; [rewrite length_take; lia|].
        split; [exists d; exact Hu|].
        left. split; [reflexivity|]. split.
        -- rewrite Hu, Hd. discriminate.
        -- rewrite length_take, Hd. simpl. lia.
  - intros [= <- <- <-]. cbn [bufio.rd bufio.buf].
    split; [simpl; now rewrite app_assoc, take_drop|].
    split; [simpl; rewrite length_take; lia|].
    split; [exists []; reflexivity|].
    left. split; [reflexivity|]. split; [discriminate|].
    simpl. lia.
Qed.

(** ** Trailers *)

(** The fuel [readTrailers] hands to its loop is enough. *)
Lemma readTrailers_loop_total :
  forall (fuel : nat) (r : bufio.Reader) (h : Header),
    (length (bufio.stream r) < fuel)%nat ->
    is_Some (httpx.readTrailers_loop fuel r h).
Proof.
  induction fuel as [|fuel IH]; intros r h Hf; [lia|].
  cbn [httpx.readTrailers_loop].
  destruct (bufio_ReadString_spec r LF) as (r' & _ & Hres).
  destruct (splitDelim (bufio.stream r) LF) as [[line rest]|] eqn:E.
  - destruct Hres as [-> Hs].
    apply splitDelim_Some in E as (c & -> & Hu & _).
    destruct (strings.bytes_eqb _ _); [eauto|].
    destruct (_ <=? 0)%Z; [eauto|].
    apply IH. rewrite Hs. rewrite Hu, length_app in Hf. cbn [length] in Hf. lia.
  - destruct Hres as [-> _]. eauto.
Qed.

(** One accepted trailer line is one round of the loop. *)
Lemma readTrailers_loop_field (fuel : nat) (r : bufio.Reader) (h : Header)
    (kv : bytes * bytes) (rest : bytes) :
  httpx.trailer_ok kv -> bufio.stream r = httpx.trailer_line kv ++ rest ->
  exists r', bufio.stream r' = rest /\
    httpx.readTrailers_loop (S fuel) r h
    = httpx.readTrailers_loop fuel r' (httpx.add_trailer h kv).
Proof.
  destruct kv as [k v]. unfold httpx.trailer_ok, httpx.trailer_line. simpl.
  intros (Hk & Hcolon & HkLF & HvLF) Hu.
  assert (":"%char <> LF) as Hne by discriminate.
  assert (CR <> LF) as Hne' by discriminate.
  destruct (bufio_ReadString_found r (k ++ ":"%char :: v ++ [CR]) rest)
    as (r' & Hrs & Hrest).
  { intros H. apply in_app_iff in H as [H|[H|H]]; [auto|congruence|].
    apply in_app_iff in H as [H|[H|[]]]; [auto|congruence]. }
  { rewrite Hu. rewrite <- !app_assoc. simpl. rewrite <- !app_assoc.
    reflexivity. }
  exists r'. split; [exact Hrest|].
  rewrite Hrs.
  replace ((k ++ ":"%char :: v ++ [CR]) ++ [LF])
    with ((k ++ ":"%char :: v) ++ CRLF).
  2:{ rewrite <- !app_assoc. simpl. rewrite <- !app_assoc. reflexivity. }
  rewrite bytes_eqb_neq.
  2:{ intros H. apply (f_equal length) in H. rewrite !length_app in H.
      simpl in H. destruct k; [contradiction|simpl in H; lia]. }
  rewrite TrimSuffix_app, IndexByte_found by exact Hcolon.
  assert ((Z.of_nat (length k) <=? 0)%Z = false) as ->.
  { destruct k; [contradiction|]. simpl length. zbool. }
  rewrite Nat2Z.id, take_app_length.
  replace (Z.to_nat (Z.of_nat (length k) + 1)) with (length (k ++ [":"%char]))
    by (rewrite length_app; simpl; lia).
  replace (k ++ ":"%char :: v) with ((k ++ [":"%char]) ++ v)
    by (now rewrite <- app_assoc).
  rewrite drop_app_length. reflexivity.
Qed.

Lemma readTrailers_loop_fields :
  forall (trailers : list (bytes * bytes)) (fuel : nat) (r : bufio.Reader)
         (h : Header) (rest : bytes),
    Forall httpx.trailer_ok trailers ->
    bufio.stream r = concat (map httpx.trailer_line trailers) ++ rest ->
    exists r', bufio.stream r' = rest /\
      httpx.readTrailers_loop (length trailers + fuel) r h
      = httpx.readTrailers_loop fuel r' (fold_left httpx.add_trailer trailers h).
Proof.
  induction trailers as [|kv trailers IH]; intros fuel r h rest Hok Hu.
  - exists r. auto.
  - apply Forall_cons in Hok as [Hkv Hok].
    simpl in Hu. rewrite <- app_assoc in Hu.
    destruct (readTrailers_loop_field (length trailers + fuel) r h kv _ Hkv Hu)
      as (r1 & Hu1 & Hstep).
    destruct (IH fuel r1 (httpx.add_trailer h kv) rest Hok Hu1)
      as (r' & Hu' & Hrun).
    exists r'. split; [exact Hu'|].
    change (length (kv :: trailers) + fuel)%nat
      with (S (length trailers + fuel)).
    cbn [fold_left]. now rewrite Hstep, Hrun.
Qed.

Lemma readTrailers_loop_blank (fuel : nat) (r : bufio.Reader) (h : Header)
    (rest : bytes) :
  bufio.stream r = CRLF ++ rest ->
  exists r', bufio.stream r' = rest /\
    httpx.readTrailers_loop (S fuel) r h = Some (None, r', h).
Proof.
  intros Hu. destruct (bufio_ReadString_found r [CR] rest) as (r' & Hrs & Hrest).
  { intros [H|[]]. discriminate. }
  { exact Hu. }
  exists r'. split; [exact Hrest|]. simpl. rewrite Hrs. reflexivity.
Qed.

Lemma readTrailers_loop_malformed (fuel : nat) (r : bufio.Reader) (h : Header)
    (bad rest : bytes) :
  bad <> [] -> ~ In LF bad -> (strings.IndexByte bad ":"%char <= 0)%Z ->
  bufio.stream r = bad ++ CRLF ++ rest ->
  exists r', bufio.stream r' = rest /\
    httpx.readTrailers_loop (S fuel) r h = Some (Some ErrUnexpectedTrailer, r', h).
Proof.
  intros Hne HLF Hidx Hu.
  destruct (bufio_ReadString_found r (bad ++ [CR]) rest) as (r' & Hrs & Hrest).
  { intros H. apply in_app_iff in H as [H|[H|[]]]; [auto|discriminate]. }
  { rewrite Hu. now rewrite <- app_assoc. }
  exists r'. split; [exact Hrest|]. simpl. rewrite Hrs.
  replace ((bad ++ [CR]) ++ [LF]) with (bad ++ CRLF)
    by (now rewrite <- app_assoc).
  rewrite bytes_eqb_neq.
  2:{ intros H. apply (f_equal length) in H. rewrite length_app in H.
      simpl in H. destruct bad; [contradiction|simpl in H; lia]. }
  rewrite TrimSuffix_app.
  assert ((strings.IndexByte bad ":" <=? 0)%Z = true) as -> by zbool.
  reflexivity.
Qed.

Lemma readTrailers_loop_mono :
  forall (fuel fuel' : nat) (r : bufio.Reader) (h : Header) res,
    httpx.readTrailers_loop fuel r h = Some res -> (fuel <= fuel')%nat ->
    httpx.readTrailers_loop fuel' r h = Some res.
Proof.
  induction fuel as [|fuel IH]; intros fuel' r h res; [discriminate|].
  intros Hrun Hle. destruct fuel' as [|fuel']; [lia|].
  simpl in *. destruct (bufio.ReadString r LF) as [[line err] r'].
  destruct err; [exact Hrun|].
  destruct (strings.bytes_eqb line CRLF); [exact Hrun|].
  destruct (_ <=? 0)%Z; [exact Hrun|].
  apply (IH fuel'); [exact Hrun|lia].
Qed.

(** What the loop answers with some fuel is what [readTrailers] answers. *)
Lemma readTrailers_of_loop (fuel : nat) (r : bufio.Reader) (h : Header) res :
  httpx.readTrailers_loop fuel r h = Some res -> httpx.readTrailers r h = res.
Proof.
  intros Hrun. unfold httpx.readTrailers.
  destruct (readTrailers_loop_total (S (length (bufio.stream r))) r h
              ltac:(lia)) as [res' Hres'].
  rewrite Hres'.
  pose proof (readTrailers_loop_mono _
                (Nat.max fuel (S (length (bufio.stream r))))
                _ _ _ Hrun ltac:(lia)) as H1.
  pose proof (readTrailers_loop_mono _
                (Nat.max fuel (S (length (bufio.stream r))))
                _ _ _ Hres' ltac:(lia)) as H2.
  congruence.
Qed.

Lemma readTrailers_accepts (r : bufio.Reader) (h : Header)
    (trailers : list (bytes * bytes)) (rest : bytes) :
  Forall httpx.trailer_ok trailers ->
  bufio.stream r = concat (map httpx.trailer_line trailers) ++ CRLF ++ rest ->
  exists r', bufio.stream r' = rest /\
    httpx.readTrailers r h
    = (None, r', fold_left httpx.add_trailer trailers h).
Proof.
  intros Hok Hu.
  destruct (readTrailers_loop_fields trailers 1 r h _ Hok Hu)
    as (r1 & Hu1 & Hrun).
  destruct (readTrailers_loop_blank 0 r1 (fold_left httpx.add_trailer trailers h)
              rest Hu1) as (r' & Hu' & Hend).
  exists r'. split; [exact Hu'|].
  apply (readTrailers_of_loop (length trailers + 1)). now rewrite Hrun.
Qed.

Lemma readTrailers_rejects (r : bufio.Reader) (h : Header)
    (trailers : list (bytes * bytes)) (bad rest : bytes) :
  Forall httpx.trailer_ok trailers ->
  bad <> [] -> ~ In LF bad -> (strings.IndexByte bad ":"%char <= 0)%Z ->
  bufio.stream r
  = concat (map httpx.trailer_line trailers) ++ bad ++ CRLF ++ rest ->
  exists r', bufio.stream r' = rest /\
    httpx.readTrailers r h
    = (Some ErrUnexpectedTrailer, r', fold_left httpx.add_trailer trailers h).
Proof.
  intros Hok Hne HLF Hidx Hu.
  destruct (readTrailers_loop_fields trailers 1 r h _ Hok Hu)
    as (r1 & Hu1 & Hrun).
  destruct (readTrailers_loop_malformed 0 r1
              (fold_left httpx.add_trailer trailers h) bad rest Hne HLF Hidx Hu1)
    as (r' & Hu' & Hend).
  exists r'. split; [exact Hu'|].
  apply (readTrailers_of_loop (length trailers + 1)). now rewrite Hrun.
Qed.

(** What the trailer fields leave in the header map, key by key. *)
Lemma add_trailers_lookup (trailers : list (bytes * bytes)) :
  forall (h : Header) (K : bytes),
    fold_left httpx.add_trailer trailers h !! K
    = match httpx.trailer_values trailers K with
      | [] => h !! K
      | vals => Some (default [] (h !! K) ++ vals)
      end.
Proof.
  induction trailers as [|kv trailers IH]; intros h K; [reflexivity|].
  cbn [fold_left httpx.trailer_values]. rewrite IH.
  assert (httpx.add_trailer h kv !! K
          = if decide (CanonicalHeaderKey (CanonicalHeaderKey kv.1) = K)
            then Some (default [] (h !! K) ++ [strings.TrimSpace kv.2])
            else h !! K) as ->.
  { unfold httpx.add_trailer, Header_Add. cbv zeta. rewrite lookup_insert.
    case_decide as E; [now subst K|reflexivity]. }
  destruct (decide (CanonicalHeaderKey (CanonicalHeaderKey kv.1) = K)) as [E|E];
    [|reflexivity].
  destruct (httpx.trailer_values trailers K) as [|v vs]; [reflexivity|].
  f_equal. change (default [] (Some ?x)) with x.
  now rewrite <- app_assoc.
Qed.

(** ** Chunk sizes: [FormatInt] and [ParseInt] in base 16 *)

Lemma Z_lt_16_cases (d : Z) :
  (0 <= d < 16)%Z ->
  In d [0; 1; 2; 3; 4; 5; 6; 7; 8; 9; 10; 11; 12; 13; 14; 15]%Z.
Proof.
  intros Hd. simpl.
  assert (d = 0 \/ d = 1 \/ d = 2 \/ d = 3 \/ d = 4 \/ d = 5 \/ d = 6 \/ d = 7
          \/ d = 8 \/ d = 9 \/ d = 10 \/ d = 11 \/ d = 12 \/ d = 13 \/ d = 14
          \/ d = 15)%Z as H by lia.
  intuition auto.
Qed.

Lemma digitChar_hex (d : Z) :
  (0 <= d < 16)%Z ->
  In (strconv.digitChar d) (take 16 strconv.digits)
  /\ strconv.digitVal (strconv.digitChar d) = Some d.
Proof.
  intros Hd. apply Z_lt_16_cases in Hd. simpl in Hd.
  repeat (destruct Hd as [<-|Hd]; [split; [vm_compute; tauto|reflexivity]|]).
  destruct Hd.
Qed.

Lemma hex_char_facts (c : ascii) :
  In c (take 16 strconv.digits) ->
  strings.isSpace c = false /\ c <> LF /\ c <> ";"%char
  /\ Ascii.eqb c "+"%char = false /\ Ascii.eqb c "-"%char = false.
Proof.
  intros H. simpl in H.
  repeat (destruct H as [<-|H];
          [repeat apply conj; try reflexivity; discriminate|]).
  destruct H.
Qed.

Lemma parseDigits_app (base : Z) (s t : bytes) (n : Z) :
  strconv.parseDigits base (s ++ t) n
  = match strconv.parseDigits base s n with
    | Some v => strconv.parseDigits base t v
    | None => None
    end.
Proof.
  revert n. induction s as [|c s IH]; intros n; simpl; [reflexivity|].
  destruct (strconv.digitVal c) as [d|]; [|reflexivity].
  destruct (base <=? d)%Z; [reflexivity|].
  destruct (_ <=? n)%Z; [reflexivity|].
  destruct (MaxUint64 <? _)%Z; [reflexivity|]. apply IH.
Qed.

(** The digits [formatBits] writes in base 16 are hexadecimal digits that
    [ParseUint] reads back to the same number. *)
Lemma formatBits_hex :
  forall (fuel : nat) (u : Z) (acc : bytes),
    (0 < fuel)%nat -> (0 <= u < 16 ^ Z.of_nat fuel)%Z -> (u <= MaxUint64)%Z ->
    exists ds,
      strconv.formatBits fuel u 16 acc = ds ++ acc /\ ds <> [] /\
      Forall (fun c => In c (take 16 strconv.digits)) ds /\
      strconv.parseDigits 16 ds 0 = Some u.
Proof.
  induction fuel as [|fuel IH]; intros u acc Hfuel Hu Hmax; [lia|].
  cbn [strconv.formatBits].
  destruct (u <? 16)%Z eqn:Hlt.
  - apply Z.ltb_lt in Hlt.
    destruct (digitChar_hex u ltac:(lia)) as [Hin Hval].
    exists [strconv.digitChar u].
    split; [reflexivity|]. split; [discriminate|].
    split; [constructor; [exact Hin|constructor]|].
    cbn [strconv.parseDigits]. rewrite Hval.
    assert ((16 <=? u)%Z = false) as -> by zbool.
    assert ((MaxUint64 / 16 + 1 <=? 0)%Z = false) as -> by reflexivity.
    cbv zeta. assert ((MaxUint64 <? 0 * 16 + u)%Z = false) as -> by zbool.
    f_equal; lia.
  - apply Z.ltb_ge in Hlt.
    assert (0 <= u / 16 < 16 ^ Z.of_nat fuel)%Z as Hq.
    { rewrite Nat2Z.inj_succ, Z.pow_succ_r in Hu by lia.
      split; [apply Z.div_pos; lia|apply Z.div_lt_upper_bound; lia]. }
    assert (u / 16 <= u)%Z as Hqu by (apply Z.div_le_upper_bound; lia).
    assert (0 < fuel)%nat as Hfuel'.
    { destruct fuel; [|lia]. simpl in Hu. lia. }
    destruct (IH (u / 16)%Z (strconv.digitChar (u mod 16) :: acc)
                Hfuel' Hq ltac:(lia))
      as (ds & Hfmt & Hne & Hall & Hparse).
    pose proof (Z.mod_pos_bound u 16 ltac:(lia)) as Hm.
    destruct (digitChar_hex (u mod 16) Hm) as [Hin Hval].
    exists (ds ++ [strconv.digitChar (u mod 16)]). repeat apply conj.
    + rewrite Hfmt. now rewrite <- app_assoc.
    + intros H. apply app_eq_nil in H as [_ H]. discriminate.
    + apply Forall_app. split; [exact Hall|]. constructor; [exact Hin|constructor].
    + rewrite parseDigits_app, Hparse. cbn [strconv.parseDigits]. rewrite Hval.
      assert ((16 <=? u mod 16)%Z = false) as -> by zbool.
      pose proof (Z.div_mod u 16 ltac:(lia)) as Hdm.
      assert ((MaxUint64 / 16 + 1 <=? u / 16)%Z = false) as ->.
      { apply Z.leb_gt. unfold MaxUint64 in *.
        change (18446744073709551615 / 16 + 1)%Z with 1152921504606846976%Z.
        lia. }
      cbv zeta.
      assert ((MaxUint64 <? u / 16 * 16 + u mod 16)%Z = false) as -> by zbool.
      f_equal; lia.
Qed.

Lemma FormatInt_hex (n : Z) :
  (0 <= n <= MaxInt64)%Z ->
  exists ds,
    strconv.FormatInt n 16 = ds /\ ds <> [] /\
    Forall (fun c => In c (take 16 strconv.digits)) ds /\
    strconv.ParseInt ds 16 = Some n.
Proof.
  intros [Hn0 Hn]. unfold strconv.FormatInt.
  assert ((n <? 0)%Z = false) as -> by zbool.
  destruct (formatBits_hex 64 n []) as (ds & Hfmt & Hne & Hall & Hparse).
  { lia. }
  { split; [lia|]. unfold MaxInt64 in Hn.
    change (16 ^ Z.of_nat 64)%Z
      with 115792089237316195423570985008687907853269984665640564039457584007913129639936%Z.
    lia. }
  { unfold MaxInt64, MaxUint64 in *. lia. }
  rewrite app_nil_r in Hfmt. exists ds. repeat apply conj; auto.
  unfold strconv.ParseInt. destruct ds as [|c ds']; [contradiction|].
  apply Forall_cons in Hall as [Hc Hall].
  destruct (hex_char_facts c Hc) as (_ & _ & _ & -> & ->).
  unfold strconv.ParseUint. rewrite Hparse. cbn [negb andb].
  assert ((MaxInt64 + 1 <=? n)%Z = false) as -> by zbool.
  reflexivity.
Qed.

Lemma TrimSpace_line (ds : bytes) :
  ds <> [] -> Forall (fun c => strings.isSpace c = false) ds ->
  strings.TrimSpace (ds ++ CRLF) = ds.
Proof.
  intros Hne Hall. unfold strings.TrimSpace.
  assert (strings.TrimLeftSpace (ds ++ CRLF) = ds ++ CRLF) as ->.
  { destruct ds as [|c t]; [contradiction|].
    apply Forall_cons in Hall as [Hc _]. simpl. now rewrite Hc. }
  unfold strings.TrimRightSpace, CRLF. rewrite rev_app_distr. simpl.
  destruct (rev ds) as [|x t] eqn:Hrev.
  { apply (f_equal (@rev ascii)) in Hrev. rewrite rev_involutive in Hrev.
    contradiction. }
  assert (In x ds) as Hx by (apply in_rev; rewrite Hrev; now left).
  rewrite Forall_forall in Hall.
  assert (strings.isSpace x = false) as Hsp.
  { apply Hall. now apply list_elem_of_In. }
  simpl. rewrite Hsp, <- Hrev. apply rev_involutive.
Qed.

(** [nextChunkSize] reads back the size line the chunked writer emits. *)
Lemma nextChunkSize_FormatInt (r : bufio.Reader) (n : Z) (rest : bytes) :
  (0 <= n <= MaxInt64)%Z ->
  bufio.stream r = strconv.FormatInt n 16 ++ CRLF ++ rest ->
  exists r', bufio.stream r' = rest /\
    httpx.nextChunkSize r = ((n, None), r').
Proof.
  intros Hn Hu.
  destruct (FormatInt_hex n Hn) as (ds & Hfmt & Hne & Hall & Hparse).
  rewrite Hfmt in Hu. clear Hfmt.
  assert (Forall (fun c => strings.isSpace c = false /\ c <> LF
                           /\ c <> ";"%char) ds) as Hfacts.
  { eapply Forall_impl; [exact Hall|]. intros c Hc.
    destruct (hex_char_facts c Hc) as (H1 & H2 & H3 & _). auto. }
  destruct (bufio_ReadString_found r (ds ++ [CR]) rest) as (r' & Hrs & Hrest).
  { intros H. apply in_app_iff in H as [H|[H|[]]]; [|discriminate].
    rewrite Forall_forall in Hfacts.
    apply list_elem_of_In, Hfacts in H as (_ & H & _). congruence. }
  { rewrite Hu. now rewrite <- app_assoc. }
  exists r'. split; [exact Hrest|].
  unfold httpx.nextChunkSize. rewrite Hrs.
  replace ((ds ++ [CR]) ++ [LF]) with (ds ++ CRLF)
    by (now rewrite <- app_assoc).
  rewrite TrimSpace_line; [|exact Hne|].
  2:{ eapply Forall_impl; [exact Hfacts|]. simpl. tauto. }
  destruct ds as [|c t] eqn:Hds; [contradiction|]. rewrite <- Hds in *.
  rewrite IndexByte_notin.
  2:{ intros H. rewrite Forall_forall in Hfacts.
      apply list_elem_of_In, Hfacts in H as (_ & _ & H). congruence. }
  cbn [Z.leb Z.compare]. rewrite Hparse.
  assert ((n <? 0)%Z = false) as -> by zbool.
  reflexivity.
Qed.

(** ** The chunked reader: terminal chunk, trailers, end *)

Lemma chunkedReader_Read_done (c : httpx.chunkedReader) (lenp : nat) :
  httpx.c_ctx c = None -> httpx.c_state c = httpx.stateDone ->
  httpx.chunkedReader_Read c lenp = (([], Some EOF), c).
Proof.
  intros Hctx Hst. unfold httpx.chunkedReader_Read. now rewrite Hctx, Hst.
Qed.

(** C8. For a chunked reader whose context is live; what is at the head
    of the input is what its [bufio.Reader] has still to deliver. (1) In
    the header state, the size line "0" moves it to the trailer state,
    delivering no byte. (2) In the trailer state, with well-formed trailer
    lines followed by the empty line, one [Read] delivers no byte and
    stores every field in the header map the reader shares with its
    caller: under each key the map then holds what it held before followed
    by the trimmed values of the fields with that canonical key, in their
    order, so that [Values] returns them; the [Read] takes exactly these
    lines from the [bufio.Reader], reports [io.EOF] and leaves the reader
    in the done state, where every further [Read] reports [io.EOF] again.
    (3) A line in the trailer section that has no colon, or starts with
    one, makes the [Read] fail with [ErrUnexpectedTrailer]; the reader
    stays in the trailer state and the fields before that line are in the
    map. (4) In the done state a [Read] returns no byte and [io.EOF] and
    changes nothing. *)
Theorem chunkedReader_trailers (c : httpx.chunkedReader) (lenp : nat) :
  httpx.c_ctx c = None ->
  (httpx.c_state c = httpx.stateChunkHeader ->
   forall rest,
     bufio.stream (httpx.c_r c) = b!"0" ++ CRLF ++ rest ->
     exists c',
       httpx.chunkedReader_Read c lenp = (([], None), c') /\
       httpx.c_state c' = httpx.stateTrailer /\
       httpx.c_header c' = httpx.c_header c /\
       bufio.stream (httpx.c_r c') = rest)
  /\
  (httpx.c_state c = httpx.stateTrailer ->
   forall trailers rest,
     Forall httpx.trailer_ok trailers ->
     bufio.stream (httpx.c_r c)
     = concat (map httpx.trailer_line trailers) ++ CRLF ++ rest ->
     exists c',
       httpx.chunkedReader_Read c lenp = (([], Some EOF), c') /\
       httpx.c_state c' = httpx.stateDone /\
       (forall K,
           httpx.c_header c' !! K
           = match httpx.trailer_values trailers K with
             | [] => httpx.c_header c !! K
             | vals => Some (default [] (httpx.c_header c !! K) ++ vals)
             end) /\
       (forall k,
           Header_Values (httpx.c_header c') k
           = Header_Values (httpx.c_header c) k
               ++ httpx.trailer_values trailers (CanonicalHeaderKey k)) /\
       bufio.stream (httpx.c_r c') = rest /\
       forall lenp', httpx.chunkedReader_Read c' lenp' = (([], Some EOF), c'))
  /\
  (httpx.c_state c = httpx.stateTrailer ->
   forall trailers bad rest,
     Forall httpx.trailer_ok trailers ->
     bad <> [] -> ~ In LF bad ->
     (~ In ":"%char bad \/ exists t, bad = ":"%char :: t) ->
     bufio.stream (httpx.c_r c)
     = concat (map httpx.trailer_line trailers) ++ bad ++ CRLF ++ rest ->
     exists c',
       httpx.chunkedReader_Read c lenp = (([], Some ErrUnexpectedTrailer), c') /\
       httpx.c_state c' = httpx.stateTrailer /\
       forall k,
         Header_Values (httpx.c_header c') k
         = Header_Values (httpx.c_header c) k
             ++ httpx.trailer_values trailers (CanonicalHeaderKey k))
  /\
  (httpx.c_state c = httpx.stateDone ->
   httpx.chunkedReader_Read c lenp = (([], Some EOF), c)).
Proof.
  intros Hctx.
  assert (forall trailers h k,
            Header_Values (fold_left httpx.add_trailer trailers h) k
            = Header_Values h k
                ++ httpx.trailer_values trailers (CanonicalHeaderKey k)) as Hvals.
  { intros trailers h k. unfold Header_Values. rewrite add_trailers_lookup.
    destruct (httpx.trailer_values trailers (CanonicalHeaderKey k));
      [now rewrite app_nil_r|reflexivity]. }
  split; [|split; [|split]].
  - intros Hst rest Hu.
    destruct (nextChunkSize_FormatInt (httpx.c_r c) 0 rest)
      as (r' & Hr' & Hnext).
    { unfold MaxInt64; lia. }
    { exact Hu. }
    unfold httpx.chunkedReader_Read. rewrite Hctx, Hst, Hnext.
    eexists. split; [reflexivity|].
    split; [reflexivity|]. split; [reflexivity|]. exact Hr'.
  - intros Hst trailers rest Hok Hu.
    destruct (readTrailers_accepts (httpx.c_r c) (httpx.c_header c) trailers rest
                Hok Hu) as (r' & Hr' & Hrt).
    unfold httpx.chunkedReader_Read. rewrite Hctx, Hst, Hrt.
    eexists. split; [reflexivity|].
    split; [reflexivity|].
    split; [intros K; apply add_trailers_lookup|].
    split; [intros k; apply Hvals|]. split; [exact Hr'|].
    intros lenp'. apply chunkedReader_Read_done; [exact Hctx|reflexivity].
  - intros Hst trailers bad rest Hok Hne HLF Hbad Hu.
    assert (strings.IndexByte bad ":"%char <= 0)%Z as Hidx.
    { destruct Hbad as [Hno|[t ->]].
      - rewrite IndexByte_notin by exact Hno. lia.
      - simpl. lia. }
    destruct (readTrailers_rejects (httpx.c_r c) (httpx.c_header c) trailers bad
                rest Hok Hne HLF Hidx Hu) as (r' & Hr' & Hrt).
    unfold httpx.chunkedReader_Read. rewrite Hctx, Hst, Hrt.
    eexists. split; [reflexivity|]. split; [exact Hst|].
    intros k. apply Hvals.
  - intros Hst. now apply chunkedReader_Read_done.
Qed.

Lemma chunkedReader_trailers_witness :
  let c := {| httpx.c_ctx := None;
              httpx.c_r :=
                bufio.NewReader
                  (NewReader (b!"X-T: v" ++ CRLF ++ b!"x-t:w " ++ CRLF ++ CRLF
                                ++ b!"GET"));
              httpx.c_state := httpx.stateTrailer;
              httpx.c_remain := 0; httpx.c_limit := 0;
              httpx.c_readTotal := 9;
              httpx.c_header := Header_Set ∅ b!"X-T" b!"u" |} in
  exists c',
    httpx.chunkedReader_Read c 512 = (([], Some EOF), c') /\
    httpx.c_state c' = httpx.stateDone /\
    httpx.c_header c' !! b!"X-T" = Some [b!"u"; b!"v"; b!"w"] /\
    Header_Values (httpx.c_header c') b!"x-t" = [b!"u"; b!"v"; b!"w"] /\
    bufio.stream (httpx.c_r c') = b!"GET".
Proof.
  intros c.
  destruct (proj1 (proj2 (chunkedReader_trailers c 512 eq_refl)) eq_refl
              [(b!"X-T", b!" v"); (b!"x-t", b!"w ")] b!"GET")
    as (c' & Hread & Hst & Hmap & Hvals & Hrest & _).
  - repeat constructor; try discriminate;
      intros H; repeat (destruct H as [H|H]; [discriminate|]); exact H.
  - reflexivity.
  - exists c'. split; [exact Hread|]. split; [exact Hst|].
    split; [exact (Hmap b!"X-T")|]. split; [exact (Hvals b!"x-t")|exact Hrest].
Defined.

(** The body of [TestChunkedBody], drained: the payload is "Wikipedia" and
    the trailer [X-T: v] is in the header map afterwards. *)
Example chunked_test_body :
  match httpx.ReadAll 12 (fun _ => 511%nat)
          (httpx.ChunkedBody
             (httpx.newChunkedReader None
                (NewReader (b!"4" ++ CRLF ++ b!"Wiki" ++ CRLF
                            ++ b!"5" ++ CRLF ++ b!"pedia" ++ CRLF
                            ++ b!"0" ++ CRLF ++ b!"X-T: v" ++ CRLF ++ CRLF))
                1048576 ∅)) 0 [] with
  | Some (data, err, httpx.ChunkedBody c') =>
      data = b!"Wikipedia" /\ err = None /\
      Header_Get (httpx.c_header c') b!"X-T" = b!"v"
  | _ => False
  end.
Proof. vm_compute. auto. Qed.

(** ** The chunked writer *)

Lemma chunkedWriter_Write_live (w p : bytes) :
  httpx.chunkedWriter_Write {| httpx.cw_ctx := None; httpx.cw_w := w |} p
  = ((Z.of_nat (length p), None),
     {| httpx.cw_ctx := None; httpx.cw_w := w ++ httpx.chunk_frame p |}).
Proof.
  unfold httpx.chunkedWriter_Write, httpx.chunk_frame.
  destruct p as [|x p]; simpl.
  - now rewrite app_nil_r.
  - now rewrite <- !app_assoc.
Qed.

Lemma chunkedWriter_Writes_live (parts : list bytes) :
  forall w,
    httpx.chunkedWriter_Writes {| httpx.cw_ctx := None; httpx.cw_w := w |} parts
    = (None, {| httpx.cw_ctx := None;
                httpx.cw_w := w ++ concat (map httpx.chunk_frame parts) |}).
Proof.
  induction parts as [|p parts IH]; intros w.
  - simpl. now rewrite app_nil_r.
  - cbn [httpx.chunkedWriter_Writes]. rewrite chunkedWriter_Write_live, IH.
    simpl. now rewrite <- app_assoc.
Qed.

Lemma chunked_encode_live (parts : list bytes) :
  httpx.chunked_encode None parts
  = (None, concat (map httpx.chunk_frame parts) ++ b!"0" ++ CRLF ++ CRLF).
Proof.
  unfold httpx.chunked_encode, httpx.newChunkedWriter.
  rewrite chunkedWriter_Writes_live. reflexivity.
Qed.

(** ** The chunked reader, one [Read] at a time *)

Lemma chunked_Read_header (c0 c : httpx.chunkedReader) (rt n : Z) (u : bytes) :
  httpx.chunk_at c0 httpx.stateChunkHeader rt
    (strconv.FormatInt n 16 ++ CRLF ++ u) c ->
  (0 < n <= MaxInt64)%Z ->
  exists c',
    httpx.chunk_at c0 httpx.stateChunkData rt u c' /\ httpx.c_remain c' = n /\
    forall lenp, httpx.chunkedReader_Read c lenp = (([], None), c').
Proof.
  intros (Hctx & Hst & Hlim & Hhdr & Hrt & Hu) Hn.
  destruct (nextChunkSize_FormatInt (httpx.c_r c) n u ltac:(lia) Hu)
    as (r' & Hr' & Hnext).
  exists (httpx.set_state (httpx.set_remain (httpx.set_r c r') n)
            httpx.stateChunkData).
  split; [|split].
  - unfold httpx.chunk_at. simpl. repeat apply conj; auto.
  - reflexivity.
  - intros lenp. unfold httpx.chunkedReader_Read. rewrite Hctx, Hst, Hnext.
    assert ((n =? 0)%Z = false) as -> by zbool. reflexivity.
Qed.

Lemma chunked_Read_zero (c0 c : httpx.chunkedReader) (rt : Z) (u : bytes) :
  httpx.chunk_at c0 httpx.stateChunkHeader rt (b!"0" ++ CRLF ++ u) c ->
  exists c',
    httpx.chunk_at c0 httpx.stateTrailer rt u c' /\
    forall lenp, httpx.chunkedReader_Read c lenp = (([], None), c').
Proof.
  intros (Hctx & Hst & Hlim & Hhdr & Hrt & Hu).
  destruct (nextChunkSize_FormatInt (httpx.c_r c) 0 u
              ltac:(unfold MaxInt64; lia) Hu) as (r' & Hr' & Hnext).
  exists (httpx.set_state (httpx.set_r c r') httpx.stateTrailer).
  split.
  - unfold httpx.chunk_at. simpl. repeat apply conj; auto.
  - intros lenp. unfold httpx.chunkedReader_Read. rewrite Hctx, Hst, Hnext.
    reflexivity.
Qed.

Lemma chunked_Read_crlf (c0 c : httpx.chunkedReader) (rt : Z) (u : bytes) :
  httpx.chunk_at c0 httpx.stateChunkCRLF rt (CRLF ++ u) c ->
  exists c',
    httpx.chunk_at c0 httpx.stateChunkHeader rt u c' /\
    forall lenp, httpx.chunkedReader_Read c lenp = (([], None), c').
Proof.
  intros (Hctx & Hst & Hlim & Hhdr & Hrt & Hu).
  destruct (bufio_ReadString_found (httpx.c_r c) [CR] u) as (r' & Hrs & Hrest).
  { intros [H|[]]. discriminate. }
  { exact Hu. }
  exists (httpx.set_state (httpx.set_r c r') httpx.stateChunkHeader).
  split.
  - unfold httpx.chunk_at. simpl. repeat apply conj; auto.
  - intros lenp. unfold httpx.chunkedReader_Read. rewrite Hctx, Hst, Hrs.
    reflexivity.
Qed.

Lemma chunked_Read_last (c0 c : httpx.chunkedReader) (rt : Z) (u : bytes) :
  httpx.chunk_at c0 httpx.stateTrailer rt (CRLF ++ u) c ->
  exists c',
    httpx.chunk_at c0 httpx.stateDone rt u c' /\
    forall lenp, httpx.chunkedReader_Read c lenp = (([], Some EOF), c').
Proof.
  intros (Hctx & Hst & Hlim & Hhdr & Hrt & Hu).
  destruct (readTrailers_accepts (httpx.c_r c) (httpx.c_header c) [] u
              ltac:(constructor) Hu) as (r' & Hr' & Htr).
  exists (httpx.set_state
            (httpx.set_header (httpx.set_r c r') (httpx.c_header c))
            httpx.stateDone).
  split.
  - unfold httpx.chunk_at. simpl. repeat apply conj; auto.
  - intros lenp. unfold httpx.chunkedReader_Read. rewrite Hctx, Hst, Htr.
    reflexivity.
Qed.

(** A [Read] inside a chunk delivers a non-empty prefix of what the chunk
    still holds. *)
Lemma chunked_Read_data (c0 c : httpx.chunkedReader) (rt : Z) (d u : bytes)
    (lenp : nat) :
  httpx.chunk_at c0 httpx.stateChunkData rt (d ++ u) c ->
  httpx.c_remain c = Z.of_nat (length d) ->
  (0 < length d)%nat -> (0 < lenp)%nat -> (0 <= rt)%Z ->
  (rt + Z.of_nat (length d) <= MaxInt64)%Z ->
  (httpx.c_limit c0 <= 0 \/ rt + Z.of_nat (length d) <= httpx.c_limit c0)%Z ->
  exists d1 d2 c',
    d = d1 ++ d2 /\ (0 < length d1)%nat /\
    httpx.chunkedReader_Read c lenp = ((d1, None), c') /\
    httpx.c_remain c' = Z.of_nat (length d2) /\
    httpx.chunk_at c0
      (if (length d2 =? 0)%nat then httpx.stateChunkCRLF
       else httpx.stateChunkData)
      (rt + Z.of_nat (length d1)) (d2 ++ u) c'.
Proof.
  intros (Hctx & Hst & Hlim & Hhdr & Hrt & Hu) Hrem Hd Hlenp Hrt0 Hmax Hcap.
  unfold httpx.chunkedReader_Read. rewrite Hctx, Hst, Hrem.
  assert ((Z.of_nat (length d) <=? 0)%Z = false) as -> by zbool.
  pose proof (clamp_le lenp (Z.of_nat (length d)) ltac:(lia)) as [Hc _].
  pose proof (clamp_pos lenp (Z.of_nat (length d)) ltac:(lia) Hlenp) as Hcp.
  destruct (bufio.Read _ _) as [[data err] r'] eqn:Hrd.
  apply bufio_Read_inv in Hrd as (Hsplit & Hlen & _ & Herr); [|exact Hcp].
  destruct Herr as [(-> & Hne & Hpos)|(_ & He & _)].
  2:{ rewrite Hu in He. destruct d; [simpl in Hd; lia|discriminate]. }
  assert (length data <= length d)%nat as Hle by lia.
  rewrite Hu in Hsplit.
  assert (data = take (length data) d) as Hd1.
  { apply (f_equal (take (length data))) in Hsplit.
    rewrite take_app_le in Hsplit by exact Hle.
    now rewrite take_app_length in Hsplit. }
  assert (bufio.stream r' = drop (length data) d ++ u) as Hu'.
  { apply (f_equal (drop (length data))) in Hsplit.
    rewrite drop_app_le in Hsplit by exact Hle.
    now rewrite drop_app_length in Hsplit. }
  cbn [httpx.set_r httpx.set_remain httpx.set_readTotal httpx.c_remain
       httpx.c_readTotal httpx.c_limit httpx.c_ctx httpx.c_state httpx.c_r
       httpx.c_header].
  rewrite Hrt, Hlim, Hrem.
  rewrite !wrap64_id by (unfold MaxInt64 in *; lia).
  assert ((0 <? httpx.c_limit c0)%Z
          && (httpx.c_limit c0 <? rt + Z.of_nat (length data))%Z = false) as ->.
  { apply andb_false_iff. destruct Hcap; [left|right]; zbool. }
  assert (d = data ++ drop (length data) d) as Hd12.
  { rewrite <- (take_drop (length data) d) at 1. now rewrite <- Hd1. }
  destruct (Z.of_nat (length d) - Z.of_nat (length data) =? 0)%Z eqn:Hz.
  - apply Z.eqb_eq in Hz.
    exists data, (drop (length data) d). eexists.
    split; [exact Hd12|]. split; [exact Hpos|]. split; [reflexivity|].
    rewrite length_drop.
    assert ((length d - length data =? 0)%nat = true) as ->
      by (apply Nat.eqb_eq; lia).
    split; [simpl; lia|].
    unfold httpx.chunk_at. simpl. repeat apply conj; auto.
  - apply Z.eqb_neq in Hz.
    exists data, (drop (length data) d). eexists.
    split; [exact Hd12|]. split; [exact Hpos|]. split; [reflexivity|].
    rewrite length_drop.
    assert ((length d - length data =? 0)%nat = false) as ->
      by (apply Nat.eqb_neq; lia).
    split; [simpl; lia|].
    unfold httpx.chunk_at. simpl. repeat apply conj; auto.
Qed.

(** ** The chunked reader under [io.ReadAll] *)

Section ChunkedReadAll.

Variable bufsz : nat -> nat.
Variable c0 : httpx.chunkedReader.

(** The rest of a chunk's payload. *)
Lemma chunked_ReadAll_data :
  forall (m : nat) (d : bytes), (length d <= m)%nat -> (0 < length d)%nat ->
  forall (c : httpx.chunkedReader) (rt : Z) (u : bytes) (i : nat) (acc : bytes),
    httpx.chunk_at c0 httpx.stateChunkData rt (d ++ u) c ->
    httpx.c_remain c = Z.of_nat (length d) ->
    (0 <= rt)%Z -> (rt + Z.of_nat (length d) <= MaxInt64)%Z ->
    (httpx.c_limit c0 <= 0 \/ rt + Z.of_nat (length d) <= httpx.c_limit c0)%Z ->
    exists (k : nat) (c' : httpx.chunkedReader),
      httpx.chunk_at c0 httpx.stateChunkCRLF (rt + Z.of_nat (length d)) u c' /\
      forall fuel,
        httpx.ReadAll (k + fuel) bufsz (httpx.ChunkedBody c) i acc
        = httpx.ReadAll fuel bufsz (httpx.ChunkedBody c') (i + k) (acc ++ d).
Proof.
  induction m as [m IH] using lt_wf_ind.
  intros d Hm Hd c rt u i acc Hat Hrem Hrt Hmax Hcap.
  destruct (chunked_Read_data c0 c rt d u (S (bufsz i)) Hat Hrem Hd
              ltac:(lia) Hrt Hmax Hcap)
    as (d1 & d2 & c1 & Hd12 & Hd1 & Hread & Hrem1 & Hat1).
  assert (length d = length d1 + length d2)%nat as Hlen
    by (rewrite Hd12, length_app; reflexivity).
  destruct (length d2 =? 0)%nat eqn:Hz.
  - apply Nat.eqb_eq in Hz. apply length_zero_iff_nil in Hz. subst d2.
    rewrite app_nil_r in Hd12. subst d1.
    exists 1%nat, c1. split; [exact Hat1|].
    intros fuel. cbn [Nat.add httpx.ReadAll httpx.Read]. rewrite Hread.
    now rewrite Nat.add_1_r.
  - apply Nat.eqb_neq in Hz.
    destruct (IH (length d2) ltac:(lia) d2 (le_n _) ltac:(lia) c1
                (rt + Z.of_nat (length d1))%Z u (S i) (acc ++ d1) Hat1 Hrem1
                ltac:(lia) ltac:(lia) ltac:(lia))
      as (k & c' & Hat' & Hrun).
    exists (S k), c'. split.
    + replace (rt + Z.of_nat (length d))%Z
        with (rt + Z.of_nat (length d1) + Z.of_nat (length d2))%Z by lia.
      exact Hat'.
    + intros fuel. cbn [Nat.add httpx.ReadAll httpx.Read]. rewrite Hread.
      rewrite Hrun, Hd12, <- app_assoc.
      rewrite Nat.add_succ_r. reflexivity.
Qed.

(** One frame of the writer: size line, payload, CR LF. *)
Lemma chunked_ReadAll_frame (p : bytes) :
  forall (c : httpx.chunkedReader) (rt : Z) (u : bytes) (i : nat) (acc : bytes),
    httpx.chunk_at c0 httpx.stateChunkHeader rt (httpx.chunk_frame p ++ u) c ->
    (0 <= rt)%Z -> (rt + Z.of_nat (length p) <= MaxInt64)%Z ->
    (httpx.c_limit c0 <= 0 \/ rt + Z.of_nat (length p) <= httpx.c_limit c0)%Z ->
    exists (k : nat) (c' : httpx.chunkedReader),
      httpx.chunk_at c0 httpx.stateChunkHeader (rt + Z.of_nat (length p)) u c' /\
      forall fuel,
        httpx.ReadAll (k + fuel) bufsz (httpx.ChunkedBody c) i acc
        = httpx.ReadAll fuel bufsz (httpx.ChunkedBody c') (i + k) (acc ++ p).
Proof.
  intros c rt u i acc Hat Hrt Hmax Hcap.
  destruct p as [|x p'] eqn:Hp.
  { exists 0%nat, c. simpl in *. rewrite Z.add_0_r, Nat.add_0_r, app_nil_r.
    auto. }
  rewrite <- Hp in *. assert (0 < length p)%nat as Hlen by (rewrite Hp; simpl; lia).
  assert (httpx.chunk_frame p
          = strconv.FormatInt (Z.of_nat (length p)) 16 ++ CRLF ++ p ++ CRLF)
    as Hframe by (rewrite Hp; reflexivity).
  rewrite Hframe, <- !app_assoc in Hat.
  destruct (chunked_Read_header c0 c rt (Z.of_nat (length p)) _ Hat ltac:(lia))
    as (c1 & Hat1 & Hrem1 & Hread1).
  destruct (chunked_ReadAll_data (length p) p (le_n _) Hlen c1 rt (CRLF ++ u)
              (S i) acc Hat1 Hrem1 Hrt Hmax Hcap)
    as (k & c2 & Hat2 & Hrun2).
  destruct (chunked_Read_crlf c0 c2 _ u Hat2) as (c3 & Hat3 & Hread3).
  exists (S (k + 1)), c3. split; [exact Hat3|].
  intros fuel. cbn [Nat.add httpx.ReadAll httpx.Read]. rewrite Hread1.
  rewrite app_nil_r, <- Nat.add_assoc, Hrun2.
  cbn [Nat.add httpx.ReadAll httpx.Read]. rewrite Hread3, app_nil_r.
  rewrite Nat.add_succ_r, Nat.add_assoc, Nat.add_1_r. reflexivity.
Qed.

(** All the frames of a sequence of buffers. *)
Lemma chunked_ReadAll_frames (parts : list bytes) :
  forall (c : httpx.chunkedReader) (rt : Z) (u : bytes) (i : nat) (acc : bytes),
    httpx.chunk_at c0 httpx.stateChunkHeader rt
      (concat (map httpx.chunk_frame parts) ++ u) c ->
    (0 <= rt)%Z -> (rt + Z.of_nat (length (concat parts)) <= MaxInt64)%Z ->
    (httpx.c_limit c0 <= 0
     \/ rt + Z.of_nat (length (concat parts)) <= httpx.c_limit c0)%Z ->
    exists (k : nat) (c' : httpx.chunkedReader),
      httpx.chunk_at c0 httpx.stateChunkHeader
        (rt + Z.of_nat (length (concat parts))) u c' /\
      forall fuel,
        httpx.ReadAll (k + fuel) bufsz (httpx.ChunkedBody c) i acc
        = httpx.ReadAll fuel bufsz (httpx.ChunkedBody c') (i + k)
            (acc ++ concat parts).
Proof.
  induction parts as [|p parts IH]; intros c rt u i acc Hat Hrt Hmax Hcap.
  { exists 0%nat, c. simpl in *. rewrite Z.add_0_r, Nat.add_0_r, app_nil_r.
    auto. }
  cbn [map concat] in *. rewrite length_app in Hmax, Hcap.
  rewrite <- app_assoc in Hat.
  destruct (chunked_ReadAll_frame p c rt _ i acc Hat Hrt ltac:(lia) ltac:(lia))
    as (k1 & c1 & Hat1 & Hrun1).
  destruct (IH c1 (rt + Z.of_nat (length p))%Z u (i + k1)%nat (acc ++ p) Hat1
              ltac:(lia) ltac:(lia) ltac:(lia))
    as (k2 & c2 & Hat2 & Hrun2).
  exists (k1 + k2)%nat, c2. split.
  - rewrite length_app.
    replace (rt + Z.of_nat (length p + length (concat parts)))%Z
      with (rt + Z.of_nat (length p) + Z.of_nat (length (concat parts)))%Z
      by lia.
    exact Hat2.
  - intros fuel. rewrite <- Nat.add_assoc, Hrun1, Hrun2.
    now rewrite <- app_assoc, Nat.add_assoc.
Qed.

End ChunkedReadAll.

(** Decoding what the writer produced for [parts], followed by [rest]. *)
Lemma chunked_decode_frames (bufsz : nat -> nat) (c : httpx.chunkedReader)
    (parts : list bytes) (rest : bytes) :
  httpx.chunk_at c httpx.stateChunkHeader 0
    (concat (map httpx.chunk_frame parts) ++ b!"0" ++ CRLF ++ CRLF ++ rest) c ->
  (Z.of_nat (length (concat parts)) <= MaxInt64)%Z ->
  (httpx.c_limit c <= 0 \/ Z.of_nat (length (concat parts)) <= httpx.c_limit c)%Z ->
  exists (k : nat) (c' : httpx.chunkedReader),
    httpx.chunk_at c httpx.stateDone (Z.of_nat (length (concat parts))) rest c' /\
    forall fuel, (k <= fuel)%nat ->
      httpx.ReadAll fuel bufsz (httpx.ChunkedBody c) 0 []
      = Some (concat parts, None, httpx.ChunkedBody c').
Proof.
  intros Hat Hmax Hcap.
  destruct (chunked_ReadAll_frames bufsz c parts c 0%Z _ 0%nat [] Hat
              ltac:(lia) ltac:(lia) ltac:(lia))
    as (k1 & c1 & Hat1 & Hrun1).
  rewrite Z.add_0_l in Hat1.
  destruct (chunked_Read_zero c c1 _ _ Hat1) as (c2 & Hat2 & Hread2).
  destruct (chunked_Read_last c c2 _ _ Hat2) as (c3 & Hat3 & Hread3).
  exists (k1 + 2)%nat, c3. split; [exact Hat3|].
  intros fuel Hfuel.
  replace fuel with (k1 + S (S (fuel - k1 - 2)))%nat by lia.
  rewrite Hrun1. cbn [httpx.ReadAll httpx.Read].
  rewrite Hread2. cbn [httpx.ReadAll httpx.Read]. rewrite Hread3.
  now rewrite !app_nil_r.
Qed.

(** C3. Whatever the buffers handed to the chunked writer (empty ones
    included), the bytes it has produced after its [Close] are the frames
    of the non-empty buffers followed by "0\r\n\r\n", and the chunked
    reader, drained by [io.ReadAll] with buffers of any lengths over a
    source that may deliver short reads, yields the concatenation of the
    buffers, ends without error in its done state and adds nothing to the
    header map. The payload is at most [MaxInt64] bytes long, as every Go
    byte sequence is, and fits the cap when one is set. In particular
    "Wiki" then "pedia" give "4\r\nWiki\r\n5\r\npedia\r\n0\r\n\r\n", which
    decodes to "Wikipedia" with no trailer. *)
Theorem chunked_round_trip :
  (forall (parts : list bytes) (limit : Z) (hdr : Header)
          (sh : nat -> nat -> nat) (bufsz : nat -> nat),
      (Z.of_nat (length (concat parts)) <= MaxInt64)%Z ->
      (limit <= 0 \/ Z.of_nat (length (concat parts)) <= limit)%Z ->
      exists wire,
        httpx.chunked_encode None parts = (None, wire) /\
        wire = concat (map httpx.chunk_frame parts) ++ b!"0" ++ CRLF ++ CRLF /\
        exists k c',
          (forall fuel, (k <= fuel)%nat ->
             httpx.ReadAll fuel bufsz
               (httpx.ChunkedBody
                  (httpx.newChunkedReader None
                     {| unread := wire; short := sh; calls := 0 |} limit hdr))
               0 []
             = Some (concat parts, None, httpx.ChunkedBody c')) /\
          httpx.c_state c' = httpx.stateDone /\
          httpx.c_header c' = hdr /\
          bufio.stream (httpx.c_r c') = [])
  /\
  httpx.chunked_encode None [b!"Wiki"; b!"pedia"]
  = (None, b!"4" ++ CRLF ++ b!"Wiki" ++ CRLF ++ b!"5" ++ CRLF ++ b!"pedia" ++ CRLF
           ++ b!"0" ++ CRLF ++ CRLF)
  /\
  exists k c',
    (forall fuel, (k <= fuel)%nat ->
       httpx.ReadAll fuel (fun _ => 511%nat)
         (httpx.ChunkedBody
            (httpx.newChunkedReader None
               (NewReader (b!"4" ++ CRLF ++ b!"Wiki" ++ CRLF ++ b!"5" ++ CRLF
                           ++ b!"pedia" ++ CRLF ++ b!"0" ++ CRLF ++ CRLF))
               0 ∅)) 0 []
       = Some (b!"Wikipedia", None, httpx.ChunkedBody c')) /\
    httpx.c_header c' = ∅.
Proof.
  assert (forall (parts : list bytes) (limit : Z) (hdr : Header)
                 (sh : nat -> nat -> nat) (bufsz : nat -> nat),
      (Z.of_nat (length (concat parts)) <= MaxInt64)%Z ->
      (limit <= 0 \/ Z.of_nat (length (concat parts)) <= limit)%Z ->
      exists k c',
        (forall fuel, (k <= fuel)%nat ->
           httpx.ReadAll fuel bufsz
             (httpx.ChunkedBody
                (httpx.newChunkedReader None
                   {| unread := concat (map httpx.chunk_frame parts)
                                ++ b!"0" ++ CRLF ++ CRLF;
                      short := sh; calls := 0 |} limit hdr))
             0 []
           = Some (concat parts, None, httpx.ChunkedBody c')) /\
        httpx.c_state c' = httpx.stateDone /\
        httpx.c_header c' = hdr /\
        bufio.stream (httpx.c_r c') = []) as Hdecode.
  { intros parts limit hdr sh bufsz Hmax Hcap.
    set (c := httpx.newChunkedReader None _ limit hdr).
    destruct (chunked_decode_frames bufsz c parts []) as (k & c' & Hat' & Hrun).
    { unfold httpx.chunk_at, c. simpl. repeat apply conj; auto. }
    { exact Hmax. }
    { exact Hcap. }
    destruct Hat' as (_ & Hst & _ & Hhdr & _ & Hu).
    exists k, c'. auto. }
  split; [|split].
  - intros parts limit hdr sh bufsz Hmax Hcap.
    eexists. split; [apply chunked_encode_live|]. split; [reflexivity|].
    now apply Hdecode.
  - reflexivity.
  - destruct (Hdecode [b!"Wiki"; b!"pedia"] 0%Z ∅ (fun _ n => n)
                (fun _ => 511%nat)) as (k & c' & Hrun & _ & Hhdr & _).
    { unfold MaxInt64. simpl. lia. }
    { lia. }
    exists k, c'. split; [exact Hrun|exact Hhdr].
Qed.

Lemma chunked_round_trip_witness :
  exists wire,
    httpx.chunked_encode None [b!"Wi"; []; b!"kiped"; b!"ia"] = (None, wire) /\
    wire = concat (map httpx.chunk_frame [b!"Wi"; []; b!"kiped"; b!"ia"])
           ++ b!"0" ++ CRLF ++ CRLF /\
    exists k c',
      (forall fuel, (k <= fuel)%nat ->
         httpx.ReadAll fuel (fun i => i)
           (httpx.ChunkedBody
              (httpx.newChunkedReader None
                 {| unread := wire; short := fun _ _ => 2%nat; calls := 0 |}
                 9 ∅))
           0 []
         = Some (concat [b!"Wi"; []; b!"kiped"; b!"ia"], None,
                 httpx.ChunkedBody c')) /\
      httpx.c_state c' = httpx.stateDone /\
      httpx.c_header c' = ∅ /\
      bufio.stream (httpx.c_r c') = [].
Proof.
  apply (proj1 chunked_round_trip [b!"Wi"; []; b!"kiped"; b!"ia"] 9%Z ∅
           (fun _ _ => 2%nat) (fun i => i)).
  - unfold MaxInt64. simpl. lia.
  - right. simpl. lia.
Defined.

(** ** The response writer *)

Lemma writeValues_live (ck : bytes) (vals : list bytes) :
  forall w,
    httpx.writeValues None w ck vals
    = (None, w ++ concat (map (fun v => ck ++ b!": " ++ v ++ CRLF) vals)).
Proof.
  induction vals as [|v vals IH]; intros w; simpl.
  - now rewrite app_nil_r.
  - rewrite IH. now rewrite <- !app_assoc.
Qed.

Lemma writeHeaders_live (entries : list (bytes * list bytes)) :
  forall w,
    httpx.writeHeaders None w entries = (None, w ++ httpx.header_lines entries).
Proof.
  induction entries as [|[k vals] entries IH]; intros w.
  - simpl. now rewrite app_nil_r.
  - cbn [httpx.writeHeaders]. rewrite writeValues_live, IH.
    unfold httpx.header_lines. simpl. now rewrite <- !app_assoc.
Qed.

(** [io.Copy] into a live chunked writer: the body reaches the sink as
    one frame per non-empty read, and the copy ends without error. *)
Lemma copyChunked_loop_live :
  forall (fuel : nat) (src : Source) (w : bytes),
    (length (unread src) < fuel)%nat ->
    exists parts src',
      concat parts = unread src /\ Forall (fun p => p <> []) parts /\
      unread src' = [] /\
      httpx.copyChunked_loop fuel {| httpx.cw_ctx := None; httpx.cw_w := w |} src
      = Some (None,
              {| httpx.cw_ctx := None;
                 httpx.cw_w := w ++ concat (map httpx.chunk_frame parts) |},
              src').
Proof.
  induction fuel as [|fuel IH]; intros src w Hfuel; [lia|].
  cbn [httpx.copyChunked_loop].
  destruct (src_Read src (32 * 1024)) as [[data er] src1] eqn:Hrd.
  apply src_Read_inv in Hrd as (Hu & _ & _ & _ & Hcase).
  destruct Hcase as [(-> & Hne & Hpos)|(-> & He & ->)].
  - specialize (Hpos ltac:(lia)).
    assert ((0 <? length data)%nat = true) as -> by (apply Nat.ltb_lt; lia).
    rewrite chunkedWriter_Write_live.
    destruct (IH src1 (w ++ httpx.chunk_frame data)) as (parts & src' & Hc & Hall & Hend & Hrun).
    { rewrite Hu, length_app in Hfuel. lia. }
    exists (data :: parts), src'. repeat apply conj.
    + simpl. now rewrite Hc, Hu.
    + constructor; [|exact Hall]. intros ->. simpl in Hpos. lia.
    + exact Hend.
    + rewrite Hrun. simpl. now rewrite <- app_assoc.
  - exists [], src1. repeat apply conj.
    + now rewrite He.
    + constructor.
    + rewrite He in Hu. now destruct (unread src1).
    + simpl. now rewrite app_nil_r.
Qed.

Lemma copyChunked_live (src : Source) (w : bytes) :
  exists parts src',
    concat parts = unread src /\ Forall (fun p => p <> []) parts /\
    unread src' = [] /\
    httpx.copyChunked {| httpx.cw_ctx := None; httpx.cw_w := w |} src
    = (None,
       {| httpx.cw_ctx := None;
          httpx.cw_w := w ++ concat (map httpx.chunk_frame parts) |},
       src').
Proof.
  destruct (copyChunked_loop_live (S (length (unread src))) src w ltac:(lia))
    as (parts & src' & Hc & Hall & Hend & Hrun).
  exists parts, src'. repeat apply conj; auto.
  unfold httpx.copyChunked. now rewrite Hrun.
Qed.

(** The fuel [copyChunked] hands to its loop is enough, whatever the
    context. *)
Lemma copyChunked_loop_total :
  forall (fuel : nat) (cw : httpx.chunkedWriter) (src : Source),
    (length (unread src) < fuel)%nat ->
    is_Some (httpx.copyChunked_loop fuel cw src).
Proof.
  induction fuel as [|fuel IH]; intros cw src Hfuel; [lia|].
  cbn [httpx.copyChunked_loop].
  destruct (src_Read src (32 * 1024)) as [[data er] src1] eqn:Hrd.
  apply src_Read_inv in Hrd as (Hu & _ & _ & _ & Hcase).
  destruct (if (0 <? length data)%nat then _ else _) as [[n ew] cw'].
  destruct ew; [eauto|].
  destruct Hcase as [(-> & Hne & Hpos)|(-> & He & ->)]; [|eauto].
  apply IH. specialize (Hpos ltac:(lia)).
  rewrite Hu, length_app in Hfuel. lia.
Qed.

Lemma WriteResponse_head (w : bytes) (resp : httpx.Response) :
  httpx.writeHeaders None
    (w ++ (match httpx.Proto resp with [] => b!"HTTP/1.1" | p => p end)
       ++ b!" " ++ strconv.Itoa (httpx.StatusCode resp) ++ b!" "
       ++ (match httpx.Status resp with
           | [] => strconv.Itoa (httpx.StatusCode resp)
           | st => st
           end) ++ CRLF)
    (map_to_list (httpx.resp_Header resp))
  = (None, w ++ httpx.status_line resp
             ++ httpx.header_lines (map_to_list (httpx.resp_Header resp))).
Proof.
  rewrite writeHeaders_live. unfold httpx.status_line.
  now rewrite <- !app_assoc.
Qed.

(** C2, as the code has it. [WriteResponse] picks the framing of the body
    in the order fixed-length, chunked, close-delimited. With a non-empty
    [Content-Length] that parses to [n >= 0], the first [n] bytes of the
    body follow the head, whatever [Transfer-Encoding] says, and a body
    shorter than [n] is [io.EOF]. Only with no [Content-Length] does
    [Transfer-Encoding: chunked] give chunked framing: the body cut into
    non-empty chunks and the terminal chunk. With neither, the body
    follows the head as it is. *)
Theorem WriteResponse_framing_precedence
    (w : bytes) (resp : httpx.Response) (body : Source) :
  httpx.Body resp = Some body ->
  let h := httpx.resp_Header resp in
  let out := w ++ httpx.response_head resp in
  (forall n,
      Header_Get h b!"Content-Length" <> [] ->
      strconv.ParseInt (strings.TrimSpace (Header_Get h b!"Content-Length")) 10
      = Some n ->
      (0 <= n)%Z ->
      exists body',
        httpx.WriteResponse None w resp
        = (if (Z.of_nat (length (unread body)) <? n)%Z then Some EOF else None,
           out ++ take (Z.to_nat n) (unread body), Some body'))
  /\
  (Header_Get h b!"Content-Length" = [] ->
   strings.EqualFold (Header_Get h b!"Transfer-Encoding") b!"chunked" = true ->
   exists parts body',
     concat parts = unread body /\ Forall (fun p => p <> []) parts /\
     httpx.WriteResponse None w resp
     = (None, out ++ (httpx.chunked_encode None parts).2, Some body'))
  /\
  (Header_Get h b!"Content-Length" = [] ->
   strings.EqualFold (Header_Get h b!"Transfer-Encoding") b!"chunked" = false ->
   exists body',
     httpx.WriteResponse None w resp = (None, out ++ unread body, Some body')).
Proof.
  intros Hbody h out. subst h. unfold httpx.WriteResponse.
  rewrite WriteResponse_head, Hbody.
  assert ((w ++ httpx.status_line resp
             ++ httpx.header_lines (map_to_list (httpx.resp_Header resp)))
          ++ CRLF = out) as ->.
  { unfold out, httpx.response_head. now rewrite <- !app_assoc. }
  split; [|split].
  - intros n Hcl Hparse Hn.
    destruct (Header_Get _ b!"Content-Length") as [|x cl] eqn:Hget;
      [contradiction|].
    rewrite Hparse. assert ((n <? 0)%Z = false) as -> by zbool.
    unfold httpx.io_CopyN. eexists. f_equal. f_equal.
    + destruct (Z.ltb_spec (Z.of_nat (length (unread body))) n);
        destruct (Z.eqb_spec
                    (Z.of_nat (Nat.min (Z.to_nat n) (length (unread body)))) n);
        try reflexivity; lia.
    + f_equal. destruct (Nat.min_spec (Z.to_nat n) (length (unread body)))
        as [[Hlt ->]|[Hge ->]]; [reflexivity|].
      now rewrite !take_ge by lia.
  - intros Hcl Hte. rewrite Hcl, Hte.
    destruct (copyChunked_live body out) as (parts & body' & Hc & Hall & _ & Hrun).
    unfold httpx.newChunkedWriter. rewrite Hrun.
    exists parts, body'. split; [exact Hc|]. split; [exact Hall|].
    rewrite chunked_encode_live. simpl. now rewrite <- !app_assoc.
  - intros Hcl Hte. rewrite Hcl, Hte. unfold httpx.io_Copy. eauto.
Qed.

Lemma WriteResponse_framing_precedence_witness :
  let resp :=
    {| httpx.Proto := b!"HTTP/1.1"; httpx.StatusCode := 200;
       httpx.Status := b!"OK";
       httpx.resp_Header :=
         Header_Set (Header_Set ∅ b!"Content-Length" b!"3")
           b!"Transfer-Encoding" b!"chunked";
       httpx.Body := Some (NewReader b!"abc") |} in
  exists body',
    httpx.WriteResponse None [] resp
    = (if (Z.of_nat (length (unread (NewReader b!"abc"))) <? 3)%Z
       then Some EOF else None,
       ([] ++ httpx.response_head resp)
         ++ take (Z.to_nat 3) (unread (NewReader b!"abc")),
       Some body').
Proof.
  intros resp.
  refine (proj1 (WriteResponse_framing_precedence [] resp (NewReader b!"abc")
                   eq_refl) 3%Z _ _ _).
  - vm_compute. discriminate.
  - vm_compute. reflexivity.
  - lia.
Defined.

(** C2, the claim as stated fails: this response carries both
    [Transfer-Encoding: chunked] and [Content-Length: 3], and its body
    "abc" is written as it is after the head, not as the chunk
    "3\r\nabc\r\n" with the terminal chunk. *)
Lemma WriteResponse_both_headers_not_chunked :
  let resp :=
    {| httpx.Proto := b!"HTTP/1.1"; httpx.StatusCode := 200;
       httpx.Status := b!"OK";
       httpx.resp_Header :=
         Header_Set (Header_Set ∅ b!"Content-Length" b!"3")
           b!"Transfer-Encoding" b!"chunked";
       httpx.Body := Some (NewReader b!"abc") |} in
  strings.EqualFold
    (Header_Get (httpx.resp_Header resp) b!"Transfer-Encoding") b!"chunked"
  = true /\
  Header_Get (httpx.resp_Header resp) b!"Content-Length" = b!"3" /\
  (httpx.WriteResponse None [] resp).1
  = (None, httpx.response_head resp ++ b!"abc") /\
  (httpx.WriteResponse None [] resp).1.2
  <> httpx.response_head resp ++ (httpx.chunked_encode None [b!"abc"]).2.
Proof.
  intros resp. split; [reflexivity|]. split; [reflexivity|].
  split; [vm_compute; reflexivity|].
  intros H. vm_compute in H. discriminate.
Qed.


(** * Further properties of the code *)

(** ** Header keys *)

(** Runs through the 256 bytes. *)
Ltac each_byte c :=
  destruct c as [[|] [|] [|] [|] [|] [|] [|] [|]]; vm_compute; try reflexivity;
  try discriminate; auto.

Lemma ToLower_idem (c : ascii) :
  strings.ToLower (strings.ToLower c) = strings.ToLower c.
Proof. each_byte c. Qed.

Lemma ToUpper_idem (c : ascii) :
  strings.ToUpper (strings.ToUpper c) = strings.ToUpper c.
Proof. each_byte c. Qed.

Lemma ToLower_ToUpper (c : ascii) :
  strings.ToLower (strings.ToUpper c) = strings.ToLower c.
Proof. each_byte c. Qed.

Lemma ToUpper_ToLower (c : ascii) :
  strings.ToUpper (strings.ToLower c) = strings.ToUpper c.
Proof. each_byte c. Qed.

Lemma ToLower_dash (c : ascii) :
  Ascii.eqb (strings.ToLower c) "-"%char = Ascii.eqb c "-"%char.
Proof. each_byte c. Qed.

Lemma ToUpper_dash (c : ascii) :
  Ascii.eqb (strings.ToUpper c) "-"%char = Ascii.eqb c "-"%char.
Proof. each_byte c. Qed.

Lemma Join_cons_cons (x : ascii) (p : bytes) (ps : list bytes) (sep : bytes) :
  strings.Join ((x :: p) :: ps) sep = x :: strings.Join (p :: ps) sep.
Proof. destruct ps; reflexivity. Qed.

Lemma Join_cons2 (p q : bytes) (ps : list bytes) (sep : bytes) :
  strings.Join (p :: q :: ps) sep = p ++ sep ++ strings.Join (q :: ps) sep.
Proof. reflexivity. Qed.

(** The parts of [Split], capitalised and joined, are the one-pass walk. *)
Lemma canon_parts_walk (s : bytes) :
  forall (b : bool),
    match strings.Split s "-"%char with
    | p :: ps =>
        strings.Join
          ((if b then canonPart p else map strings.ToLower p) :: map canonPart ps)
          b!"-"
        = canonWalk b s
    | [] => False
    end.
Proof.
  induction s as [|c t IH]; intros b.
  - simpl. now destruct b.
  - cbn [strings.Split canonWalk].
    destruct (Ascii.eqb c "-"%char) eqn:E.
    + apply Ascii.eqb_eq in E. subst c.
      specialize (IH true). destruct (strings.Split t "-"%char) as [|p ps];
        [contradiction|].
      cbn [map] in *.
      replace (if b then canonPart [] else []) with (@nil ascii)
        by (now destruct b).
      rewrite Join_cons2, IH. reflexivity.
    + specialize (IH false).
      destruct (strings.Split t "-"%char) as [|p ps]; [contradiction|].
      assert ((if b then canonPart (c :: p) else map strings.ToLower (c :: p))
              = (if b then strings.ToUpper c else strings.ToLower c)
                  :: map strings.ToLower p) as -> by (now destruct b).
      rewrite Join_cons_cons. now rewrite IH.
Qed.

Lemma CanonicalHeaderKey_walk (s : bytes) :
  CanonicalHeaderKey s = canonWalk true s.
Proof.
  unfold CanonicalHeaderKey. destruct s as [|c t]; [reflexivity|].
  pose proof (canon_parts_walk (c :: t) true) as H.
  destruct (strings.Split (c :: t) "-"%char) as [|p ps]; [contradiction|].
  exact H.
Qed.

Lemma canonWalk_idem (s : bytes) :
  forall b, canonWalk b (canonWalk b s) = canonWalk b s.
Proof.
  induction s as [|c t IH]; intros b; [reflexivity|].
  cbn [canonWalk]. destruct (Ascii.eqb c "-"%char) eqn:E.
  - cbn [canonWalk]. rewrite E. now rewrite IH.
  - cbn [canonWalk]. destruct b.
    + rewrite ToUpper_dash, E, ToUpper_idem. now rewrite IH.
    + rewrite ToLower_dash, E, ToLower_idem. now rewrite IH.
Qed.

Lemma CanonicalHeaderKey_idem (s : bytes) :
  CanonicalHeaderKey (CanonicalHeaderKey s) = CanonicalHeaderKey s.
Proof. rewrite !CanonicalHeaderKey_walk. apply canonWalk_idem. Qed.

Lemma canonWalk_fold (s : bytes) :
  forall t b, strings.EqualFold s t = true -> canonWalk b s = canonWalk b t.
Proof.
  induction s as [|x s IH]; intros [|y t] b; simpl; try discriminate;
    [reflexivity|].
  intros H. apply andb_true_iff in H as [Hxy Hst].
  apply Ascii.eqb_eq in Hxy.
  assert (Ascii.eqb x "-"%char = Ascii.eqb y "-"%char) as Hd
    by (rewrite <- (ToLower_dash x), <- (ToLower_dash y); now rewrite Hxy).
  rewrite <- Hd. destruct (Ascii.eqb x "-"%char) eqn:E.
  - apply Ascii.eqb_eq in E. subst x. symmetry in Hd.
    apply Ascii.eqb_eq in Hd. subst y. now rewrite (IH t true Hst).
  - rewrite (IH t false Hst). f_equal. destruct b.
    + rewrite <- (ToUpper_ToLower x), <- (ToUpper_ToLower y). now rewrite Hxy.
    + exact Hxy.
Qed.

(** X1. Lookups are case-insensitive: two ASCII keys that differ in the case
    of their letters only have the same canonical form, so [Get] and
    [Values] answer the same for both. *)
Theorem Header_lookup_case_insensitive (h : Header) (k k' : bytes) :
  strings.isASCII k = true -> strings.isASCII k' = true ->
  strings.EqualFold k k' = true ->
  CanonicalHeaderKey k = CanonicalHeaderKey k' /\
  Header_Get h k = Header_Get h k' /\
  Header_Values h k = Header_Values h k'.
Proof.
  intros _ _ Hf.
  assert (CanonicalHeaderKey k = CanonicalHeaderKey k') as Hc
    by (rewrite !CanonicalHeaderKey_walk; now apply canonWalk_fold).
  unfold Header_Get, Header_Values. now rewrite Hc.
Qed.

Lemma Header_lookup_case_insensitive_witness :
  CanonicalHeaderKey b!"CONTENT-type" = CanonicalHeaderKey b!"content-Type" /\
  Header_Get (Header_Set ∅ b!"Content-Type" b!"text/plain") b!"CONTENT-type"
  = Header_Get (Header_Set ∅ b!"Content-Type" b!"text/plain") b!"content-Type" /\
  Header_Values (Header_Set ∅ b!"Content-Type" b!"text/plain") b!"CONTENT-type"
  = Header_Values (Header_Set ∅ b!"Content-Type" b!"text/plain") b!"content-Type".
Proof.
  apply (Header_lookup_case_insensitive _ b!"CONTENT-type" b!"content-Type");
    reflexivity.
Defined.

(** ** The header map *)

(** X2. The header API keeps the map canonical: the empty map has only
    canonical keys, and [Add], [Set] and [Del] with an ASCII key keep it
    so; in such a map [Get] and [Values] find every entry under the very
    key it is stored at. *)
Theorem Header_keys_stay_canonical (h : Header) (key value : bytes) :
  strings.isASCII key = true ->
  canonical_keys ∅ /\
  (canonical_keys h ->
     canonical_keys (Header_Add h key value) /\
     canonical_keys (Header_Set h key value) /\
     canonical_keys (Header_Del h key) /\
     forall k vals, h !! k = Some vals ->
       Header_Values h k = vals /\ Header_Get h k = hd [] vals).
Proof.
  intros _. split.
  { intros k vals H. rewrite lookup_empty in H. discriminate. }
  intros Hh. repeat apply conj.
  - intros k vals. unfold Header_Add. rewrite lookup_insert.
    case_decide as E.
    + intros _. subst k. apply CanonicalHeaderKey_idem.
    + apply Hh.
  - intros k vals. unfold Header_Set. rewrite lookup_insert.
    case_decide as E.
    + intros _. subst k. apply CanonicalHeaderKey_idem.
    + apply Hh.
  - intros k vals. unfold Header_Del. rewrite lookup_delete.
    case_decide as E; [discriminate|apply Hh].
  - intros k vals Hk. unfold Header_Values, Header_Get.
    rewrite (Hh k vals Hk), Hk. split; [reflexivity|]. now destruct vals.
Qed.

Lemma Header_keys_stay_canonical_witness :
  canonical_keys ∅ /\
  (canonical_keys (Header_Set ∅ b!"host" b!"a") ->
     canonical_keys (Header_Add (Header_Set ∅ b!"host" b!"a") b!"x-forwarded-FOR" b!"b") /\
     canonical_keys (Header_Set (Header_Set ∅ b!"host" b!"a") b!"x-forwarded-FOR" b!"b") /\
     canonical_keys (Header_Del (Header_Set ∅ b!"host" b!"a") b!"x-forwarded-FOR") /\
     forall k vals, Header_Set ∅ b!"host" b!"a" !! k = Some vals ->
       Header_Values (Header_Set ∅ b!"host" b!"a") k = vals /\
       Header_Get (Header_Set ∅ b!"host" b!"a") k = hd [] vals).
Proof.
  apply (Header_keys_stay_canonical (Header_Set ∅ b!"host" b!"a")
           b!"x-forwarded-FOR" b!"b").
  reflexivity.
Defined.

(** X3. The updates of the header map, seen through its lookups, for a
    key [k'] under any spelling. [Set] replaces: a key with the canonical
    form of [k] has exactly the one value. [Add] appends: the values of
    such a key are the former ones followed by the new one, so [Get] still
    returns the first value the key ever got. [Del] removes: such a key has
    no value and [Get] returns the empty string. Every other key has what
    it had. *)
Theorem Header_update_then_lookup (h : Header) (k v k' : bytes) :
  let same := decide (CanonicalHeaderKey k = CanonicalHeaderKey k') in
  (Header_Values (Header_Set h k v) k'
   = (if same then [v] else Header_Values h k') /\
   Header_Get (Header_Set h k v) k' = (if same then v else Header_Get h k'))
  /\
  (Header_Values (Header_Add h k v) k'
   = (if same then Header_Values h k' ++ [v] else Header_Values h k') /\
   Header_Get (Header_Add h k v) k'
   = (if same then hd v (Header_Values h k') else Header_Get h k'))
  /\
  (Header_Values (Header_Del h k) k'
   = (if same then [] else Header_Values h k') /\
   Header_Get (Header_Del h k) k' = (if same then [] else Header_Get h k')).
Proof.
  cbv zeta. unfold Header_Values, Header_Get, Header_Set, Header_Add, Header_Del.
  rewrite !lookup_insert, !lookup_delete.
  case_decide as E; [|auto]. rewrite E.
  destruct (h !! CanonicalHeaderKey k') as [[|x vals]|]; auto.
Qed.


(** ** Header validation *)

Lemma validateValues_inr (lim : HeaderLimits) (vals : list bytes) :
  forall total t,
    validateValues lim vals total = inr t <->
    t = (total + Z.of_nat (length (concat vals)))%Z /\
    Forall (fun v => (MaxValueBytes lim <= 0
                      \/ Z.of_nat (length v) <= MaxValueBytes lim)%Z
                     /\ isValidValue v = true) vals.
Proof.
  induction vals as [|v vs IH]; intros total t; simpl.
  - split.
    + intros [= <-]. split; [lia|constructor].
    + intros [-> _]. f_equal. lia.
  - destruct ((0 <? MaxValueBytes lim)%Z
              && (MaxValueBytes lim <? Z.of_nat (length v))%Z) eqn:E1.
    { split; [discriminate|]. intros [_ H]. apply Forall_cons in H as [[H _] _].
      apply andb_true_iff in E1 as [E1 E2]. lia. }
    destruct (isValidValue v) eqn:E2; simpl.
    2:{ split; [discriminate|]. intros [_ H].
        apply Forall_cons in H as [[_ H] _]. congruence. }
    rewrite IH, length_app. apply andb_false_iff in E1.
    split.
    + intros [-> H]. split; [lia|]. constructor; [|exact H].
      split; [lia|exact E2].
    + intros [-> H]. apply Forall_cons in H as [_ H]. split; [lia|exact H].
Qed.

Lemma validateEntries_inr (lim : HeaderLimits)
    (entries : list (bytes * list bytes)) :
  forall total t,
    validateEntries lim entries total = inr t <->
    t = (total + valueBytes entries)%Z /\
    Forall (fun e : bytes * list bytes =>
              isValidFieldName e.1 = true /\
              (MaxKeyBytes lim <= 0 \/ Z.of_nat (length e.1) <= MaxKeyBytes lim)%Z /\
              Forall (fun v => (MaxValueBytes lim <= 0
                                \/ Z.of_nat (length v) <= MaxValueBytes lim)%Z
                               /\ isValidValue v = true) e.2) entries.
Proof.
  induction entries as [|[k vals] rest IH]; intros total t;
    cbn [validateEntries].
  - unfold valueBytes. simpl. split.
    + intros [= <-]. split; [lia|constructor].
    + intros [-> _]. f_equal. lia.
  - destruct (isValidFieldName k) eqn:E1; simpl negb; cbv iota.
    2:{ split; [discriminate|]. intros [_ H].
        apply Forall_cons in H as [[H _] _]. simpl in H. congruence. }
    destruct ((0 <? MaxKeyBytes lim)%Z
              && (MaxKeyBytes lim <? Z.of_nat (length k))%Z) eqn:E2.
    { split; [discriminate|]. intros [_ H].
      apply Forall_cons in H as [(_ & H & _) _]. simpl in H.
      apply andb_true_iff in E2 as [E2 E3]. lia. }
    apply andb_false_iff in E2.
    assert (valueBytes ((k, vals) :: rest)
            = (Z.of_nat (length (concat vals)) + valueBytes rest)%Z) as Hvb.
    { unfold valueBytes. simpl. rewrite concat_app, length_app. lia. }
    destruct (validateValues lim vals total) as [e|t'] eqn:E3.
    + split; [discriminate|]. intros [_ H].
      apply Forall_cons in H as [(_ & _ & H) _]. simpl in H.
      assert (validateValues lim vals total
              = inr (total + Z.of_nat (length (concat vals)))%Z) as E4
        by (apply validateValues_inr; auto).
      congruence.
    + apply validateValues_inr in E3 as [-> Hvals].
      rewrite IH, Hvb. split.
      * intros [-> H]. split; [lia|]. constructor; [|exact H].
        simpl. repeat apply conj; auto. lia.
      * intros [-> H]. apply Forall_cons in H as [_ H]. split; [lia|exact H].
Qed.

(** X4. [ValidateHeader] returns [nil] exactly for the headers that respect
    every limit that is set (a limit of zero or less is no limit): not
    more than [MaxFields] keys; every key a non-empty token of at most
    [MaxKeyBytes] bytes; every value free of control bytes other than
    HTAB and of at most [MaxValueBytes] bytes; at most
    [MaxTotalValuesBytes] value bytes in all. *)
Theorem ValidateHeader_accepts_iff (h : Header) (lim : HeaderLimits) :
  ValidateHeader h lim = None <->
  (MaxFields lim <= 0 \/ Z.of_nat (size h) <= MaxFields lim)%Z /\
  (forall k vals, h !! k = Some vals ->
     isValidFieldName k = true /\
     (MaxKeyBytes lim <= 0 \/ Z.of_nat (length k) <= MaxKeyBytes lim)%Z /\
     forall v, In v vals ->
       (MaxValueBytes lim <= 0 \/ Z.of_nat (length v) <= MaxValueBytes lim)%Z /\
       isValidValue v = true) /\
  (MaxTotalValuesBytes lim <= 0
   \/ valueBytes (map_to_list h) <= MaxTotalValuesBytes lim)%Z.
Proof.
  unfold ValidateHeader.
  assert ((forall k vals, h !! k = Some vals ->
             isValidFieldName k = true /\
             (MaxKeyBytes lim <= 0 \/ Z.of_nat (length k) <= MaxKeyBytes lim)%Z /\
             forall v, In v vals ->
               (MaxValueBytes lim <= 0
                \/ Z.of_nat (length v) <= MaxValueBytes lim)%Z /\
               isValidValue v = true)
          <-> Forall (fun e : bytes * list bytes =>
                isValidFieldName e.1 = true /\
                (MaxKeyBytes lim <= 0
                 \/ Z.of_nat (length e.1) <= MaxKeyBytes lim)%Z /\
                Forall (fun v => (MaxValueBytes lim <= 0
                                  \/ Z.of_nat (length v) <= MaxValueBytes lim)%Z
                                 /\ isValidValue v = true) e.2)
               (map_to_list h)) as Hent.
  { rewrite Forall_forall. split.
    - intros H [k vals] Hin. apply elem_of_map_to_list in Hin.
      destruct (H k vals Hin) as (H1 & H2 & H3). simpl.
      repeat apply conj; auto. rewrite Forall_forall. intros v Hv.
      apply H3. now apply list_elem_of_In.
    - intros H k vals Hk. apply elem_of_map_to_list in Hk.
      destruct (H _ Hk) as (H1 & H2 & H3). simpl in *.
      repeat apply conj; auto. intros v Hv. rewrite Forall_forall in H3.
      apply H3. now apply list_elem_of_In. }
  rewrite Hent. clear Hent.
  destruct ((0 <? MaxFields lim)%Z && (MaxFields lim <? Z.of_nat (size h))%Z)
    eqn:E1.
  { split; [discriminate|]. intros [H _].
    apply andb_true_iff in E1 as [E1 E2]. lia. }
  apply andb_false_iff in E1.
  destruct (validateEntries lim (map_to_list h) 0) as [e|t] eqn:E2.
  - split; [discriminate|]. intros (_ & H & _).
    assert (validateEntries lim (map_to_list h) 0
            = inr (0 + valueBytes (map_to_list h))%Z) as E3
      by (apply validateEntries_inr; auto).
    congruence.
  - apply validateEntries_inr in E2 as [-> Hall]. rewrite Z.add_0_l.
    destruct ((0 <? MaxTotalValuesBytes lim)%Z
              && (MaxTotalValuesBytes lim <? valueBytes (map_to_list h))%Z)
      eqn:E3.
    + split; [discriminate|]. intros (_ & _ & H).
      apply andb_true_iff in E3 as [E3 E4]. lia.
    + apply andb_false_iff in E3. split; [|reflexivity].
      intros _. repeat apply conj; auto; lia.
Qed.

(** ** Request targets *)

Lemma ContainsAny_spec (s chars : bytes) :
  strings.ContainsAny s chars = true <-> exists c, In c s /\ In c chars.
Proof.
  unfold strings.ContainsAny. rewrite existsb_exists. split.
  - intros (c & Hc & H). apply existsb_exists in H as (d & Hd & E).
    apply Ascii.eqb_eq in E. subst d. eauto.
  - intros (c & Hc & Hd). exists c. split; [exact Hc|].
    apply existsb_exists. exists c. split; [exact Hd|apply Ascii.eqb_refl].
Qed.

Lemma HasPrefix_spec (s prefix : bytes) :
  strings.HasPrefix s prefix = true <-> exists t, s = prefix ++ t.
Proof.
  unfold strings.HasPrefix. rewrite andb_true_iff, bytes_eqb_eq, Nat.leb_le.
  split.
  - intros [Hl Ht]. exists (drop (length prefix) s).
    rewrite <- Ht at 1. symmetry. apply take_drop.
  - intros [t ->]. rewrite length_app, take_app_length. split; [lia|reflexivity].
Qed.

Lemma TrimPrefix_app (prefix t : bytes) :
  strings.TrimPrefix (prefix ++ t) prefix = t.
Proof.
  unfold strings.TrimPrefix.
  assert (strings.HasPrefix (prefix ++ t) prefix = true) as ->
    by (apply HasPrefix_spec; eauto).
  apply drop_app_length.
Qed.

Lemma IndexByte_nonneg_found (s : bytes) (c : ascii) :
  (0 <= strings.IndexByte s c)%Z ->
  exists k v, s = k ++ c :: v /\ ~ In c k
              /\ strings.IndexByte s c = Z.of_nat (length k).
Proof.
  induction s as [|x s IH]; cbn [strings.IndexByte]; [lia|].
  destruct (Ascii.eqb x c) eqn:E.
  - apply Ascii.eqb_eq in E. subst x. intros _. exists [], s. auto.
  - apply Ascii.eqb_neq in E.
    destruct (strings.IndexByte s c <? 0)%Z eqn:Hneg; [lia|].
    apply Z.ltb_ge in Hneg. intros _.
    destruct (IH Hneg) as (k & v & -> & Hk & Hi).
    exists (x :: k), v. repeat apply conj; auto.
    + intros [H|H]; auto.
    + rewrite Hi. cbn [length]. lia.
Qed.

Lemma IndexByte_neg_notin (s : bytes) (c : ascii) :
  (strings.IndexByte s c < 0)%Z -> ~ In c s.
Proof.
  induction s as [|x s IH]; cbn [strings.IndexByte]; [auto|].
  destruct (Ascii.eqb x c) eqn:E; [lia|]. apply Ascii.eqb_neq in E.
  destruct (strings.IndexByte s c <? 0)%Z eqn:Hneg; [|lia].
  apply Z.ltb_lt in Hneg. intros _ [H|H]; [auto|]. now apply IH.
Qed.

Lemma IndexByte_range (s : bytes) (c : ascii) :
  (-1 <= strings.IndexByte s c)%Z.
Proof.
  induction s as [|x s IH]; cbn [strings.IndexByte]; [lia|].
  destruct (Ascii.eqb x c); [lia|].
  destruct (strings.IndexByte s c <? 0)%Z; lia.
Qed.

(** What [splitQuery] makes of a target. *)
Lemma splitQuery_spec (scheme host raw : bytes) :
  let u := httpx.splitQuery scheme host raw in
  httpx.Scheme u = scheme /\ httpx.Host u = host /\
  httpx.Path u <> [] /\ ~ In "?"%char (httpx.Path u) /\
  ((~ In "?"%char raw /\ httpx.RawQuery u = [] /\
    httpx.Path u = match raw with [] => b!"/" | _ => raw end)
   \/ (exists p q, raw = p ++ "?"%char :: q /\ ~ In "?"%char p /\
         httpx.RawQuery u = q /\
         httpx.Path u = match p with [] => b!"/" | _ => p end)).
Proof.
  unfold httpx.splitQuery.
  destruct (0 <=? strings.IndexByte raw "?"%char)%Z eqn:E.
  - apply Z.leb_le in E.
    destruct (IndexByte_nonneg_found raw "?"%char E) as (p & q & -> & Hp & Hi).
    rewrite Hi, Nat2Z.id, take_app_length.
    replace (Z.to_nat (Z.of_nat (length p) + 1)) with (length (p ++ ["?"%char]))
      by (rewrite length_app; simpl; lia).
    replace (p ++ "?"%char :: q) with ((p ++ ["?"%char]) ++ q)
      by (now rewrite <- app_assoc).
    rewrite drop_app_length. simpl.
    repeat apply conj; auto.
    + destruct p; discriminate.
    + destruct p; [|exact Hp]. intros [H|[]]. discriminate.
    + right. exists p, q. rewrite <- app_assoc. auto.
  - apply Z.leb_gt in E. apply IndexByte_neg_notin in E. simpl.
    repeat apply conj; auto.
    + destruct raw; discriminate.
    + destruct raw; [|exact E]. intros [H|[]]. discriminate.
Qed.

Lemma ParseRequestURI_cases (raw : bytes) :
  (raw = [] /\ httpx.ParseRequestURI raw = inl httpx.EmptyRequestTarget)
  \/ (raw <> [] /\ strings.ContainsAny raw [" "%char; CR; LF] = true /\
      httpx.ParseRequestURI raw = inl httpx.InvalidTargetChars)
  \/ (raw <> [] /\ strings.ContainsAny raw [" "%char; CR; LF] = false /\
      exists u, httpx.ParseRequestURI raw = inr u).
Proof.
  unfold httpx.ParseRequestURI. destruct raw as [|x raw']; [left; auto|].
  right. destruct (strings.ContainsAny _ _).
  - left. split; [discriminate|]. split; reflexivity.
  - right. split; [discriminate|]. split; [reflexivity|].
    cbv zeta. repeat match goal with
              | |- context [if ?b then _ else _] => destruct b
              end; eauto.
Qed.

(** X5. [ParseRequestURI] fails exactly on the empty target and on a
    target holding a space, a CR or a LF, with the error of that case;
    every other byte string is accepted. *)
Theorem ParseRequestURI_fails_iff (raw : bytes) :
  (httpx.ParseRequestURI raw = inl httpx.EmptyRequestTarget <-> raw = []) /\
  (httpx.ParseRequestURI raw = inl httpx.InvalidTargetChars <->
     raw <> [] /\ (In " "%char raw \/ In CR raw \/ In LF raw)) /\
  ((exists u, httpx.ParseRequestURI raw = inr u) <->
     raw <> [] /\ ~ In " "%char raw /\ ~ In CR raw /\ ~ In LF raw).
Proof.
  assert (strings.ContainsAny raw [" "%char; CR; LF] = true
          <-> In " "%char raw \/ In CR raw \/ In LF raw) as Hany.
  { rewrite ContainsAny_spec. split.
    - intros (c & Hc & [<-|[<-|[<-|[]]]]); auto.
    - intros [H|[H|H]]; eexists; (split; [exact H|]); simpl; auto. }
  destruct (ParseRequestURI_cases raw)
    as [[Hr ->]|[(Hr & Hc & ->)|(Hr & Hc & u & ->)]].
  - split; [tauto|]. split.
    + split; [discriminate|]. tauto.
    + split; [intros [u H]; discriminate|]. tauto.
  - apply Hany in Hc.
    split; [split; [discriminate|contradiction]|]. split.
    + tauto.
    + split; [intros [u H]; discriminate|]. tauto.
  - assert (~ (In " "%char raw \/ In CR raw \/ In LF raw)) as Hno.
    { intros H. apply Hany in H. congruence. }
    split; [split; [discriminate|contradiction]|]. split.
    + split; [discriminate|]. tauto.
    + split; [|eauto]. intros _. tauto.
Qed.


Lemma splitQuery_path (scheme host path : bytes) (query : option bytes) :
  path <> [] -> ~ In "?"%char path ->
  httpx.splitQuery scheme host
    (path ++ match query with Some q => "?"%char :: q | None => [] end)
  = {| httpx.Scheme := scheme; httpx.Host := host; httpx.Path := path;
       httpx.RawQuery := default [] query |}.
Proof.
  intros Hne Hq. unfold httpx.splitQuery. destruct query as [q|].
  - rewrite IndexByte_found by exact Hq.
    assert ((0 <=? Z.of_nat (length path))%Z = true) as -> by zbool.
    rewrite Nat2Z.id, take_app_length.
    replace (Z.to_nat (Z.of_nat (length path) + 1))
      with (length (path ++ ["?"%char])) by (rewrite length_app; simpl; lia).
    replace (path ++ "?"%char :: q) with ((path ++ ["?"%char]) ++ q)
      by (now rewrite <- app_assoc).
    rewrite drop_app_length. destruct path; [contradiction|reflexivity].
  - rewrite app_nil_r, IndexByte_notin by exact Hq. simpl.
    destruct path; [contradiction|reflexivity].
Qed.

Lemma ParseRequestURI_nonempty (raw : bytes) :
  raw <> [] ->
  httpx.ParseRequestURI raw
  = if strings.ContainsAny raw [" "%char; CR; LF] then inl httpx.InvalidTargetChars
    else if strings.bytes_eqb raw b!"*"
    then inr {| httpx.Scheme := []; httpx.Host := []; httpx.Path := b!"*";
                httpx.RawQuery := [] |}
    else if strings.HasPrefix raw b!"http://"
    then
      let rest := strings.TrimPrefix raw b!"http://" in
      let slash := strings.IndexByte rest "/"%char in
      if (slash =? -1)%Z
      then inr {| httpx.Scheme := b!"http";
                  httpx.Host := strings.ToLowerString rest;
                  httpx.Path := b!"/"; httpx.RawQuery := [] |}
      else inr (httpx.splitQuery b!"http"
                  (strings.ToLowerString (take (Z.to_nat slash) rest))
                  (drop (Z.to_nat slash) rest))
    else if strings.HasPrefix raw b!"https://"
    then
      let rest := strings.TrimPrefix raw b!"https://" in
      let slash := strings.IndexByte rest "/"%char in
      if (slash =? -1)%Z
      then inr {| httpx.Scheme := b!"https";
                  httpx.Host := strings.ToLowerString rest;
                  httpx.Path := b!"/"; httpx.RawQuery := [] |}
      else inr (httpx.splitQuery b!"https"
                  (strings.ToLowerString (take (Z.to_nat slash) rest))
                  (drop (Z.to_nat slash) rest))
    else inr (httpx.splitQuery [] [] raw).
Proof. destruct raw; [contradiction|reflexivity]. Qed.

(** X6. What [ParseRequestURI] returns on success is well formed: the
    path is never empty and holds no question mark, the scheme is empty,
    "http" or "https", and without a scheme there is no host. *)
Theorem ParseRequestURI_result_well_formed (raw : bytes) (u : httpx.URL) :
  httpx.ParseRequestURI raw = inr u ->
  httpx.Path u <> [] /\ ~ In "?"%char (httpx.Path u) /\
  ((httpx.Scheme u = [] /\ httpx.Host u = [])
   \/ httpx.Scheme u = b!"http" \/ httpx.Scheme u = b!"https").
Proof.
  unfold httpx.ParseRequestURI. destruct raw as [|x raw']; [discriminate|].
  destruct (strings.ContainsAny _ _); [discriminate|].
  assert (forall s h r,
            let v := httpx.splitQuery s h r in
            httpx.Path v <> [] /\ ~ In "?"%char (httpx.Path v)
            /\ httpx.Scheme v = s /\ httpx.Host v = h) as Hsq.
  { intros s h r. destruct (splitQuery_spec s h r) as (H1 & H2 & H3 & H4 & _).
    cbv zeta. auto. }
  destruct (strings.bytes_eqb _ _).
  { intros [= <-]. simpl.
    split; [discriminate|]. split; [intros [H|[]]; discriminate|]. auto. }
  cbv zeta.
  destruct (strings.HasPrefix (x :: raw') b!"http://").
  { destruct (_ =? -1)%Z.
    - intros [= <-]. simpl.
      split; [discriminate|]. split; [intros [H|[]]; discriminate|]. auto.
    - intros [= <-]. destruct (Hsq b!"http"
        (strings.ToLowerString
           (take (Z.to_nat (strings.IndexByte
                              (strings.TrimPrefix (x :: raw') b!"http://") "/"))
                 (strings.TrimPrefix (x :: raw') b!"http://")))
        (drop (Z.to_nat (strings.IndexByte
                           (strings.TrimPrefix (x :: raw') b!"http://") "/"))
              (strings.TrimPrefix (x :: raw') b!"http://")))
        as (H1 & H2 & H3 & H4). auto. }
  destruct (strings.HasPrefix (x :: raw') b!"https://").
  { destruct (_ =? -1)%Z.
    - intros [= <-]. simpl.
      split; [discriminate|]. split; [intros [H|[]]; discriminate|]. auto.
    - intros [= <-]. destruct (Hsq b!"https"
        (strings.ToLowerString
           (take (Z.to_nat (strings.IndexByte
                              (strings.TrimPrefix (x :: raw') b!"https://") "/"))
                 (strings.TrimPrefix (x :: raw') b!"https://")))
        (drop (Z.to_nat (strings.IndexByte
                           (strings.TrimPrefix (x :: raw') b!"https://") "/"))
              (strings.TrimPrefix (x :: raw') b!"https://")))
        as (H1 & H2 & H3 & H4). auto. }
  intros [= <-]. destruct (Hsq [] [] (x :: raw')) as (H1 & H2 & H3 & H4). auto.
Qed.

Lemma ParseRequestURI_result_well_formed_witness :
  let u := {| httpx.Scheme := b!"http"; httpx.Host := b!"example.com";
              httpx.Path := b!"/a/b"; httpx.RawQuery := b!"y=2" |} in
  httpx.Path u <> [] /\ ~ In "?"%char (httpx.Path u) /\
  ((httpx.Scheme u = [] /\ httpx.Host u = [])
   \/ httpx.Scheme u = b!"http" \/ httpx.Scheme u = b!"https").
Proof.
  apply (ParseRequestURI_result_well_formed b!"http://Example.com/a/b?y=2").
  reflexivity.
Defined.

(** X7. [ParseRequestURI] takes a well-formed target apart. An origin-form
    target, a path that starts with a slash and an optional query, gives
    that path and query with no scheme and no host. An absolute-form
    target, "http://" or "https://", an ASCII host without a slash, then
    such a path and query, gives scheme, the host in lower case, path and
    query; without the path it gives the path "/". The target holds no
    space, CR or LF, and the path no question mark. *)
Theorem ParseRequestURI_decomposes
    (scheme host p : bytes) (query : option bytes) :
  let path := "/"%char :: p in
  let pq := path ++ match query with Some q => "?"%char :: q | None => [] end in
  ~ In "?"%char p ->
  (strings.ContainsAny pq [" "%char; CR; LF] = false ->
     httpx.ParseRequestURI pq
     = inr {| httpx.Scheme := []; httpx.Host := []; httpx.Path := path;
              httpx.RawQuery := default [] query |})
  /\
  (scheme = b!"http" \/ scheme = b!"https" ->
   strings.isASCII host = true -> ~ In "/"%char host ->
   (strings.ContainsAny (scheme ++ b!"://" ++ host ++ pq) [" "%char; CR; LF]
    = false ->
      httpx.ParseRequestURI (scheme ++ b!"://" ++ host ++ pq)
      = inr {| httpx.Scheme := scheme;
               httpx.Host := strings.ToLowerString host;
               httpx.Path := path; httpx.RawQuery := default [] query |})
   /\
   (strings.ContainsAny (scheme ++ b!"://" ++ host) [" "%char; CR; LF] = false ->
      httpx.ParseRequestURI (scheme ++ b!"://" ++ host)
      = inr {| httpx.Scheme := scheme;
               httpx.Host := strings.ToLowerString host;
               httpx.Path := b!"/"; httpx.RawQuery := [] |})).
Proof.
  intros path pq Hp.
  assert (~ In "?"%char path) as Hpath.
  { intros [H|H]; [discriminate|contradiction]. }
  assert (path <> []) as Hne by discriminate.
  split.
  - intros Hany. unfold httpx.ParseRequestURI, pq, path in *.
    cbn [app]. cbn [app] in Hany. rewrite Hany.
    assert (strings.bytes_eqb
              ("/"%char :: p ++ match query with
                                | Some q => "?"%char :: q | None => [] end)
              b!"*" = false) as -> by reflexivity.
    assert (forall t, strings.HasPrefix ("/"%char :: t) b!"http://" = false)
      as Hh1.
    { intros t. unfold strings.HasPrefix. simpl.
      now rewrite andb_false_r. }
    assert (forall t, strings.HasPrefix ("/"%char :: t) b!"https://" = false)
      as Hh2.
    { intros t. unfold strings.HasPrefix. simpl.
      now rewrite andb_false_r. }
    rewrite Hh1, Hh2.
    change ("/"%char :: p ++ match query with
                              | Some q => "?"%char :: q | None => [] end)
      with (("/"%char :: p) ++ match query with
                                | Some q => "?"%char :: q | None => [] end).
    now rewrite splitQuery_path.
  - intros Hs _ Hhost.
    assert (forall rest,
              strings.ContainsAny (scheme ++ b!"://" ++ rest) [" "%char; CR; LF]
              = false ->
              httpx.ParseRequestURI (scheme ++ b!"://" ++ rest)
              = (let slash := strings.IndexByte rest "/"%char in
                 if (slash =? -1)%Z
                 then inr {| httpx.Scheme := scheme;
                             httpx.Host := strings.ToLowerString rest;
                             httpx.Path := b!"/"; httpx.RawQuery := [] |}
                 else inr (httpx.splitQuery scheme
                             (strings.ToLowerString (take (Z.to_nat slash) rest))
                             (drop (Z.to_nat slash) rest)))) as Habs.
    { intros rest Hany.
      assert (scheme ++ b!"://" ++ rest <> []) as Hne'
        by (destruct Hs as [-> | ->]; discriminate).
      rewrite (ParseRequestURI_nonempty _ Hne'), Hany.
      destruct Hs as [-> | ->].
      - assert (strings.bytes_eqb (b!"http" ++ b!"://" ++ rest) b!"*" = false)
          as -> by reflexivity.
        assert (strings.HasPrefix (b!"http" ++ b!"://" ++ rest) b!"http://"
                = true) as -> by (apply HasPrefix_spec; exists rest; reflexivity).
        change (b!"http" ++ b!"://" ++ rest) with (b!"http://" ++ rest).
        now rewrite TrimPrefix_app.
      - assert (strings.bytes_eqb (b!"https" ++ b!"://" ++ rest) b!"*" = false)
          as -> by reflexivity.
        assert (strings.HasPrefix (b!"https" ++ b!"://" ++ rest) b!"http://"
                = false) as ->.
        { unfold strings.HasPrefix. simpl.
          repeat first [reflexivity | rewrite andb_false_r | rewrite andb_false_l]. }
        assert (strings.HasPrefix (b!"https" ++ b!"://" ++ rest) b!"https://"
                = true) as -> by (apply HasPrefix_spec; exists rest; reflexivity).
        change (b!"https" ++ b!"://" ++ rest) with (b!"https://" ++ rest).
        now rewrite TrimPrefix_app. }
    split.
    + intros Hany. rewrite (Habs _ Hany). cbv zeta. unfold pq, path.
      change (host ++ ("/"%char :: p) ++ match query with
                                         | Some q => "?"%char :: q
                                         | None => [] end)
        with (host ++ "/"%char :: (p ++ match query with
                                        | Some q => "?"%char :: q
                                        | None => [] end)).
      rewrite IndexByte_found by exact Hhost.
      assert ((Z.of_nat (length host) =? -1)%Z = false) as -> by zbool.
      rewrite Nat2Z.id, take_app_length, drop_app_length.
      change ("/"%char :: p ++ match query with
                                | Some q => "?"%char :: q | None => [] end)
        with (("/"%char :: p) ++ match query with
                                  | Some q => "?"%char :: q | None => [] end).
      now rewrite splitQuery_path.
    + intros Hany. rewrite (Habs _ Hany). cbv zeta.
      rewrite IndexByte_notin by exact Hhost. reflexivity.
Qed.

Lemma ParseRequestURI_decomposes_witness :
  httpx.ParseRequestURI b!"/a/b?y=2"
  = inr {| httpx.Scheme := []; httpx.Host := []; httpx.Path := b!"/a/b";
           httpx.RawQuery := b!"y=2" |}
  /\ httpx.ParseRequestURI b!"https://Example.COM/a/b?y=2"
     = inr {| httpx.Scheme := b!"https"; httpx.Host := b!"example.com";
              httpx.Path := b!"/a/b"; httpx.RawQuery := b!"y=2" |}.
Proof.
  assert (~ In "?"%char b!"a/b") as Hp.
  { intros H. repeat (destruct H as [H|H]; [discriminate|]). exact H. }
  assert (~ In "/"%char b!"Example.COM") as Hh.
  { intros H. repeat (destruct H as [H|H]; [discriminate|]). exact H. }
  pose proof (ParseRequestURI_decomposes b!"https" b!"Example.COM" b!"a/b"
                (Some b!"y=2") Hp) as [Ho Ha].
  split.
  - apply Ho. reflexivity.
  - apply (proj1 (Ha (or_intror eq_refl) eq_refl Hh)). reflexivity.
Defined.

(** ** The request line *)

Lemma Fields_scan_spaces (w s : bytes) :
  allSpace w -> strings.Fields_scan (w ++ s) [] = strings.Fields_scan s [].
Proof.
  unfold allSpace. induction w as [|c w IH]; [reflexivity|].
  cbn [forallb app strings.Fields_scan]. intros [Hc Hw]%andb_true_iff.
  rewrite Hc. auto.
Qed.

Lemma Fields_scan_field (f s cur : bytes) :
  nonSpace f -> strings.Fields_scan (f ++ s) cur = strings.Fields_scan s (cur ++ f).
Proof.
  unfold nonSpace. revert cur. induction f as [|c f IH]; intros cur.
  - now rewrite app_nil_r.
  - cbn [forallb app strings.Fields_scan]. intros [Hc Hf]%andb_true_iff.
    apply negb_true_iff in Hc. rewrite Hc, IH by exact Hf.
    now rewrite <- app_assoc.
Qed.

Lemma Fields_scan_break (c : ascii) (s cur : bytes) :
  cur <> [] -> strings.isSpace c = true ->
  strings.Fields_scan (c :: s) cur = cur :: strings.Fields_scan s [].
Proof.
  intros Hne Hc. cbn [strings.Fields_scan]. rewrite Hc.
  destruct cur; [contradiction|reflexivity].
Qed.

Lemma Fields_scan_end (cur : bytes) :
  cur <> [] -> strings.Fields_scan [] cur = [cur].
Proof. destruct cur; [contradiction|reflexivity]. Qed.

(** A field, a non-empty run of spaces, and the rest. *)
Lemma Fields_field_spaces (f w s : bytes) :
  f <> [] -> nonSpace f -> w <> [] -> allSpace w ->
  strings.Fields (f ++ w ++ s) = f :: strings.Fields s.
Proof.
  intros Hf Hnf Hw Hsw. unfold strings.Fields.
  rewrite Fields_scan_field by exact Hnf. cbn [app].
  destruct w as [|c w]; [contradiction|].
  unfold allSpace in Hsw. cbn [forallb] in Hsw.
  apply andb_true_iff in Hsw as [Hc Hsw].
  cbn [app]. rewrite Fields_scan_break by assumption.
  now rewrite Fields_scan_spaces.
Qed.

(** The last field and the spaces after it. *)
Lemma Fields_field_end (f w : bytes) :
  f <> [] -> nonSpace f -> allSpace w -> strings.Fields (f ++ w) = [f].
Proof.
  intros Hf Hnf Hsw. unfold strings.Fields.
  rewrite Fields_scan_field by exact Hnf. cbn [app].
  destruct w as [|c w]; [now apply Fields_scan_end|].
  unfold allSpace in Hsw. cbn [forallb] in Hsw.
  apply andb_true_iff in Hsw as [Hc Hsw].
  rewrite Fields_scan_break by assumption.
  rewrite <- (app_nil_r w), Fields_scan_spaces by exact Hsw. reflexivity.
Qed.

Lemma Fields_three (w0 w1 w2 w3 m t p : bytes) :
  allSpace w0 -> allSpace w1 -> allSpace w2 -> allSpace w3 ->
  w1 <> [] -> w2 <> [] ->
  m <> [] -> t <> [] -> p <> [] -> nonSpace m -> nonSpace t -> nonSpace p ->
  strings.Fields (w0 ++ m ++ w1 ++ t ++ w2 ++ p ++ w3) = [m; t; p].
Proof.
  intros. unfold strings.Fields at 1. rewrite Fields_scan_spaces by assumption.
  change (strings.Fields_scan ?s []) with (strings.Fields s).
  rewrite Fields_field_spaces by assumption.
  rewrite Fields_field_spaces by assumption.
  now rewrite Fields_field_end by assumption.
Qed.

(** Every field is a non-empty run of non-space bytes. *)
Lemma Fields_scan_fields (s cur : bytes) :
  nonSpace cur ->
  Forall (fun f => f <> [] /\ nonSpace f) (strings.Fields_scan s cur).
Proof.
  revert cur. induction s as [|c s IH]; intros cur Hcur.
  - destruct cur; [constructor|]. repeat constructor; [discriminate|exact Hcur].
  - cbn [strings.Fields_scan]. destruct (strings.isSpace c) eqn:Ec.
    + destruct cur as [|x cur]; [now apply IH|].
      constructor; [split; [discriminate|exact Hcur]|now apply IH].
    + apply IH. unfold nonSpace in *. rewrite forallb_app, Hcur.
      cbn [forallb]. now rewrite Ec.
Qed.

Lemma Fields_fields (s : bytes) :
  Forall (fun f => f <> [] /\ nonSpace f) (strings.Fields s).
Proof. now apply Fields_scan_fields. Qed.

Lemma nonSpace_notin (f : bytes) (c : ascii) :
  nonSpace f -> strings.isSpace c = true -> ~ In c f.
Proof.
  unfold nonSpace. rewrite forallb_forall. intros H Hc Hin.
  apply H in Hin. now rewrite Hc in Hin.
Qed.

(** X8. [parseRequestLine] is indifferent to the white space between and
    around the three parts of the line: any non-empty runs of space bytes
    between them, and any runs before and after, give the result of the
    line with single spaces. The parts are ASCII, where the white space of
    the model is that of [strings.Fields]. *)
Theorem parseRequestLine_whitespace_runs (w0 w1 w2 w3 m t p : bytes) :
  allSpace w0 -> allSpace w1 -> allSpace w2 -> allSpace w3 ->
  w1 <> [] -> w2 <> [] ->
  m <> [] -> t <> [] -> p <> [] -> nonSpace m -> nonSpace t -> nonSpace p ->
  strings.isASCII (m ++ t ++ p) = true ->
  httpx.parseRequestLine (w0 ++ m ++ w1 ++ t ++ w2 ++ p ++ w3)
  = httpx.parseRequestLine (m ++ b!" " ++ t ++ b!" " ++ p).
Proof.
  intros. unfold httpx.parseRequestLine.
  rewrite Fields_three by assumption.
  replace (m ++ b!" " ++ t ++ b!" " ++ p)
    with ([] ++ m ++ b!" " ++ t ++ b!" " ++ p ++ [])
    by (now rewrite app_nil_r).
  rewrite Fields_three by (assumption || reflexivity || discriminate).
  reflexivity.
Qed.

Lemma parseRequestLine_whitespace_runs_witness :
  httpx.parseRequestLine
    (b!"  " ++ b!"GET" ++ [" "%char; "009"%char] ++ b!"/index.html"
       ++ b!"   " ++ b!"HTTP/1.1" ++ [" "%char])
  = httpx.parseRequestLine
      (b!"GET" ++ b!" " ++ b!"/index.html" ++ b!" " ++ b!"HTTP/1.1").
Proof.
  apply parseRequestLine_whitespace_runs;
    solve [reflexivity | discriminate].
Defined.

Lemma parseRequestLine_fields (line : bytes) (rl : httpx.requestLine) :
  httpx.parseRequestLine line = inr rl ->
  strings.Fields line = [httpx.Method rl; httpx.RequestURI rl; httpx.rl_Proto rl].
Proof.
  unfold httpx.parseRequestLine.
  destruct (strings.Fields line) as [|m [|t [|p [|? ?]]]]; try discriminate.
  repeat match goal with
         | |- context [if ?b then _ else _] => destruct b; try discriminate
         end.
  destruct (strconv.Atoi _); [|discriminate].
  destruct (strconv.Atoi _); [|discriminate].
  now intros [= <-].
Qed.

(** X9. A request line that parses is reproduced by [String] and parses
    again to the same value: [String] is a right inverse of
    [parseRequestLine] on its results. The line is ASCII, where the white
    space of the model is that of [strings.Fields]. *)
Theorem parseRequestLine_String_round_trip
    (line : bytes) (rl : httpx.requestLine) :
  strings.isASCII line = true ->
  httpx.parseRequestLine line = inr rl ->
  httpx.parseRequestLine (httpx.requestLine_String rl) = inr rl.
Proof.
  intros _ Hp. pose proof (parseRequestLine_fields _ _ Hp) as Hf.
  pose proof (Fields_fields line) as Hall. rewrite Hf in Hall.
  inversion Hall as [|? ? [Hm Hsm] Hall1]; subst.
  inversion Hall1 as [|? ? [Ht Hst] Hall2]; subst.
  inversion Hall2 as [|? ? [Hpr Hspr] _]; subst.
  assert (strings.Fields (httpx.requestLine_String rl)
          = [httpx.Method rl; httpx.RequestURI rl; httpx.rl_Proto rl]) as Hs.
  { unfold httpx.requestLine_String.
    replace (httpx.Method rl ++ b!" " ++ httpx.RequestURI rl ++ b!" "
               ++ httpx.rl_Proto rl)
      with ([] ++ httpx.Method rl ++ b!" " ++ httpx.RequestURI rl ++ b!" "
               ++ httpx.rl_Proto rl ++ [])
      by (now rewrite app_nil_r).
    apply Fields_three; solve [assumption | reflexivity | discriminate]. }
  unfold httpx.parseRequestLine in *. rewrite Hs. rewrite Hf in Hp. exact Hp.
Qed.

Lemma parseRequestLine_String_round_trip_witness :
  let rl := {| httpx.Method := b!"GET"; httpx.RequestURI := b!"/a?b=1";
               httpx.rl_Proto := b!"HTTP/1.1";
               httpx.ProtoMajor := 1; httpx.ProtoMinor := 1 |} in
  httpx.parseRequestLine (httpx.requestLine_String rl) = inr rl.
Proof.
  apply (parseRequestLine_String_round_trip
           [" "%char; "G"%char; "E"%char; "T"%char; "009"%char; "/"%char;
            "a"%char; "?"%char; "b"%char; "="%char; "1"%char; " "%char;
            " "%char; "H"%char; "T"%char; "T"%char; "P"%char; "/"%char;
            "1"%char; "."%char; "1"%char]); reflexivity.
Defined.

(** ** ParseRequest *)

Lemma ParseRequestURI_host_lower (raw : bytes) (u : httpx.URL) :
  httpx.ParseRequestURI raw = inr u ->
  strings.ToLowerString (httpx.Host u) = httpx.Host u.
Proof.
  assert (forall s, strings.ToLowerString (strings.ToLowerString s)
                    = strings.ToLowerString s) as Hidem.
  { intros s. unfold strings.ToLowerString. rewrite map_map.
    apply map_ext. intros c. apply ToLower_idem. }
  destruct raw as [|x raw']; [discriminate|].
  rewrite ParseRequestURI_nonempty by discriminate.
  destruct (strings.ContainsAny _ _); [discriminate|].
  destruct (strings.bytes_eqb _ _); [now intros [= <-]|].
  cbv zeta.
  repeat match goal with
         | |- context [if ?b then _ else _] => destruct b
         end; intros [= <-]; try reflexivity;
    try (cbn [httpx.Host]; apply Hidem);
    match goal with
    | |- context [httpx.splitQuery ?s ?h ?r] =>
        destruct (splitQuery_spec s h r) as (_ & -> & _)
    end; solve [apply Hidem | reflexivity].
Qed.

Lemma parseRequestLine_error_kinds (line : bytes) (e : httpx.parseError) :
  httpx.parseRequestLine line = inl e ->
  e <> httpx.EmptyRequestTarget /\ e <> httpx.InvalidTargetChars.
Proof.
  unfold httpx.parseRequestLine.
  destruct (strings.Fields line) as [|m [|t [|p [|? ?]]]];
    try (intros [= <-]; split; discriminate).
  repeat match goal with
         | |- context [if ?b then _ else _] =>
             destruct b; try (intros [= <-]; split; discriminate)
         end.
  destruct (strconv.Atoi _); [|intros [= <-]; split; discriminate].
  destruct (strconv.Atoi _); [|intros [= <-]; split; discriminate].
  discriminate.
Qed.

Lemma nonSpace_ContainsAny (f : bytes) :
  nonSpace f -> strings.ContainsAny f [" "%char; CR; LF] = false.
Proof.
  intros Hf. destruct (strings.ContainsAny f _) eqn:E; [|reflexivity].
  apply ContainsAny_spec in E as (c & Hin & Hc).
  exfalso. apply (nonSpace_notin f c Hf); [|exact Hin].
  cbn [In] in Hc. destruct Hc as [<-|[<-|[<-|[]]]]; reflexivity.
Qed.

Lemma parseRequestLine_target_parses (line : bytes) (rl : httpx.requestLine) :
  httpx.parseRequestLine line = inr rl ->
  exists u, httpx.ParseRequestURI (httpx.RequestURI rl) = inr u.
Proof.
  intros Hp. pose proof (parseRequestLine_fields _ _ Hp) as Hf.
  pose proof (Fields_fields line) as Hall. rewrite Hf in Hall.
  inversion Hall as [|? ? _ Hall1]; subst.
  inversion Hall1 as [|? ? [Ht Hst] _]; subst.
  destruct (ParseRequestURI_cases (httpx.RequestURI rl))
    as [(H & _)|[(_ & H & _)|(_ & _ & H)]].
  - contradiction.
  - rewrite nonSpace_ContainsAny in H by exact Hst. discriminate.
  - exact H.
Qed.

(** X10. Within [ParseRequest] the parse of the request target cannot
    fail: the target is a field of the line, so it is neither empty nor
    holds a space, a CR or a LF, and neither error of [ParseRequestURI] is
    ever the result of [ParseRequest]. The source is ASCII, where the
    white space of the model is that of [strings.Fields]. *)
Theorem ParseRequest_target_never_rejected
    (r : netx.CRLFFastReader) (limits : httpx.ParseLimits) :
  strings.isASCII (unread (netx.br r)) = true ->
  (httpx.ParseRequest r limits).1 <> inl httpx.EmptyRequestTarget /\
  (httpx.ParseRequest r limits).1 <> inl httpx.InvalidTargetChars.
Proof.
  intros _. unfold httpx.ParseRequest.
  destruct (netx.ReadLine r (httpx.MaxLineBytes limits))
    as [[[line ip] err] r'].
  destruct err as [e|]; [split; discriminate|].
  destruct (length line =? 0)%nat; [split; discriminate|].
  destruct (httpx.parseRequestLine line) as [e|rl] eqn:Hp.
  - apply parseRequestLine_error_kinds in Hp as [H1 H2].
    cbn [fst]. split; congruence.
  - destruct (parseRequestLine_target_parses _ _ Hp) as (u & ->).
    split; discriminate.
Qed.

Lemma ParseRequest_target_never_rejected_witness :
  let r := netx.NewCRLFFastReader (NewReader (b!"GET  HTTP/1.1" ++ CRLF)) in
  let limits := {| httpx.MaxLineBytes := 8192; httpx.MaxHeaderBytes := 8192 |} in
  (httpx.ParseRequest r limits).1 <> inl httpx.EmptyRequestTarget /\
  (httpx.ParseRequest r limits).1 <> inl httpx.InvalidTargetChars.
Proof.
  apply (ParseRequest_target_never_rejected
           (netx.NewCRLFFastReader (NewReader (b!"GET  HTTP/1.1" ++ CRLF)))).
  reflexivity.
Defined.

Lemma ReadLine_loop_bufSize :
  forall (fuel : nat) (r : netx.CRLFFastReader) (max : Z) (buf : bytes) res r',
    netx.ReadLine_loop fuel r max buf = Some (res, r') ->
    netx.bufSize r' = netx.bufSize r.
Proof.
  induction fuel as [|fuel IH]; intros r max buf res r'; [discriminate|].
  cbn [netx.ReadLine_loop].
  destruct (br_ReadSlice (netx.bufSize r) (netx.br r) LF) as [[part perr] br'].
  destruct (max <? _)%Z; [now intros [= _ <-]|].
  destruct perr as [[]|]; try (now intros [= _ <-]).
  - destruct (length (buf ++ part) =? 0)%nat; now intros [= _ <-].
  - intros H. apply IH in H. exact H.
Qed.

Lemma ReadLine_bufSize (r : netx.CRLFFastReader) (max : Z) :
  netx.bufSize (netx.ReadLine r max).2 = netx.bufSize r.
Proof.
  unfold netx.ReadLine. destruct (max <=? 0)%Z; [reflexivity|].
  destruct (netx.ReadLine_loop _ r max []) as [[res r']|] eqn:E; [|reflexivity].
  now apply ReadLine_loop_bufSize in E.
Qed.

(** One terminated line at the head of the source. *)
Lemma ReadLine_line (r : netx.CRLFFastReader) (max : Z) (line eol rest : bytes) :
  (0 < netx.bufSize r)%nat ->
  unread (netx.br r) = line ++ eol ++ rest ->
  ~ In LF line ->
  (eol = CRLF \/ (eol = [LF] /\ forall c0, line <> c0 ++ [CR])) ->
  (Z.of_nat (length line + length eol) <= max)%Z ->
  (netx.ReadLine r max).1 = (line, false, None) /\
  unread (netx.br (netx.ReadLine r max).2) = rest /\
  netx.bufSize (netx.ReadLine r max).2 = netx.bufSize r.
Proof.
  intros Hsz Hu Hline Heol Hmax.
  assert (0 < max)%Z as Hpos by (destruct Heol as [->|[-> _]]; simpl in Hmax; lia).
  destruct (ReadLine_spec r max Hpos Hsz) as [_ Hok]. cbv zeta in Hok.
  assert (rawLine (unread (netx.br r)) = line ++ eol) as Hraw.
  { rewrite Hu. destruct Heol as [->|[-> _]].
    - unfold CRLF.
      replace (line ++ [CR; LF] ++ rest) with ((line ++ [CR]) ++ LF :: rest)
        by (now rewrite <- app_assoc).
      rewrite rawLine_found; [now rewrite <- app_assoc|].
      intros [H|[H|[]]]%in_app_or; [contradiction|discriminate].
    - cbn [app]. now rewrite rawLine_found. }
  rewrite Hraw, length_app in Hok. specialize (Hok Hmax).
  destruct Hok as (Hun & Hin & _).
  assert (In LF (unread (netx.br r))) as HLF.
  { rewrite Hu. apply in_or_app. right. apply in_or_app. left.
    destruct Heol as [->|[-> _]]; simpl; auto. }
  split; [|split].
  - rewrite (Hin HLF). f_equal. f_equal.
    destruct Heol as [->|[-> Hcr]];
      [apply trimEOL_CRLF|now apply trimEOL_LF].
  - rewrite Hun, Hu, app_assoc, <- length_app. apply drop_app_length.
  - apply ReadLine_bufSize.
Qed.

(** X11. [ParseRequest] reads the request line and nothing after it. On
    a source that starts with a line ended by CRLF (or by a bare LF, the
    line then not ending in CR) within [MaxLineBytes], everything after the
    terminator stays unread whatever the outcome; an empty line is
    rejected, a parse error of the line is returned as it is, and a line
    that parses gives the request with its URL, an empty header map, and
    the host of the URL as [Host]. *)
Theorem ParseRequest_reads_request_line
    (r : netx.CRLFFastReader) (limits : httpx.ParseLimits)
    (line eol rest : bytes) :
  (0 < netx.bufSize r)%nat ->
  unread (netx.br r) = line ++ eol ++ rest ->
  ~ In LF line ->
  (eol = CRLF \/ (eol = [LF] /\ forall c0, line <> c0 ++ [CR])) ->
  (Z.of_nat (length line + length eol) <= httpx.MaxLineBytes limits)%Z ->
  strings.isASCII line = true ->
  unread (netx.br (httpx.ParseRequest r limits).2) = rest /\
  (line = [] -> (httpx.ParseRequest r limits).1 = inl httpx.EmptyRequestLine) /\
  (forall e, line <> [] -> httpx.parseRequestLine line = inl e ->
             (httpx.ParseRequest r limits).1 = inl e) /\
  (forall rl, httpx.parseRequestLine line = inr rl ->
     exists u, httpx.ParseRequestURI (httpx.RequestURI rl) = inr u /\
       (httpx.ParseRequest r limits).1
       = inr {| httpx.pr_line := rl; httpx.pr_URL := u; httpx.pr_Header := ∅;
                httpx.pr_Host := httpx.Host u; httpx.pr_ctx := None |}).
Proof.
  intros Hsz Hu Hline Heol Hmax _.
  destruct (ReadLine_line r _ line eol rest Hsz Hu Hline Heol Hmax)
    as (Hres & Hun & _).
  unfold httpx.ParseRequest.
  destruct (netx.ReadLine r (httpx.MaxLineBytes limits))
    as [[[line' ip] err] r'].
  cbn [fst snd] in Hres, Hun. injection Hres as -> -> ->.
  assert (forall (x : httpx.parseError + httpx.ParsedRequest),
            unread (netx.br (x, r').2) = rest) as Hsnd by (intros; exact Hun).
  split.
  { destruct (length line =? 0)%nat; [apply Hsnd|].
    destruct (httpx.parseRequestLine line); [apply Hsnd|].
    destruct (httpx.ParseRequestURI _); apply Hsnd. }
  split; [now intros ->|]. split.
  - intros e Hne ->. destruct line; [contradiction|reflexivity].
  - intros rl Hp. destruct (parseRequestLine_target_parses _ _ Hp) as (u & Hu').
    exists u. split; [exact Hu'|].
    assert ((length line =? 0)%nat = false) as ->.
    { destruct line; [|reflexivity]. discriminate. }
    rewrite Hp, Hu'. cbn [fst]. f_equal. f_equal.
    pose proof (ParseRequestURI_host_lower _ _ Hu') as Hl.
    destruct (httpx.Host u); [reflexivity|exact Hl].
Qed.

Lemma ParseRequest_reads_request_line_witness :
  let r := netx.NewCRLFFastReader
             (NewReader (b!"GET http://Example.com/a?b=1 HTTP/1.1" ++ CRLF
                           ++ b!"Host: x" ++ CRLF ++ CRLF)) in
  let limits := {| httpx.MaxLineBytes := 8192; httpx.MaxHeaderBytes := 8192 |} in
  unread (netx.br (httpx.ParseRequest r limits).2)
  = b!"Host: x" ++ CRLF ++ CRLF.
Proof.
  apply (ParseRequest_reads_request_line
           (netx.NewCRLFFastReader
              (NewReader (b!"GET http://Example.com/a?b=1 HTTP/1.1" ++ CRLF
                            ++ b!"Host: x" ++ CRLF ++ CRLF)))
           {| httpx.MaxLineBytes := 8192; httpx.MaxHeaderBytes := 8192 |}
           b!"GET http://Example.com/a?b=1 HTTP/1.1" CRLF
           (b!"Host: x" ++ CRLF ++ CRLF)).
  - unfold netx.NewCRLFFastReader, netx.DefaultBufSize. simpl. lia.
  - reflexivity.
  - intros H. repeat (destruct H as [H|H]; [discriminate|]). exact H.
  - left. reflexivity.
  - simpl. lia.
  - reflexivity.
Defined.

(** X12. The read errors of [ParseRequest]. A limit [MaxLineBytes] of
    zero or less is an error before anything is read; a first line longer
    than the limit, terminator included, is [ErrLineTooLong]; and a source
    that ends without a line feed is [io.EOF], even when it holds a
    complete request line: every such error comes back wrapped as the
    read error of the request line, and the unterminated source is
    drained. *)
Theorem ParseRequest_read_errors
    (r : netx.CRLFFastReader) (limits : httpx.ParseLimits) :
  (0 < netx.bufSize r)%nat ->
  let u := unread (netx.br r) in
  let max := httpx.MaxLineBytes limits in
  ((max <= 0)%Z ->
     httpx.ParseRequest r limits
     = (inl (httpx.ReadRequestLine ErrInvalidMax), r))
  /\
  ((0 < max < Z.of_nat (length (rawLine u)))%Z ->
     (httpx.ParseRequest r limits).1
     = inl (httpx.ReadRequestLine ErrLineTooLong))
  /\
  ((0 < max)%Z -> ~ In LF u -> (Z.of_nat (length u) <= max)%Z ->
     (httpx.ParseRequest r limits).1 = inl (httpx.ReadRequestLine EOF) /\
     unread (netx.br (httpx.ParseRequest r limits).2) = []).
Proof.
  intros Hsz u max. split; [|split].
  - intros Hle. unfold httpx.ParseRequest, netx.ReadLine. fold max.
    assert ((max <=? 0)%Z = true) as -> by zbool. reflexivity.
  - intros [Hpos Hlong].
    destruct (ReadLine_spec r max Hpos Hsz) as [Hbig _]. cbv zeta in Hbig.
    specialize (Hbig Hlong).
    unfold httpx.ParseRequest. fold max.
    destruct (netx.ReadLine r max) as [[[line ip] err] r'].
    cbn [fst] in Hbig. injection Hbig as -> -> ->. reflexivity.
  - intros Hpos Hno Hfit.
    destruct (ReadLine_spec r max Hpos Hsz) as [_ Hok]. cbv zeta in Hok.
    fold u in Hok. rewrite rawLine_notin in Hok by exact Hno.
    destruct (Hok Hfit) as (Hun & _ & Hnin). specialize (Hnin Hno).
    unfold httpx.ParseRequest. fold max.
    destruct (netx.ReadLine r max) as [[[line ip] err] r'].
    cbn [fst snd] in *. injection Hnin as -> -> ->.
    split; [reflexivity|]. cbn. rewrite Hun. apply drop_all.
Qed.

Lemma ParseRequest_read_errors_witness :
  let r := netx.NewCRLFFastReader (NewReader b!"GET / HTTP/1.1") in
  let limits := {| httpx.MaxLineBytes := 8192; httpx.MaxHeaderBytes := 8192 |} in
  (httpx.ParseRequest r limits).1 = inl (httpx.ReadRequestLine EOF) /\
  unread (netx.br (httpx.ParseRequest r limits).2) = [].
Proof.
  intros r limits.
  refine (proj2 (proj2 (ParseRequest_read_errors r limits _)) _ _ _).
  - unfold r, netx.NewCRLFFastReader, netx.DefaultBufSize. simpl. lia.
  - simpl. lia.
  - intros H. repeat (destruct H as [H|H]; [discriminate|]). exact H.
  - simpl. lia.
Defined.

(** ** The line reader *)

Lemma first_LF (u : bytes) :
  In LF u -> exists c t, u = c ++ LF :: t /\ ~ In LF c.
Proof.
  intros Hin. destruct (splitDelim u LF) as [[l rest]|] eqn:E.
  - apply splitDelim_Some in E as (c & _ & -> & Hc). eauto.
  - apply splitDelim_None in E. contradiction.
Qed.

Lemma trimEOL_take (c : bytes) :
  exists k, (k <= length c)%nat /\ netx.trimEOL (c ++ [LF]) = take k c.
Proof.
  unfold netx.trimEOL. rewrite length_app. simpl length.
  replace (length c + 1 - 1)%nat with (length c) by lia.
  rewrite nth_middle, Ascii.eqb_refl.
  assert ((0 <? length c + 1)%nat = true) as -> by (apply Nat.ltb_lt; lia).
  cbn [andb].
  destruct ((0 <? length c)%nat && _).
  - exists (length c - 1)%nat. split; [lia|].
    now rewrite take_app_le by lia.
  - exists (length c). split; [lia|]. now rewrite take_app_le by lia.
Qed.

Lemma In_take (x : ascii) (k : nat) (l : bytes) : In x (take k l) -> In x l.
Proof.
  intros H. rewrite <- (take_drop k l). apply in_or_app. now left.
Qed.

(** X13. What a call of [ReadLine] can return. The line never holds a
    line feed and, for a positive [max], is never longer than [max];
    [isPrefix] is set exactly when the error is [ErrLineTooLong], and then
    no line is returned; a line comes without error only if the source
    held a line feed. *)
Theorem ReadLine_result_shape (r : netx.CRLFFastReader) (max : Z) :
  (0 < netx.bufSize r)%nat ->
  let '(line, isPrefix, err) := (netx.ReadLine r max).1 in
  ~ In LF line /\
  ((0 < max)%Z -> (Z.of_nat (length line) <= max)%Z) /\
  (isPrefix = true <-> err = Some ErrLineTooLong) /\
  (err = Some ErrLineTooLong -> line = []) /\
  (err = None -> In LF (unread (netx.br r))) /\
  (err = None \/ err = Some EOF \/ err = Some ErrLineTooLong
   \/ err = Some ErrInvalidMax).
Proof.
  intros Hsz. destruct (Z.leb_spec max 0) as [Hle|Hpos].
  { unfold netx.ReadLine. assert ((max <=? 0)%Z = true) as -> by zbool.
    cbn [fst]. split; [tauto|]. split; [lia|]. split; [split; discriminate|].
    split; [discriminate|]. split; [discriminate|]. auto. }
  destruct (ReadLine_spec r max Hpos Hsz) as [Hbig Hok]. cbv zeta in Hbig, Hok.
  destruct (Z.ltb_spec max (Z.of_nat (length (rawLine (unread (netx.br r))))))
    as [Hlt|Hge].
  { rewrite (Hbig Hlt). split; [tauto|]. split; [simpl; lia|].
    split; [tauto|]. split; [reflexivity|]. split; [discriminate|]. auto. }
  destruct (Hok Hge) as (_ & Hin & Hnin).
  destruct (In_dec ascii_dec LF (unread (netx.br r))) as [HLF|HLF].
  - rewrite (Hin HLF).
    destruct (first_LF _ HLF) as (c & t & Hu & Hc).
    rewrite Hu, rawLine_found in * by exact Hc.
    destruct (trimEOL_take c) as (k & Hk & ->).
    split; [intros H%In_take; contradiction|].
    split.
    { intros _. rewrite length_take. rewrite length_app in Hge. simpl in Hge. lia. }
    split; [split; discriminate|]. split; [discriminate|].
    split; [intros _; apply in_or_app; right; now left|]. auto.
  - rewrite (Hnin HLF). rewrite rawLine_notin in Hge by exact HLF.
    split; [exact HLF|]. split; [intros _; exact Hge|].
    split; [split; discriminate|]. split; [discriminate|].
    split; [discriminate|]. auto.
Qed.

Lemma ReadLine_result_shape_witness :
  let r := netx.NewCRLFFastReader (NewReader (b!"Host: x" ++ CRLF ++ CRLF)) in
  let '(line, isPrefix, err) := (netx.ReadLine r 9).1 in
  ~ In LF line /\
  ((0 < 9)%Z -> (Z.of_nat (length line) <= 9)%Z) /\
  (isPrefix = true <-> err = Some ErrLineTooLong) /\
  (err = Some ErrLineTooLong -> line = []) /\
  (err = None -> In LF (unread (netx.br r))) /\
  (err = None \/ err = Some EOF \/ err = Some ErrLineTooLong
   \/ err = Some ErrInvalidMax).
Proof.
  apply (ReadLine_result_shape
           (netx.NewCRLFFastReader (NewReader (b!"Host: x" ++ CRLF ++ CRLF))) 9).
  unfold netx.NewCRLFFastReader, netx.DefaultBufSize. simpl. lia.
Defined.

(** X14. Successive calls of [ReadLine] return the lines of the source in
    order. On a source made of lines that each end in CRLF and fit [max],
    followed by an unterminated rest that fits too, one call per line
    returns that line without its terminator and without error, the next
    call returns the rest together with [io.EOF], and the source is then
    drained. *)
Theorem ReadLine_successive_lines
    (ls : list bytes) (rest : bytes) (r : netx.CRLFFastReader) (max : Z) :
  (0 < netx.bufSize r)%nat -> (0 < max)%Z ->
  unread (netx.br r) = concat (map (fun l => l ++ CRLF) ls) ++ rest ->
  Forall (fun l => ~ In LF l /\ (Z.of_nat (length l + 2) <= max)%Z) ls ->
  ~ In LF rest -> (Z.of_nat (length rest) <= max)%Z ->
  (ReadLines (S (length ls)) r max).1
  = map (fun l => (l, false, None)) ls ++ [(rest, false, Some EOF)]
  /\ unread (netx.br (ReadLines (S (length ls)) r max).2) = [].
Proof.
  intros Hsz Hmax Hu Hall Hrest Hfit. revert r Hsz Hu.
  induction Hall as [|l ls [Hl Hlen] Hall IH]; intros r Hsz Hu.
  - cbn [map concat app length] in *. cbn [ReadLines].
    destruct (ReadLine_spec r max Hmax Hsz) as [_ Hok]. cbv zeta in Hok.
    rewrite Hu, rawLine_notin in Hok by exact Hrest.
    destruct (Hok Hfit) as (Hun & _ & Hnin).
    specialize (Hnin Hrest).
    destruct (netx.ReadLine r max) as [res r'].
    cbn [fst snd] in *. subst res. split; [reflexivity|].
    rewrite Hun. apply drop_all.
  - cbn [map concat length] in *.
    rewrite <- !app_assoc in Hu.
    destruct (ReadLine_line r max l CRLF _ Hsz Hu Hl (or_introl eq_refl) Hlen)
      as (Hres & Hun & Hsz').
    change (ReadLines (S (S (length ls))) r max)
      with (let '(res, r') := netx.ReadLine r max in
            let '(rs, r'') := ReadLines (S (length ls)) r' max in
            (res :: rs, r'')).
    destruct (netx.ReadLine r max) as [res r'].
    cbn [fst snd] in Hres, Hun, Hsz'. subst res.
    rewrite <- Hsz' in Hsz.
    destruct (IH r' Hsz Hun) as [IH1 IH2].
    destruct (ReadLines (S (length ls)) r' max) as [rs r''].
    cbn [fst snd] in *. subst rs. split; [reflexivity|exact IH2].
Qed.

Lemma ReadLine_successive_lines_witness :
  let r := netx.NewCRLFFastReader
             (NewReader (b!"GET / HTTP/1.1" ++ CRLF ++ b!"Host: x" ++ CRLF
                           ++ b!"tail")) in
  (ReadLines 3 r 64).1
  = [(b!"GET / HTTP/1.1", false, None); (b!"Host: x", false, None);
     (b!"tail", false, Some EOF)]
  /\ unread (netx.br (ReadLines 3 r 64).2) = [].
Proof.
  apply (ReadLine_successive_lines [b!"GET / HTTP/1.1"; b!"Host: x"] b!"tail"
           (netx.NewCRLFFastReader
              (NewReader (b!"GET / HTTP/1.1" ++ CRLF ++ b!"Host: x" ++ CRLF
                            ++ b!"tail"))) 64).
  - unfold netx.NewCRLFFastReader, netx.DefaultBufSize. simpl. lia.
  - lia.
  - reflexivity.
  - repeat constructor;
      try (intros H; repeat (destruct H as [H|H]; [discriminate|]); exact H);
      simpl; lia.
  - intros H. repeat (destruct H as [H|H]; [discriminate|]). exact H.
  - simpl. lia.
Defined.

(** ** The body readers *)

Lemma closeReader_uncapped_ReadAll (bufsz : nat -> nat) :
  forall (m : nat) (c : httpx.closeReader),
    (length (unread (httpx.cl_r c)) <= m)%nat ->
    httpx.cl_ctx c = None -> (httpx.cl_limit c <= 0)%Z ->
    forall (i : nat) (acc : bytes),
    exists (k : nat) (c' : httpx.closeReader),
      unread (httpx.cl_r c') = [] /\
      forall fuel, (k <= fuel)%nat ->
        httpx.ReadAll fuel bufsz (httpx.CloseBody c) i acc
        = Some (acc ++ unread (httpx.cl_r c), None, httpx.CloseBody c').
Proof.
  induction m as [m IH] using lt_wf_ind.
  intros c Hm Hctx Hlim i acc.
  assert (forall lenp,
            httpx.closeReader_Read c lenp
            = let '((data, err), r') := src_Read (httpx.cl_r c) lenp in
              ((data, err),
               {| httpx.cl_ctx := None; httpx.cl_r := r';
                  httpx.cl_limit := httpx.cl_limit c;
                  httpx.cl_readTotal :=
                    wrap64 (httpx.cl_readTotal c + Z.of_nat (length data)) |}))
    as Hread.
  { intros lenp. unfold httpx.closeReader_Read. rewrite Hctx.
    assert ((0 <? httpx.cl_limit c)%Z = false) as -> by zbool.
    cbn [andb]. destruct (src_Read _ _) as [[data err] r'].
    cbn [httpx.cl_limit]. 
    assert ((0 <? httpx.cl_limit c)%Z = false) as -> by zbool.
    reflexivity. }
  specialize (Hread (S (bufsz i))).
  destruct (src_Read (httpx.cl_r c) (S (bufsz i))) as [[data err] r'] eqn:Hrd.
  apply src_Read_inv in Hrd as (Hu & Hlen & _ & _ & Herr).
  destruct Herr as [(-> & Hne & Hd)|(-> & He & ->)].
  - specialize (Hd ltac:(lia)).
    assert (length (unread r') < m)%nat as Hm'.
    { rewrite Hu, length_app in Hm. lia. }
    match type of Hread with _ = (_, ?c1) =>
      destruct (IH (length (unread r')) Hm' c1 (le_n _) eq_refl Hlim (S i)
                  (acc ++ data)) as (k & c' & Hend & Hrun)
    end.
    exists (S k), c'. split; [exact Hend|].
    intros [|fuel] Hf; [lia|]. cbn [httpx.ReadAll httpx.Read].
    rewrite Hread. rewrite (Hrun fuel ltac:(lia)). cbn [httpx.cl_r].
    now rewrite Hu, <- app_assoc.
  - eexists 1%nat, _. split; [|intros [|fuel] Hf; [lia|];
                                cbn [httpx.ReadAll httpx.Read];
                                rewrite Hread, He; reflexivity].
    cbn [httpx.cl_r]. rewrite He in Hu. symmetry. exact Hu.
Qed.

(** X15. A close-delimited body without a cap ([maxSize] zero or
    negative) is delivered whole: [io.ReadAll] returns every byte of the
    source, whatever the sizes of the reads, and no error. *)
Theorem closeReader_uncapped_reads_all
    (data : bytes) (limit : Z) (sh : nat -> nat -> nat) (bufsz : nat -> nat) :
  (limit <= 0)%Z ->
  exists k c',
    unread (httpx.cl_r c') = [] /\
    forall fuel, (k <= fuel)%nat ->
      httpx.ReadAll fuel bufsz
        (httpx.CloseBody
           (httpx.newCloseReader None
              {| unread := data; short := sh; calls := 0 |} limit)) 0 []
      = Some (data, None, httpx.CloseBody c').
Proof.
  intros Hlim.
  destruct (closeReader_uncapped_ReadAll bufsz (length data)
              (httpx.newCloseReader None
                 {| unread := data; short := sh; calls := 0 |} limit)
              (le_n _) eq_refl Hlim 0%nat []) as (k & c' & Hend & Hrun).
  exists k, c'. split; [exact Hend|exact Hrun].
Qed.

Lemma closeReader_uncapped_reads_all_witness :
  exists k c',
    unread (httpx.cl_r c') = [] /\
    forall fuel, (k <= fuel)%nat ->
      httpx.ReadAll fuel (fun _ => 1%nat)
        (httpx.CloseBody
           (httpx.newCloseReader None
              {| unread := b!"hello world"; short := fun _ _ => 3%nat;
                 calls := 0 |} 0)) 0 []
      = Some (b!"hello world", None, httpx.CloseBody c').
Proof.
  apply (closeReader_uncapped_reads_all b!"hello world" 0
           (fun _ _ => 3%nat) (fun _ => 1%nat)).
  lia.
Defined.

Lemma fixedReader_ReadAll_declared
    (data rest : bytes) (N limit : Z) (sh : nat -> nat -> nat)
    (bufsz : nat -> nat) :
  Z.of_nat (length data) = N -> (N <= MaxInt64)%Z ->
  (limit <= 0 \/ N <= limit)%Z ->
  exists k f',
    httpx.f_ctx f' = None /\ httpx.f_n f' = 0%Z /\
    unread (httpx.f_r f') = rest /\
    forall fuel, (k <= fuel)%nat ->
      httpx.ReadAll fuel bufsz
        (httpx.FixedBody
           (httpx.newFixedReader None
              {| unread := data ++ rest; short := sh; calls := 0 |} N limit))
        0 []
      = Some (data, None, httpx.FixedBody f').
Proof.
  intros Hlen Hmax Hcap.
  set (f := httpx.newFixedReader None
              {| unread := data ++ rest; short := sh; calls := 0 |} N limit).
  destruct (Z.eq_dec N 0%Z) as [HZ|HZ].
  - assert (data = []) as -> by (destruct data; [reflexivity|simpl in Hlen; lia]).
    exists 1%nat, f. split; [reflexivity|]. split; [exact HZ|].
    split; [reflexivity|].
    intros [|fuel] Hf; [lia|]. cbn [httpx.ReadAll httpx.Read].
    now rewrite (fixedReader_Read_at_end f _ eq_refl HZ).
  - assert (httpx.fixed_inv (httpx.f_n f + httpx.f_readTotal f) f) as Hinv.
    { unfold httpx.fixed_inv, f. simpl. repeat apply conj; try lia. }
    destruct (fixedReader_ReadAll bufsz (length (data ++ rest)) f (le_n _)
                eq_refl ltac:(simpl; lia) Hinv 0%nat [])
      as (k & f' & Hctx' & Hfin & Hrun).
    assert (Z.to_nat N = length data) as HN by lia.
    destruct Hfin as [Hn' Hun].
    { cbn [f httpx.newFixedReader httpx.f_n httpx.f_r unread].
      rewrite length_app. lia. }
    exists k, f'. split; [exact Hctx'|]. split; [exact Hn'|]. split.
    + rewrite Hun. cbn [f httpx.newFixedReader httpx.f_n httpx.f_r unread].
      rewrite HN. apply drop_app_length.
    + intros fuel Hf. rewrite (Hrun fuel Hf).
      cbn [f httpx.newFixedReader httpx.f_n httpx.f_r unread app].
      rewrite HN, take_app_length.
      assert ((Z.of_nat (length (data ++ rest)) <? N)%Z = false) as ->.
      { rewrite length_app. zbool. }
      reflexivity.
Qed.

(** X16. A fixed-length reader stops at the declared length. When the
    source holds the [N] declared bytes and more, [io.ReadAll] returns the
    first [N] bytes without error, and what follows them is still unread
    in the source and stays so: every later [Read] returns [io.EOF] at
    once and leaves the reader as it is. *)
Theorem fixedReader_stops_at_length
    (data rest : bytes) (N limit : Z) (sh : nat -> nat -> nat)
    (bufsz : nat -> nat) :
  Z.of_nat (length data) = N -> (N <= MaxInt64)%Z ->
  (limit <= 0 \/ N <= limit)%Z ->
  exists k f',
    unread (httpx.f_r f') = rest /\
    (forall fuel, (k <= fuel)%nat ->
       httpx.ReadAll fuel bufsz
         (httpx.FixedBody
            (httpx.newFixedReader None
               {| unread := data ++ rest; short := sh; calls := 0 |} N limit))
         0 []
       = Some (data, None, httpx.FixedBody f')) /\
    forall sizes,
      httpx.Reads (httpx.FixedBody f') sizes
      = (map (fun _ => ([], Some EOF)) sizes, httpx.FixedBody f').
Proof.
  intros Hlen Hmax Hcap.
  destruct (fixedReader_ReadAll_declared data rest N limit sh bufsz
              Hlen Hmax Hcap) as (k & f' & Hctx & Hn & Hun & Hrun).
  exists k, f'. split; [exact Hun|]. split; [exact Hrun|].
  induction sizes as [|n sizes IH]; [reflexivity|].
  cbn [httpx.Reads httpx.Read map].
  rewrite (fixedReader_Read_at_end f' n Hctx Hn), IH. reflexivity.
Qed.

Lemma fixedReader_stops_at_length_witness :
  exists k f',
    unread (httpx.f_r f') = b!"GET / HTTP/1.1" /\
    (forall fuel, (k <= fuel)%nat ->
       httpx.ReadAll fuel (fun _ => 511%nat)
         (httpx.FixedBody
            (httpx.newFixedReader None
               {| unread := b!"hello" ++ b!"GET / HTTP/1.1";
                  short := fun _ n => n; calls := 0 |} 5 0))
         0 []
       = Some (b!"hello", None, httpx.FixedBody f')) /\
    forall sizes,
      httpx.Reads (httpx.FixedBody f') sizes
      = (map (fun _ => ([], Some EOF)) sizes, httpx.FixedBody f').
Proof.
  apply (fixedReader_stops_at_length b!"hello" b!"GET / HTTP/1.1" 5 0
           (fun _ n => n) (fun _ => 511%nat)).
  - reflexivity.
  - unfold MaxInt64. lia.
  - left. lia.
Defined.

(** One [Read] of chunk data, whatever the cap and however much of the
    chunk the source holds. *)
Lemma chunked_Read_data_step (c0 c : httpx.chunkedReader) (rt : Z) (u : bytes)
    (lenp : nat) :
  httpx.chunk_at c0 httpx.stateChunkData rt u c ->
  (0 < httpx.c_remain c)%Z -> (0 <= rt)%Z ->
  (rt + httpx.c_remain c <= MaxInt64)%Z -> (0 < lenp)%nat ->
  exists d1 u',
    u = d1 ++ u' /\ (Z.of_nat (length d1) <= httpx.c_remain c)%Z /\
    let over := ((0 <? httpx.c_limit c0)
                 && (httpx.c_limit c0 <? rt + Z.of_nat (length d1)))%Z in
    ((over = true /\
      exists c', httpx.chunkedReader_Read c lenp
                 = ((d1, Some ErrBodyTooLarge), c'))
     \/ (over = false /\ u = [] /\ d1 = [] /\
         exists c', httpx.chunkedReader_Read c lenp = (([], Some EOF), c'))
     \/ (over = false /\ (0 < length d1)%nat /\
         exists c',
           httpx.chunkedReader_Read c lenp = ((d1, None), c') /\
           httpx.c_remain c' = (httpx.c_remain c - Z.of_nat (length d1))%Z /\
           httpx.chunk_at c0
             (if (httpx.c_remain c - Z.of_nat (length d1) =? 0)%Z
              then httpx.stateChunkCRLF else httpx.stateChunkData)
             (rt + Z.of_nat (length d1)) u' c')).
Proof.
  intros (Hctx & Hst & Hlim & Hhdr & Hrt & Hu) Hrem Hrt0 Hmax Hlenp.
  unfold httpx.chunkedReader_Read. rewrite Hctx, Hst.
  assert ((httpx.c_remain c <=? 0)%Z = false) as -> by zbool.
  pose proof (clamp_le lenp (httpx.c_remain c) ltac:(lia)) as [Hc _].
  pose proof (clamp_pos lenp (httpx.c_remain c) ltac:(lia) Hlenp) as Hcp.
  destruct (bufio.Read _ _) as [[data err] r'] eqn:Hrd.
  apply bufio_Read_inv in Hrd as (Hsplit & Hlen & _ & Herr); [|exact Hcp].
  exists data, (bufio.stream r'). rewrite <- Hu.
  split; [exact Hsplit|]. split; [lia|].
  cbn [httpx.set_r httpx.set_remain httpx.set_readTotal httpx.c_remain
       httpx.c_readTotal httpx.c_limit httpx.c_ctx httpx.c_state httpx.c_r
       httpx.c_header].
  rewrite Hrt, Hlim.
  rewrite !wrap64_id by (unfold MaxInt64 in *; lia).
  cbv zeta.
  destruct ((0 <? httpx.c_limit c0)%Z
            && (httpx.c_limit c0 <? rt + Z.of_nat (length data))%Z) eqn:Hover.
  { left. split; [reflexivity|]. eexists. reflexivity. }
  right. destruct Herr as [(-> & Hne & Hpos)|(-> & He & ->)].
  - right. split; [reflexivity|]. split; [auto|].
    destruct (httpx.c_remain c - Z.of_nat (length data) =? 0)%Z.
    + eexists. split; [reflexivity|]. split; [reflexivity|].
      unfold httpx.chunk_at. simpl. repeat apply conj; auto.
    + eexists. split; [reflexivity|]. split; [reflexivity|].
      unfold httpx.chunk_at. simpl. repeat apply conj; auto.
  - left. split; [reflexivity|]. split; [exact He|]. split; [reflexivity|].
    eexists. reflexivity.
Qed.

Section ChunkedEdges.

Variable bufsz : nat -> nat.
Variable c0 : httpx.chunkedReader.

(** A chunk that crosses the cap. *)
Lemma chunked_ReadAll_over :
  forall (m : nat) (d : bytes), (length d <= m)%nat ->
  forall (c : httpx.chunkedReader) (rt : Z) (u : bytes) (i : nat) (acc : bytes),
    httpx.chunk_at c0 httpx.stateChunkData rt (d ++ u) c ->
    httpx.c_remain c = Z.of_nat (length d) ->
    (0 <= rt)%Z -> (rt + Z.of_nat (length d) <= MaxInt64)%Z ->
    (0 < httpx.c_limit c0)%Z ->
    (rt <= httpx.c_limit c0 < rt + Z.of_nat (length d))%Z ->
    exists (k : nat) (d1 d2 : bytes) (c' : httpx.chunkedReader),
      d = d1 ++ d2 /\ (httpx.c_limit c0 < rt + Z.of_nat (length d1))%Z /\
      forall fuel, (k <= fuel)%nat ->
        httpx.ReadAll fuel bufsz (httpx.ChunkedBody c) i acc
        = Some (acc ++ d1, Some ErrBodyTooLarge, httpx.ChunkedBody c').
Proof.
  induction m as [m IH] using lt_wf_ind.
  intros d Hm c rt u i acc Hat Hrem Hrt Hmax Hlim Hcross.
  destruct (chunked_Read_data_step c0 c rt (d ++ u) (S (bufsz i)) Hat
              ltac:(lia) Hrt ltac:(lia) ltac:(lia))
    as (d1 & u' & Hsplit & Hle & Hcases).
  rewrite Hrem in Hle. apply Nat2Z.inj_le in Hle.
  assert (d1 = take (length d1) d) as Hd1.
  { apply (f_equal (take (length d1))) in Hsplit.
    rewrite take_app_le in Hsplit by exact Hle.
    now rewrite take_app_length in Hsplit. }
  assert (u' = drop (length d1) d ++ u) as Hu'.
  { apply (f_equal (drop (length d1))) in Hsplit.
    rewrite drop_app_le in Hsplit by exact Hle.
    now rewrite drop_app_length in Hsplit. }
  assert (d = d1 ++ drop (length d1) d) as Hd12.
  { rewrite <- (take_drop (length d1) d) at 1. now rewrite <- Hd1. }
  assert (length d = length d1 + length (drop (length d1) d))%nat as Hlen.
  { rewrite Hd12 at 1. now rewrite length_app. }
  cbv zeta in Hcases.
  destruct Hcases as [(Hover & c' & Hread)
                     |[(Hover & He & _)|(Hover & Hpos & c' & Hread & Hrem' & Hat')]].
  - apply andb_true_iff in Hover as [_ Hover]. apply Z.ltb_lt in Hover.
    exists 1%nat, d1, (drop (length d1) d), c'.
    split; [exact Hd12|]. split; [exact Hover|].
    intros [|fuel] Hf; [lia|]. cbn [httpx.ReadAll httpx.Read].
    now rewrite Hread.
  - apply app_eq_nil in He as [-> _]. simpl in Hcross. lia.
  - apply andb_false_iff in Hover.
    assert (rt + Z.of_nat (length d1) <= httpx.c_limit c0)%Z as Hfit.
    { destruct Hover as [H|H]; [apply Z.ltb_ge in H|apply Z.ltb_ge in H]; lia. }
    rewrite Hrem in Hat', Hrem'.
    assert ((Z.of_nat (length d) - Z.of_nat (length d1) =? 0)%Z = false) as Hz
      by zbool.
    rewrite Hz, Hu' in Hat'.
    destruct (IH (length (drop (length d1) d)) ltac:(lia) _ (le_n _) c'
                (rt + Z.of_nat (length d1))%Z u (S i) (acc ++ d1) Hat'
                ltac:(lia) ltac:(lia) ltac:(lia) Hlim ltac:(lia))
      as (k & e1 & e2 & c'' & He12 & Hcr & Hrun).
    exists (S k), (d1 ++ e1), e2, c''.
    split; [rewrite <- app_assoc, <- He12; exact Hd12|].
    split; [rewrite length_app; lia|].
    intros [|fuel] Hf; [lia|]. cbn [httpx.ReadAll httpx.Read].
    rewrite Hread, (Hrun fuel ltac:(lia)). now rewrite app_assoc.
Qed.

(** A chunk of which the source holds less than the size line announced. *)
Lemma chunked_ReadAll_short :
  forall (m : nat) (d : bytes), (length d <= m)%nat ->
  forall (c : httpx.chunkedReader) (rt : Z) (i : nat) (acc : bytes),
    httpx.chunk_at c0 httpx.stateChunkData rt d c ->
    (Z.of_nat (length d) < httpx.c_remain c)%Z ->
    (0 <= rt)%Z -> (rt + httpx.c_remain c <= MaxInt64)%Z ->
    (httpx.c_limit c0 <= 0 \/ rt + Z.of_nat (length d) <= httpx.c_limit c0)%Z ->
    exists (k : nat) (c' : httpx.chunkedReader),
      forall fuel, (k <= fuel)%nat ->
        httpx.ReadAll fuel bufsz (httpx.ChunkedBody c) i acc
        = Some (acc ++ d, None, httpx.ChunkedBody c').
Proof.
  induction m as [m IH] using lt_wf_ind.
  intros d Hm c rt i acc Hat Hrem Hrt Hmax Hcap.
  destruct (chunked_Read_data_step c0 c rt d (S (bufsz i)) Hat
              ltac:(lia) Hrt Hmax ltac:(lia))
    as (d1 & u' & Hsplit & Hle & Hcases).
  assert (length d = length d1 + length u')%nat as Hlen
    by (rewrite Hsplit, length_app; reflexivity).
  cbv zeta in Hcases.
  destruct Hcases as [(Hover & _)
                     |[(_ & He & Hd1 & c' & Hread)
                      |(_ & Hpos & c' & Hread & Hrem' & Hat')]].
  - apply andb_true_iff in Hover as [H1 H2].
    apply Z.ltb_lt in H1. apply Z.ltb_lt in H2. lia.
  - exists 1%nat, c'. intros [|fuel] Hf; [lia|].
    cbn [httpx.ReadAll httpx.Read]. rewrite Hread, He. reflexivity.
  - assert ((httpx.c_remain c - Z.of_nat (length d1) =? 0)%Z = false) as Hz
      by zbool.
    rewrite Hz in Hat'.
    destruct (IH (length u') ltac:(lia) u' (le_n _) c'
                (rt + Z.of_nat (length d1))%Z (S i) (acc ++ d1) Hat'
                ltac:(lia) ltac:(lia) ltac:(lia) ltac:(lia))
      as (k & c'' & Hrun).
    exists (S k), c''. intros [|fuel] Hf; [lia|].
    cbn [httpx.ReadAll httpx.Read].
    rewrite Hread, (Hrun fuel ltac:(lia)), Hsplit. now rewrite app_assoc.
Qed.

End ChunkedEdges.

(** No line is left in what the reader has still to deliver. *)
Lemma bufio_ReadString_eof (b : bufio.Reader) :
  ~ In LF (bufio.stream b) ->
  exists b',
    bufio.ReadString b LF = ((bufio.stream b, Some EOF), b') /\
    bufio.stream b' = [].
Proof.
  intros H. destruct (bufio_ReadString_spec b LF) as (b' & _ & Hres).
  rewrite splitDelim_notin in Hres by exact H. eauto.
Qed.

Lemma chunk_frame_nonempty (p : bytes) :
  p <> [] ->
  httpx.chunk_frame p
  = strconv.FormatInt (Z.of_nat (length p)) 16 ++ CRLF ++ p ++ CRLF.
Proof. destruct p; [contradiction|reflexivity]. Qed.

(** The source ends inside a size line, or before one. *)
Lemma chunked_Read_header_eof (c0 c : httpx.chunkedReader) (rt : Z) (u : bytes)
    (lenp : nat) :
  httpx.chunk_at c0 httpx.stateChunkHeader rt u c -> ~ In LF u ->
  exists c', httpx.chunkedReader_Read c lenp = (([], Some EOF), c').
Proof.
  intros (Hctx & Hst & _ & _ & _ & Hu) Hno. rewrite <- Hu in Hno.
  destruct (bufio_ReadString_eof _ Hno) as (r' & Hrs & _).
  unfold httpx.chunkedReader_Read, httpx.nextChunkSize.
  rewrite Hctx, Hst, Hrs.
  eexists. reflexivity.
Qed.

(** The source ends before the CR LF that closes a chunk. *)
Lemma chunked_Read_crlf_eof (c0 c : httpx.chunkedReader) (rt : Z) (u : bytes)
    (lenp : nat) :
  httpx.chunk_at c0 httpx.stateChunkCRLF rt u c -> ~ In LF u ->
  exists c', httpx.chunkedReader_Read c lenp = (([], Some ErrBadChunk), c').
Proof.
  intros (Hctx & Hst & _ & _ & _ & Hu) Hno. rewrite <- Hu in Hno.
  destruct (bufio_ReadString_eof _ Hno) as (r' & Hrs & _).
  unfold httpx.chunkedReader_Read.
  rewrite Hctx, Hst, Hrs.
  eexists. reflexivity.
Qed.

(** The source ends before the empty line that closes the trailers. *)
Lemma chunked_Read_trailer_eof (c0 c : httpx.chunkedReader) (rt : Z) (u : bytes)
    (lenp : nat) :
  httpx.chunk_at c0 httpx.stateTrailer rt u c -> ~ In LF u ->
  exists c',
    httpx.chunkedReader_Read c lenp = (([], Some ErrUnexpectedTrailer), c').
Proof.
  intros (Hctx & Hst & _ & _ & _ & Hu) Hno. rewrite <- Hu in Hno.
  destruct (bufio_ReadString_eof _ Hno) as (r' & Hrs & _).
  unfold httpx.chunkedReader_Read, httpx.readTrailers.
  rewrite Hctx, Hst. cbn [httpx.readTrailers_loop].
  rewrite Hrs.
  eexists. reflexivity.
Qed.

(** X17. The cap of a chunked body is enforced, and late. When the
    payload of the chunks read so far fits a positive cap and the next
    chunk crosses it, [io.ReadAll] ends with [ErrBodyTooLarge]; what it
    has collected by then is the payload of the earlier chunks and a part
    of the crossing chunk that already goes beyond the cap. *)
Theorem chunkedReader_cap_enforced
    (pre : list bytes) (p rest : bytes) (limit : Z) (hdr : Header)
    (sh : nat -> nat -> nat) (bufsz : nat -> nat) :
  (0 < limit)%Z ->
  (Z.of_nat (length (concat pre)) <= limit)%Z ->
  (limit < Z.of_nat (length (concat pre)) + Z.of_nat (length p))%Z ->
  (Z.of_nat (length (concat pre)) + Z.of_nat (length p) <= MaxInt64)%Z ->
  exists k d1 d2 c',
    p = d1 ++ d2 /\
    (limit < Z.of_nat (length (concat pre)) + Z.of_nat (length d1))%Z /\
    forall fuel, (k <= fuel)%nat ->
      httpx.ReadAll fuel bufsz
        (httpx.ChunkedBody
           (httpx.newChunkedReader None
              {| unread := concat (map httpx.chunk_frame pre)
                             ++ httpx.chunk_frame p ++ rest;
                 short := sh; calls := 0 |} limit hdr)) 0 []
      = Some (concat pre ++ d1, Some ErrBodyTooLarge, httpx.ChunkedBody c').
Proof.
  intros Hlim Hpre Hcross Hmax.
  set (c := httpx.newChunkedReader None _ limit hdr).
  assert (httpx.chunk_at c httpx.stateChunkHeader 0
            (concat (map httpx.chunk_frame pre) ++ httpx.chunk_frame p ++ rest) c)
    as Hat by (unfold httpx.chunk_at; simpl; repeat apply conj; auto).
  destruct (chunked_ReadAll_frames bufsz c pre c 0%Z _ 0%nat [] Hat
              ltac:(lia) ltac:(lia) ltac:(right; simpl; lia))
    as (k1 & c1 & Hat1 & Hrun1).
  rewrite Z.add_0_l in Hat1.
  assert (p <> []) as Hp by (intros ->; simpl in Hcross; lia).
  rewrite (chunk_frame_nonempty p Hp), <- !app_assoc in Hat1.
  destruct (chunked_Read_header c c1 _ (Z.of_nat (length p)) _ Hat1)
    as (c2 & Hat2 & Hrem2 & Hread2).
  { assert (0 < length p)%nat by (destruct p; [contradiction|simpl; lia]).
    lia. }
  destruct (chunked_ReadAll_over bufsz c (length p) p (le_n _) c2 _ _
              (S (0 + k1)) (([] ++ concat pre) ++ []) Hat2 Hrem2
              ltac:(lia) Hmax Hlim ltac:(simpl; lia))
    as (k3 & d1 & d2 & c' & Hd & Hover & Hrun3).
  exists (k1 + S k3)%nat, d1, d2, c'.
  split; [exact Hd|]. split; [exact Hover|].
  intros fuel Hf.
  replace fuel with (k1 + S (fuel - k1 - 1))%nat by lia.
  rewrite Hrun1. cbn [httpx.ReadAll httpx.Read]. rewrite Hread2.
  rewrite (Hrun3 (fuel - k1 - 1)%nat ltac:(lia)).
  cbn [app]. now rewrite app_nil_r.
Qed.

Lemma chunkedReader_cap_enforced_witness :
  exists k d1 d2 c',
    b!"pedia" = d1 ++ d2 /\
    (6 < Z.of_nat (length (concat [b!"Wiki"])) + Z.of_nat (length d1))%Z /\
    forall fuel, (k <= fuel)%nat ->
      httpx.ReadAll fuel (fun _ => 511%nat)
        (httpx.ChunkedBody
           (httpx.newChunkedReader None
              {| unread := concat (map httpx.chunk_frame [b!"Wiki"])
                             ++ httpx.chunk_frame b!"pedia"
                             ++ b!"0" ++ CRLF ++ CRLF;
                 short := fun _ n => n; calls := 0 |} 6 ∅)) 0 []
      = Some (concat [b!"Wiki"] ++ d1, Some ErrBodyTooLarge,
              httpx.ChunkedBody c').
Proof.
  apply (chunkedReader_cap_enforced [b!"Wiki"] b!"pedia"
           (b!"0" ++ CRLF ++ CRLF) 6 ∅ (fun _ n => n) (fun _ => 511%nat)).
  - lia.
  - simpl. lia.
  - simpl. lia.
  - unfold MaxInt64. simpl. lia.
Defined.

(** X18. How a chunked stream that ends early is reported depends on
    where it is cut. After whole chunks, a stream that ends before or
    inside the next size line, or inside the data of the next chunk, is
    read by [io.ReadAll] as a body that ended normally: the payload so far
    comes back with no error. A stream that ends after the data of a
    chunk but before its CR LF is [ErrBadChunk], and one that ends after
    the last chunk but before the closing empty line is
    [ErrUnexpectedTrailer]. *)
Theorem chunkedReader_truncated_stream
    (parts : list bytes) (limit : Z) (hdr : Header)
    (sh : nat -> nat -> nat) (bufsz : nat -> nat) :
  let body wire :=
    httpx.ChunkedBody
      (httpx.newChunkedReader None
         {| unread := concat (map httpx.chunk_frame parts) ++ wire;
            short := sh; calls := 0 |} limit hdr) in
  (limit <= 0)%Z ->
  (forall tail,
      ~ In LF tail ->
      (Z.of_nat (length (concat parts)) <= MaxInt64)%Z ->
      exists k b',
        forall fuel, (k <= fuel)%nat ->
          httpx.ReadAll fuel bufsz (body tail) 0 []
          = Some (concat parts, None, b'))
  /\
  (forall n d,
      (Z.of_nat (length d) < n)%Z ->
      (Z.of_nat (length (concat parts)) + n <= MaxInt64)%Z ->
      exists k b',
        forall fuel, (k <= fuel)%nat ->
          httpx.ReadAll fuel bufsz
            (body (strconv.FormatInt n 16 ++ CRLF ++ d)) 0 []
          = Some (concat parts ++ d, None, b'))
  /\
  (forall p tail,
      p <> [] -> ~ In LF tail ->
      (Z.of_nat (length (concat parts)) + Z.of_nat (length p) <= MaxInt64)%Z ->
      exists k b',
        forall fuel, (k <= fuel)%nat ->
          httpx.ReadAll fuel bufsz
            (body (strconv.FormatInt (Z.of_nat (length p)) 16 ++ CRLF ++ p
                     ++ tail)) 0 []
          = Some (concat parts ++ p, Some ErrBadChunk, b'))
  /\
  (forall tail,
      ~ In LF tail ->
      (Z.of_nat (length (concat parts)) <= MaxInt64)%Z ->
      exists k b',
        forall fuel, (k <= fuel)%nat ->
          httpx.ReadAll fuel bufsz (body (b!"0" ++ CRLF ++ tail)) 0 []
          = Some (concat parts, Some ErrUnexpectedTrailer, b')).
Proof.
  intros body Hlim.
  assert (forall wire,
            (Z.of_nat (length (concat parts)) <= MaxInt64)%Z ->
            exists c k1 c1,
              body wire = httpx.ChunkedBody c /\ httpx.c_limit c = limit /\
              httpx.chunk_at c httpx.stateChunkHeader
                (Z.of_nat (length (concat parts))) wire c1 /\
              forall fuel,
                httpx.ReadAll (k1 + fuel) bufsz (httpx.ChunkedBody c) 0 []
                = httpx.ReadAll fuel bufsz (httpx.ChunkedBody c1) (0 + k1)
                    ([] ++ concat parts)) as Hframes.
  { intros wire Hmax.
    set (c := httpx.newChunkedReader None
                {| unread := concat (map httpx.chunk_frame parts) ++ wire;
                   short := sh; calls := 0 |} limit hdr).
    assert (httpx.chunk_at c httpx.stateChunkHeader 0
              (concat (map httpx.chunk_frame parts) ++ wire) c) as Hat
      by (unfold httpx.chunk_at; simpl; repeat apply conj; auto).
    destruct (chunked_ReadAll_frames bufsz c parts c 0%Z _ 0%nat [] Hat
                ltac:(lia) ltac:(lia) (or_introl Hlim))
      as (k1 & c1 & Hat1 & Hrun1).
    rewrite Z.add_0_l in Hat1.
    exists c, k1, c1. split; [reflexivity|]. split; [reflexivity|].
    split; [exact Hat1|exact Hrun1]. }
  split; [|split; [|split]].
  - intros tail Hno Hmax.
    destruct (Hframes tail Hmax) as (c & k1 & c1 & -> & _ & Hat1 & Hrun1).
    destruct (chunked_Read_header_eof c c1 _ _ (S (bufsz (0 + k1))) Hat1 Hno)
      as (c2 & Hread2).
    exists (k1 + 1)%nat, (httpx.ChunkedBody c2). intros fuel Hf.
    replace fuel with (k1 + S (fuel - k1 - 1))%nat by lia.
    rewrite Hrun1. cbn [httpx.ReadAll httpx.Read]. rewrite Hread2.
    now rewrite app_nil_r.
  - intros n d Hshort Hmax.
    destruct (Hframes (strconv.FormatInt n 16 ++ CRLF ++ d) ltac:(lia))
      as (c & k1 & c1 & -> & Hl & Hat1 & Hrun1).
    destruct (chunked_Read_header c c1 _ n _ Hat1 ltac:(lia))
      as (c2 & Hat2 & Hrem2 & Hread2).
    destruct (chunked_ReadAll_short bufsz c (length d) d (le_n _) c2 _
                (S (0 + k1)) (([] ++ concat parts) ++ []) Hat2
                ltac:(lia) ltac:(lia) ltac:(lia) ltac:(left; lia))
      as (k3 & c3 & Hrun3).
    exists (k1 + S k3)%nat, (httpx.ChunkedBody c3). intros fuel Hf.
    replace fuel with (k1 + S (fuel - k1 - 1))%nat by lia.
    rewrite Hrun1. cbn [httpx.ReadAll httpx.Read]. rewrite Hread2.
    rewrite (Hrun3 (fuel - k1 - 1)%nat ltac:(lia)).
    now rewrite app_nil_r.
  - intros p tail Hp Hno Hmax.
    destruct (Hframes (strconv.FormatInt (Z.of_nat (length p)) 16 ++ CRLF ++ p
                         ++ tail) ltac:(lia))
      as (c & k1 & c1 & -> & Hl & Hat1 & Hrun1).
    assert (0 < length p)%nat as Hlen by (destruct p; [contradiction|simpl; lia]).
    destruct (chunked_Read_header c c1 _ (Z.of_nat (length p)) _ Hat1
                ltac:(lia)) as (c2 & Hat2 & Hrem2 & Hread2).
    destruct (chunked_ReadAll_data bufsz c (length p) p (le_n _) Hlen c2 _ _
                (S (0 + k1)) (([] ++ concat parts) ++ []) Hat2 Hrem2
                ltac:(lia) ltac:(lia) ltac:(left; lia))
      as (k3 & c3 & Hat3 & Hrun3).
    destruct (chunked_Read_crlf_eof c c3 _ _
                (S (bufsz (S (0 + k1) + k3))) Hat3 Hno) as (c4 & Hread4).
    exists (k1 + S (k3 + 1))%nat, (httpx.ChunkedBody c4). intros fuel Hf.
    replace fuel with (k1 + S (k3 + S (fuel - k1 - k3 - 2)))%nat by lia.
    rewrite Hrun1. cbn [httpx.ReadAll httpx.Read]. rewrite Hread2.
    rewrite Hrun3. cbn [httpx.ReadAll httpx.Read]. rewrite Hread4.
    now rewrite !app_nil_r.
  - intros tail Hno Hmax.
    destruct (Hframes (b!"0" ++ CRLF ++ tail) Hmax)
      as (c & k1 & c1 & -> & _ & Hat1 & Hrun1).
    destruct (chunked_Read_zero c c1 _ _ Hat1) as (c2 & Hat2 & Hread2).
    destruct (chunked_Read_trailer_eof c c2 _ _ (S (bufsz (S (0 + k1))))
                Hat2 Hno) as (c3 & Hread3).
    exists (k1 + 2)%nat, (httpx.ChunkedBody c3). intros fuel Hf.
    replace fuel with (k1 + S (S (fuel - k1 - 2)))%nat by lia.
    rewrite Hrun1. cbn [httpx.ReadAll httpx.Read]. rewrite Hread2.
    cbn [httpx.ReadAll httpx.Read]. rewrite Hread3.
    now rewrite !app_nil_r.
Qed.

Lemma chunkedReader_truncated_stream_witness :
  exists k b',
    forall fuel, (k <= fuel)%nat ->
      httpx.ReadAll fuel (fun _ => 511%nat)
        (httpx.ChunkedBody
           (httpx.newChunkedReader None
              {| unread := concat (map httpx.chunk_frame [b!"Wiki"])
                             ++ strconv.FormatInt 5 16 ++ CRLF ++ b!"ped";
                 short := fun _ n => n; calls := 0 |} 0 ∅)) 0 []
      = Some (concat [b!"Wiki"] ++ b!"ped", None, b').
Proof.
  apply (proj1 (proj2 (chunkedReader_truncated_stream [b!"Wiki"] 0 ∅
                         (fun _ n => n) (fun _ => 511%nat) (Z.le_refl 0)))
           5%Z b!"ped").
  - simpl. lia.
  - unfold MaxInt64. simpl. lia.
Defined.

Lemma TrimLeftSpace_app_nonspace (x y : bytes) (c : ascii) :
  strings.isSpace c = false ->
  strings.TrimLeftSpace (x ++ c :: y) = strings.TrimLeftSpace x ++ c :: y.
Proof.
  intros Hc. induction x as [|a x IH]; cbn [app strings.TrimLeftSpace].
  - now rewrite Hc.
  - destruct (strings.isSpace a); [exact IH|reflexivity].
Qed.

Lemma TrimRightSpace_app_nonspace (a b : bytes) (c : ascii) :
  strings.isSpace c = false ->
  strings.TrimRightSpace (a ++ c :: b) = a ++ c :: strings.TrimRightSpace b.
Proof.
  intros Hc. unfold strings.TrimRightSpace.
  rewrite rev_app_distr. cbn [rev]. rewrite <- app_assoc. cbn [app].
  rewrite TrimLeftSpace_app_nonspace by exact Hc.
  rewrite rev_app_distr. cbn [rev]. rewrite rev_involutive.
  now rewrite <- app_assoc.
Qed.

(** X19. [nextChunkSize] ignores a chunk extension: a size line made of
    the hexadecimal size, a semicolon and any text up to the CR LF gives
    the size, and the line is consumed whole. *)
Theorem nextChunkSize_ignores_extension
    (r : bufio.Reader) (n : Z) (ext rest : bytes) :
  (0 <= n <= MaxInt64)%Z -> ~ In LF ext ->
  bufio.stream r
  = strconv.FormatInt n 16 ++ ";"%char :: ext ++ CRLF ++ rest ->
  exists r',
    bufio.stream r' = rest /\ httpx.nextChunkSize r = ((n, None), r').
Proof.
  intros Hn Hext Hu.
  destruct (FormatInt_hex n Hn) as (ds & Hfmt & Hne & Hall & Hparse).
  rewrite Hfmt in Hu. clear Hfmt.
  assert (Forall (fun c => strings.isSpace c = false /\ c <> LF
                           /\ c <> ";"%char) ds) as Hfacts.
  { eapply Forall_impl; [exact Hall|]. intros c Hc.
    destruct (hex_char_facts c Hc) as (H1 & H2 & H3 & _). auto. }
  rewrite Forall_forall in Hfacts.
  destruct (bufio_ReadString_found r (ds ++ ";"%char :: ext ++ [CR]) rest)
    as (r' & Hrs & Hrest).
  { intros H. apply in_app_iff in H as [H|[H|H]].
    - apply list_elem_of_In, Hfacts in H as (_ & H & _). congruence.
    - discriminate.
    - apply in_app_iff in H as [H|[H|[]]]; [contradiction|discriminate]. }
  { rewrite Hu. unfold CRLF. rewrite <- !app_assoc. cbn [app].
    now rewrite <- !app_assoc. }
  exists r'. split; [exact Hrest|].
  unfold httpx.nextChunkSize. rewrite Hrs.
  replace ((ds ++ ";"%char :: ext ++ [CR]) ++ [LF])
    with (ds ++ ";"%char :: ext ++ CRLF)
    by (unfold CRLF; rewrite <- !app_assoc; cbn [app];
        now rewrite <- !app_assoc).
  assert (strings.TrimLeftSpace (ds ++ ";"%char :: ext ++ CRLF)
          = ds ++ ";"%char :: ext ++ CRLF) as Hleft.
  { destruct ds as [|d0 ds']; [contradiction|].
    assert (strings.isSpace d0 = false) as Hd0.
    { apply (Hfacts d0). apply list_elem_of_In. now left. }
    cbn [app strings.TrimLeftSpace]. now rewrite Hd0. }
  unfold strings.TrimSpace. rewrite Hleft.
  rewrite TrimRightSpace_app_nonspace by reflexivity.
  assert (~ In ";"%char ds) as Hsemi.
  { intros H. apply list_elem_of_In, Hfacts in H as (_ & _ & H). congruence. }
  destruct (ds ++ ";"%char :: strings.TrimRightSpace (ext ++ CRLF))
    as [|y ys] eqn:Hline.
  { destruct ds; discriminate. }
  rewrite <- Hline.
  rewrite IndexByte_found by exact Hsemi.
  assert ((0 <=? Z.of_nat (length ds))%Z = true) as -> by zbool.
  rewrite Nat2Z.id, take_app_length, Hparse.
  assert ((n <? 0)%Z = false) as -> by zbool.
  reflexivity.
Qed.

Lemma nextChunkSize_ignores_extension_witness :
  exists r',
    bufio.stream r' = b!"Wiki" ++ CRLF /\
    httpx.nextChunkSize
      (bufio.NewReader
         (NewReader (strconv.FormatInt 4 16 ++ ";"%char :: b!"name=value"
                       ++ CRLF ++ b!"Wiki" ++ CRLF)))
    = ((4%Z, None), r').
Proof.
  apply (nextChunkSize_ignores_extension
           (bufio.NewReader
              (NewReader (strconv.FormatInt 4 16 ++ ";"%char :: b!"name=value"
                            ++ CRLF ++ b!"Wiki" ++ CRLF)))
           4 b!"name=value" (b!"Wiki" ++ CRLF)).
  - unfold MaxInt64. lia.
  - intros H. repeat (destruct H as [H|H]; [discriminate|]). exact H.
  - reflexivity.
Defined.

(** ** What no [Read] does *)

Lemma clamp_le_lenp (lenp : nat) (k : Z) : (httpx.clamp lenp k <= lenp)%nat.
Proof.
  unfold httpx.clamp. destruct (Z.ltb_spec k (Z.of_nat lenp)); lia.
Qed.

Lemma forward_refl (s : Source) : forward s s.
Proof. now exists []. Qed.

Lemma forward_trans (s1 s2 s3 : Source) :
  forward s1 s2 -> forward s2 s3 -> forward s1 s3.
Proof.
  intros [t1 H1] [t2 H2]. exists (t1 ++ t2). now rewrite H1, H2, app_assoc.
Qed.

Lemma bufio_ReadString_inv (b : bufio.Reader) (d : ascii) line err b' :
  bufio.ReadString b d = ((line, err), b') ->
  bufio.stream b = line ++ bufio.stream b' /\
  forward (bufio.rd b) (bufio.rd b').
Proof.
  destruct (bufio_ReadString_spec b d) as (b1 & Hfw & Hres).
  destruct (splitDelim (bufio.stream b) d) as [[l rest]|] eqn:E;
    destruct Hres as [-> Hs]; intros [= <- _ <-].
  - apply splitDelim_Some in E as (c & -> & Hu & _).
    split; [|exact Hfw]. rewrite Hs, Hu. now rewrite <- app_assoc.
  - split; [|exact Hfw]. now rewrite Hs, app_nil_r.
Qed.

Lemma bufio_Read_any (b : bufio.Reader) (n : nat) data err b' :
  bufio.Read b n = ((data, err), b') ->
  bufio.stream b = data ++ bufio.stream b' /\ (length data <= n)%nat /\
  forward (bufio.rd b) (bufio.rd b').
Proof.
  destruct n as [|n].
  - intros [= <- _ <-]. split; [reflexivity|]. split; [simpl; lia|].
    apply forward_refl.
  - intros H. apply bufio_Read_inv in H as (H1 & H2 & H3 & _); [|lia]. auto.
Qed.

Lemma nextChunkSize_inv (r : bufio.Reader) size err r' :
  httpx.nextChunkSize r = ((size, err), r') ->
  (exists pre, bufio.stream r = pre ++ bufio.stream r') /\
  forward (bufio.rd r) (bufio.rd r').
Proof.
  unfold httpx.nextChunkSize.
  destruct (bufio.ReadString r LF) as [[line e] r1] eqn:E.
  apply bufio_ReadString_inv in E as [E Hfw].
  assert (r1 = r' ->
          (exists pre, bufio.stream r = pre ++ bufio.stream r') /\
          forward (bufio.rd r) (bufio.rd r')) as Hk
    by (intros <-; eauto).
  destruct e; [intros [= _ _ H]; auto|].
  destruct (strings.TrimSpace line); [intros [= _ _ H]; auto|].
  destruct (strconv.ParseInt _ _); [|intros [= _ _ H]; auto].
  destruct (_ <? 0)%Z; intros [= _ _ H]; auto.
Qed.

Lemma readTrailers_loop_inv :
  forall (fuel : nat) (r : bufio.Reader) (h : Header) err r' h',
    httpx.readTrailers_loop fuel r h = Some (err, r', h') ->
    (exists pre, bufio.stream r = pre ++ bufio.stream r') /\
    forward (bufio.rd r) (bufio.rd r').
Proof.
  induction fuel as [|fuel IH]; intros r h err r' h'; [discriminate|].
  cbn [httpx.readTrailers_loop].
  destruct (bufio.ReadString r LF) as [[line e] r1] eqn:E.
  apply bufio_ReadString_inv in E as [E Hfw].
  assert (r1 = r' ->
          (exists pre, bufio.stream r = pre ++ bufio.stream r') /\
          forward (bufio.rd r) (bufio.rd r')) as Hk
    by (intros <-; eauto).
  destruct e; [intros [= _ H _]; auto|].
  destruct (strings.bytes_eqb line CRLF); [intros [= _ H _]; auto|].
  destruct (_ <=? 0)%Z; [intros [= _ H _]; auto|].
  intros H. apply IH in H as [(pre & Hpre) Hfw'].
  split; [|exact (forward_trans _ _ _ Hfw Hfw')].
  exists (line ++ pre). now rewrite E, Hpre, app_assoc.
Qed.

Lemma readTrailers_inv (r : bufio.Reader) (h : Header) err r' h' :
  httpx.readTrailers r h = (err, r', h') ->
  (exists pre, bufio.stream r = pre ++ bufio.stream r') /\
  forward (bufio.rd r) (bufio.rd r').
Proof.
  unfold httpx.readTrailers.
  destruct (httpx.readTrailers_loop _ r h) as [[[e r1] h1]|] eqn:E.
  - intros [= <- <- <-]. now apply readTrailers_loop_inv in E.
  - intros [= _ <- _]. split; [now exists []|apply forward_refl].
Qed.

(** X20. What no [Read] of a body reader does, whatever the reader, its
    state and the buffer. It never returns more bytes than the buffer
    holds. It never moves the reader of its caller backwards. And it
    neither skips, repeats nor reorders a byte of its input: the bytes it
    returns are the next bytes of what it had still to take its bytes
    from, and the rest is still there afterwards. For a fixed-length or
    close-delimited reader this input is what is unread in the reader of
    the caller; for a chunked reader it is what its [bufio.Reader] has
    still to deliver, which may have taken more from the reader of the
    caller than was returned and keeps that in its buffer. Only a chunked
    reader outside the data of a chunk takes bytes (framing) that it does
    not return. *)
Theorem Read_within_buffer_and_stream (b : httpx.BodyReader) (lenp : nat) :
  let '((data, err), b') := httpx.Read b lenp in
  (length data <= lenp)%nat /\
  forward (source_of b) (source_of b') /\
  exists pre,
    input_of b = pre ++ input_of b' /\
    (data = pre
     \/ (data = [] /\
         exists c, b = httpx.ChunkedBody c /\
                   httpx.c_state c <> httpx.stateChunkData)).
Proof.
  destruct b as [f|c|c]; cbn [httpx.Read].
  - unfold httpx.fixedReader_Read.
    destruct (httpx.f_ctx f).
    { split; [simpl; lia|]. split; [apply forward_refl|]. exists []. auto. }
    destruct (_ <=? 0)%Z.
    { split; [simpl; lia|]. split; [apply forward_refl|]. exists []. auto. }
    destruct (src_Read _ _) as [[data err] r'] eqn:Hrd.
    apply src_Read_inv in Hrd as (Hu & Hlen & _).
    pose proof (clamp_le_lenp lenp (httpx.f_n f)).
    cbv zeta.
    repeat match goal with
           | |- context [if ?x then _ else _] => destruct x
           end; cbn [source_of input_of httpx.f_r];
      (split; [lia|]); (split; [exists data; exact Hu|]); exists data; auto.
  - unfold httpx.chunkedReader_Read.
    destruct (httpx.c_ctx c).
    { split; [simpl; lia|]. split; [apply forward_refl|]. exists []. auto. }
    destruct (httpx.c_state c) eqn:Hst.
    + destruct (httpx.nextChunkSize _) as [[size err] r'] eqn:E.
      apply nextChunkSize_inv in E as [(pre & Hpre) Hfw].
      assert (data_free :
                [] = pre \/ (@nil ascii = [] /\
                  exists c1, httpx.ChunkedBody c = httpx.ChunkedBody c1 /\
                             httpx.c_state c1 <> httpx.stateChunkData)).
      { right. split; [reflexivity|]. exists c. split; [reflexivity|].
        rewrite Hst. discriminate. }
      destruct err; [|destruct (size =? 0)%Z];
        cbn [source_of input_of httpx.c_r httpx.set_r httpx.set_state
             httpx.set_remain];
        (split; [simpl; lia|]); (split; [exact Hfw|]); exists pre; auto.
    + destruct (_ <=? 0)%Z.
      { cbn [source_of input_of httpx.c_r httpx.set_state].
        split; [simpl; lia|]. split; [apply forward_refl|]. exists []. auto. }
      destruct (bufio.Read _ _) as [[data err] r'] eqn:Hrd.
      apply bufio_Read_any in Hrd as (Hu & Hlen & Hfw).
      pose proof (clamp_le_lenp lenp (httpx.c_remain c)).
      cbv zeta.
      destruct (_ && _);
        [|destruct err; [|destruct (_ =? 0)%Z]];
        cbn [source_of input_of httpx.c_r httpx.set_r httpx.set_state
             httpx.set_remain httpx.set_readTotal];
        (split; [lia|]); (split; [exact Hfw|]); exists data; auto.
    + destruct (bufio.ReadString _ _) as [[line err] r'] eqn:E.
      apply bufio_ReadString_inv in E as [E Hfw].
      assert (data_free :
                [] = line \/ (@nil ascii = [] /\
                  exists c1, httpx.ChunkedBody c = httpx.ChunkedBody c1 /\
                             httpx.c_state c1 <> httpx.stateChunkData)).
      { right. split; [reflexivity|]. exists c. split; [reflexivity|].
        rewrite Hst. discriminate. }
      destruct err; [|destruct (negb _)];
        cbn [source_of input_of httpx.c_r httpx.set_r httpx.set_state];
        (split; [simpl; lia|]); (split; [exact Hfw|]); exists line; auto.
    + destruct (httpx.readTrailers _ _) as [[err r'] h'] eqn:E.
      apply readTrailers_inv in E as [(pre & Hpre) Hfw].
      assert (data_free :
                [] = pre \/ (@nil ascii = [] /\
                  exists c1, httpx.ChunkedBody c = httpx.ChunkedBody c1 /\
                             httpx.c_state c1 <> httpx.stateChunkData)).
      { right. split; [reflexivity|]. exists c. split; [reflexivity|].
        rewrite Hst. discriminate. }
      destruct err;
        cbn [source_of input_of httpx.c_r httpx.set_r httpx.set_state
             httpx.set_header];
        (split; [simpl; lia|]); (split; [exact Hfw|]); exists pre; auto.
    + split; [simpl; lia|]. split; [apply forward_refl|]. exists []. auto.
  - unfold httpx.closeReader_Read.
    destruct (httpx.cl_ctx c).
    { split; [simpl; lia|]. split; [apply forward_refl|]. exists []. auto. }
    destruct (_ && _).
    { split; [simpl; lia|]. split; [apply forward_refl|]. exists []. auto. }
    destruct (src_Read _ _) as [[data err] r'] eqn:Hrd.
    apply src_Read_inv in Hrd as (Hu & Hlen & _).
    pose proof (clamp_le_lenp lenp
                  (wrap64 (httpx.cl_limit c - httpx.cl_readTotal c))).
    cbv zeta.
    assert ((if (0 <? httpx.cl_limit c)%Z
             then httpx.clamp lenp
                    (wrap64 (httpx.cl_limit c - httpx.cl_readTotal c))
             else lenp) <= lenp)%nat as Hle
      by (destruct (0 <? httpx.cl_limit c)%Z; lia).
    destruct (_ && _); cbn [source_of input_of httpx.cl_r];
      (split; [lia|]); (split; [exists data; exact Hu|]); exists data; auto.
Qed.

(** ** Reading ahead *)





(** ** Validated headers on the wire *)

Lemma token_byte_no_eol (c : ascii) (b : bool) :
  isTokenByte c = true ->
  negb (Ascii.eqb (if b then strings.ToUpper c else strings.ToLower c) CR)
  && negb (Ascii.eqb (if b then strings.ToUpper c else strings.ToLower c) LF)
  = true.
Proof. destruct b; each_byte c. Qed.

Lemma value_byte_no_eol (c : ascii) :
  isValueByte c = true ->
  negb (Ascii.eqb c CR) && negb (Ascii.eqb c LF) = true.
Proof. each_byte c. Qed.

Lemma canonWalk_no_eol (d : ascii) (s : bytes) :
  d = CR \/ d = LF ->
  forall b, forallb isTokenByte s = true -> ~ In d (canonWalk b s).
Proof.
  intros Hd. induction s as [|c t IH]; intros b; cbn [canonWalk forallb].
  - intros _ [].
  - intros [Hc Ht]%andb_true_iff.
    destruct (Ascii.eqb c "-"%char) eqn:E.
    + apply Ascii.eqb_eq in E. subst c. intros [H|H].
      * destruct Hd as [-> | ->]; discriminate.
      * now apply (IH true).
    + pose proof (token_byte_no_eol c b Hc) as Hb.
      apply andb_true_iff in Hb as [H1 H2].
      apply negb_true_iff, Ascii.eqb_neq in H1.
      apply negb_true_iff, Ascii.eqb_neq in H2.
      intros [H|H].
      * destruct Hd as [-> | ->]; congruence.
      * now apply (IH false).
Qed.

Lemma value_no_eol (d : ascii) (v : bytes) :
  d = CR \/ d = LF -> isValidValue v = true -> ~ In d v.
Proof.
  intros Hd Hv Hin. unfold isValidValue in Hv.
  rewrite forallb_forall in Hv. apply Hv in Hin.
  apply value_byte_no_eol, andb_true_iff in Hin as [H1 H2].
  apply negb_true_iff, Ascii.eqb_neq in H1.
  apply negb_true_iff, Ascii.eqb_neq in H2.
  destruct Hd as [-> | ->]; congruence.
Qed.

Lemma header_line_count (d : ascii) (ck v : bytes) :
  d = CR \/ d = LF -> ~ In d ck -> ~ In d v ->
  count_occ ascii_dec (ck ++ b!": " ++ v ++ CRLF) d = 1%nat.
Proof.
  intros Hd Hck Hv. rewrite !count_occ_app.
  rewrite (proj1 (count_occ_not_In ascii_dec ck d) Hck).
  rewrite (proj1 (count_occ_not_In ascii_dec v d) Hv).
  destruct Hd as [-> | ->]; reflexivity.
Qed.

Lemma header_lines_count (d : ascii) (entries : list (bytes * list bytes)) :
  d = CR \/ d = LF ->
  Forall (fun e : bytes * list bytes =>
            isValidFieldName e.1 = true /\
            Forall (fun v => isValidValue v = true) e.2) entries ->
  count_occ ascii_dec (httpx.header_lines entries) d
  = length (concat (map snd entries)).
Proof.
  intros Hd. unfold httpx.header_lines.
  induction 1 as [|[k vals] rest [Hk Hvals] _ IH]; [reflexivity|].
  cbn [map concat fst snd] in *.
  rewrite count_occ_app, length_app, IH. f_equal.
  assert (~ In d (CanonicalHeaderKey k)) as Hck.
  { rewrite CanonicalHeaderKey_walk. apply canonWalk_no_eol; [exact Hd|].
    unfold isValidFieldName in Hk. destruct k; [discriminate|exact Hk]. }
  clear IH. induction Hvals as [|v vs Hv _ IHv]; [reflexivity|].
  cbn [map concat length]. rewrite count_occ_app, IHv.
  rewrite header_line_count; auto using value_no_eol.
Qed.

Lemma ValidateHeader_entries (h : Header) (lim : HeaderLimits) :
  ValidateHeader h lim = None ->
  Forall (fun e : bytes * list bytes =>
            isValidFieldName e.1 = true /\
            Forall (fun v => isValidValue v = true) e.2) (map_to_list h).
Proof.
  unfold ValidateHeader. destruct (_ && _); [discriminate|].
  destruct (validateEntries lim (map_to_list h) 0) as [e|t] eqn:E;
    [discriminate|].
  intros _. apply validateEntries_inr in E as [_ Hall].
  eapply Forall_impl; [exact Hall|].
  intros [k vals] (Hk & _ & Hv). split; [exact Hk|].
  eapply Forall_impl; [exact Hv|]. cbn beta. tauto.
Qed.

(** X21. A header that [ValidateHeader] accepts cannot split the head of a
    response. The header lines that [WriteResponse] writes for it hold as
    many LF bytes, and as many CR bytes, as the header has values: one
    line per value, and no CR or LF inside a name or a value. *)
Theorem validated_header_one_line_per_value
    (h : Header) (lim : HeaderLimits) (w : bytes) :
  ValidateHeader h lim = None ->
  exists lines,
    httpx.writeHeaders None w (map_to_list h) = (None, w ++ lines) /\
    count_occ ascii_dec lines LF = length (concat (map snd (map_to_list h))) /\
    count_occ ascii_dec lines CR = length (concat (map snd (map_to_list h))).
Proof.
  intros Hv. apply ValidateHeader_entries in Hv.
  exists (httpx.header_lines (map_to_list h)).
  split; [apply writeHeaders_live|].
  split; apply header_lines_count; auto.
Qed.

Lemma validated_header_one_line_per_value_witness :
  exists lines,
    httpx.writeHeaders None []
      (map_to_list (Header_Add (Header_Add ∅ b!"set-cookie" b!"a=1")
                      b!"Set-Cookie" b!"b=2"))
    = (None, [] ++ lines) /\
    count_occ ascii_dec lines LF
    = length (concat (map snd (map_to_list
                (Header_Add (Header_Add ∅ b!"set-cookie" b!"a=1")
                   b!"Set-Cookie" b!"b=2")))) /\
    count_occ ascii_dec lines CR
    = length (concat (map snd (map_to_list
                (Header_Add (Header_Add ∅ b!"set-cookie" b!"a=1")
                   b!"Set-Cookie" b!"b=2")))).
Proof.
  apply (validated_header_one_line_per_value
           (Header_Add (Header_Add ∅ b!"set-cookie" b!"a=1")
              b!"Set-Cookie" b!"b=2")
           {| MaxFields := 8; MaxKeyBytes := 64; MaxValueBytes := 64;
              MaxTotalValuesBytes := 256 |} []).
  vm_compute. reflexivity.
Defined.

(** ** Writing a response and reading its body back *)

Lemma WriteResponse_body (w : bytes) (resp : httpx.Response) (body : Source) :
  httpx.Body resp = Some body ->
  httpx.WriteResponse None w resp
  = let out := w ++ httpx.response_head resp in
    match Header_Get (httpx.resp_Header resp) b!"Content-Length" with
    | (_ :: _) as clStr =>
        match strconv.ParseInt (strings.TrimSpace clStr) 10 with
        | None => (Some ErrLengthMismatch, out, Some body)
        | Some n =>
            if (n <? 0)%Z then (Some ErrLengthMismatch, out, Some body)
            else
              let '(err, w, body) := httpx.io_CopyN out body n in
              (err, w, Some body)
        end
    | [] =>
        if strings.EqualFold
             (Header_Get (httpx.resp_Header resp) b!"Transfer-Encoding")
             b!"chunked"
        then
          let cw := httpx.newChunkedWriter None out in
          let '(err, cw, body) := httpx.copyChunked cw body in
          match err with
          | Some e =>
              let '(_, cw) := httpx.chunkedWriter_Close cw in
              (Some e, httpx.cw_w cw, Some body)
          | None =>
              let '(err, cw) := httpx.chunkedWriter_Close cw in
              (err, httpx.cw_w cw, Some body)
          end
        else
          let '(err, w, body) := httpx.io_Copy out body in
          (err, w, Some body)
    end.
Proof.
  intros Hbody. unfold httpx.WriteResponse.
  rewrite WriteResponse_head, Hbody.
  assert ((w ++ httpx.status_line resp
             ++ httpx.header_lines (map_to_list (httpx.resp_Header resp)))
          ++ CRLF = w ++ httpx.response_head resp) as ->.
  { unfold httpx.response_head. now rewrite <- !app_assoc. }
  reflexivity.
Qed.

(** X22. The reader reads back what the writer wrote. For a response
    whose header either has no Content-Length, or has one that is the
    length of the body and no chunked Transfer-Encoding, [WriteResponse]
    succeeds, and the bytes it writes after the head, handed to the reader
    that [NewBodyReader] selects for the same header, come out of
    [io.ReadAll] as the body, without error: with the declared length,
    chunk by chunk, or up to the end of the stream. The body fits the
    cap when one is set. *)
Theorem response_body_round_trip
    (w : bytes) (resp : httpx.Response) (body : Source) (maxSize : Z)
    (sh : nat -> nat -> nat) (bufsz : nat -> nat) :
  let h := httpx.resp_Header resp in
  let data := unread body in
  httpx.Body resp = Some body ->
  (Z.of_nat (length data) <= MaxInt64)%Z ->
  (maxSize <= 0 \/ Z.of_nat (length data) <= maxSize <= MaxInt64)%Z ->
  (Header_Get h b!"Content-Length" = []
   \/ (strconv.ParseInt (strings.TrimSpace (Header_Get h b!"Content-Length")) 10
       = Some (Z.of_nat (length data))
       /\ strings.EqualFold (Header_Get h b!"Transfer-Encoding") b!"chunked"
          = false)) ->
  exists wire body' b n,
    httpx.WriteResponse None w resp
    = (None, w ++ httpx.response_head resp ++ wire, Some body') /\
    httpx.NewBodyReader None {| httpx.req_Header := h |}
      {| unread := wire; short := sh; calls := 0 |} maxSize
    = (Some b, n, None) /\
    exists k b',
      forall fuel, (k <= fuel)%nat ->
        httpx.ReadAll fuel bufsz b 0 [] = Some (data, None, b').
Proof.
  intros h data Hbody Hmax Hcap Hframing. subst data.
  rewrite (WriteResponse_body w resp body Hbody). cbv zeta. fold h.
  unfold httpx.NewBodyReader. cbn [httpx.req_Header].
  destruct (Header_Get h b!"Content-Length") as [|x cl] eqn:Hcl.
  - destruct (strings.EqualFold (Header_Get h b!"Transfer-Encoding")
                b!"chunked") eqn:Hte.
    + (* chunked *)
      destruct (copyChunked_live body (w ++ httpx.response_head resp))
        as (parts & body' & Hc & _ & _ & Hrun).
      unfold httpx.newChunkedWriter. rewrite Hrun.
      set (wire := concat (map httpx.chunk_frame parts) ++ b!"0" ++ CRLF ++ CRLF).
      set (c := httpx.newChunkedReader None
                  {| unread := wire; short := sh; calls := 0 |} maxSize h).
      assert (httpx.chunk_at c httpx.stateChunkHeader 0
                (concat (map httpx.chunk_frame parts)
                   ++ b!"0" ++ CRLF ++ CRLF ++ []) c) as Hat.
      { unfold httpx.chunk_at, c, wire. simpl. repeat apply conj; auto. }
      destruct (chunked_decode_frames bufsz c parts [] Hat) as (k & c' & _ & Hk).
      { rewrite Hc. exact Hmax. }
      { rewrite Hc. unfold c. simpl. lia. }
      exists wire, body', (httpx.ChunkedBody c), (-1)%Z.
      split.
      { cbn. unfold wire. now rewrite <- !app_assoc. }
      split; [reflexivity|].
      exists k, (httpx.ChunkedBody c'). intros fuel Hf.
      rewrite (Hk fuel Hf), Hc. reflexivity.
    + (* until close *)
      set (c := httpx.newCloseReader None
                  {| unread := (unread body); short := sh; calls := 0 |} maxSize).
      exists (unread body), (advance body (length (unread body))), (httpx.CloseBody c),
        (-1)%Z.
      split; [unfold httpx.io_Copy; now rewrite <- app_assoc|].
      split; [reflexivity|].
      destruct Hcap as [Hno|Hfit].
      * destruct (closeReader_uncapped_ReadAll bufsz (length (unread body)) c (le_n _)
                    eq_refl Hno 0%nat []) as (k & c' & _ & Hk).
        exists k, (httpx.CloseBody c'). exact Hk.
      * destruct (Z.leb_spec maxSize 0) as [Hno|Hpos].
        { destruct (closeReader_uncapped_ReadAll bufsz (length (unread body)) c (le_n _)
                      eq_refl Hno 0%nat []) as (k & c' & _ & Hk).
          exists k, (httpx.CloseBody c'). exact Hk. }
        destruct (closeReader_ReadAll bufsz (length (unread body)) c (le_n _) eq_refl
                    ltac:(simpl; lia) ltac:(simpl; lia) 0%nat [])
          as (k & c' & Hk).
        exists k, (httpx.CloseBody c'). intros fuel Hf.
        rewrite (Hk fuel Hf).
        unfold c. cbn [httpx.newCloseReader httpx.cl_limit httpx.cl_readTotal
                       httpx.cl_r unread app].
        rewrite take_ge by lia. reflexivity.
  - (* Content-Length *)
    destruct Hframing as [Hnil|[Hparse Hte]]; [discriminate|].
    rewrite Hparse, Hte.
    assert ((Z.of_nat (length (unread body)) <? 0)%Z = false) as -> by zbool.
    assert ((0 <? maxSize)%Z && (maxSize <? Z.of_nat (length (unread body)))%Z = false)
      as ->.
    { apply andb_false_iff. destruct Hcap; [left|right]; zbool. }
    destruct (fixedReader_ReadAll_declared (unread body) [] (Z.of_nat (length (unread body)))
                maxSize sh bufsz eq_refl Hmax ltac:(lia))
      as (k & f' & _ & _ & _ & Hk).
    rewrite app_nil_r in Hk.
    exists (unread body), (if (Z.of_nat (length (unread body)) <=? 0)%Z then body
                  else advance body (length (unread body))).
    eexists. eexists.
    split.
    { unfold httpx.io_CopyN. rewrite Nat2Z.id, Nat.min_id, Z.eqb_refl.
      rewrite firstn_all. now rewrite <- app_assoc. }
    split; [reflexivity|].
    exists k, (httpx.FixedBody f'). exact Hk.
Qed.

Lemma response_body_round_trip_witness :
  let resp :=
    {| httpx.Proto := b!"HTTP/1.1"; httpx.StatusCode := 200;
       httpx.Status := b!"OK";
       httpx.resp_Header := Header_Set ∅ b!"transfer-encoding" b!"Chunked";
       httpx.Body := Some (NewReader b!"hello") |} in
  exists wire body' b n,
    httpx.WriteResponse None [] resp
    = (None, [] ++ httpx.response_head resp ++ wire, Some body') /\
    httpx.NewBodyReader None {| httpx.req_Header := httpx.resp_Header resp |}
      {| unread := wire; short := fun _ _ => 2%nat; calls := 0 |} 5
    = (Some b, n, None) /\
    exists k b',
      forall fuel, (k <= fuel)%nat ->
        httpx.ReadAll fuel (fun _ => 511%nat) b 0 []
        = Some (unread (NewReader b!"hello"), None, b').
Proof.
  intros resp.
  apply (response_body_round_trip [] resp (NewReader b!"hello") 5
           (fun _ _ => 2%nat) (fun _ => 511%nat)).
  - reflexivity.
  - unfold MaxInt64. simpl. lia.
  - right. unfold MaxInt64. simpl. lia.
  - left. vm_compute. reflexivity.
Defined.

(** X23. Writer and reader disagree on a header that carries both
    framings. With a Content-Length equal to the length of the body and a
    chunked Transfer-Encoding, [WriteResponse] writes the body as it is,
    and [NewBodyReader] selects the chunked reader for the same header;
    a body without a line feed is then read back by [io.ReadAll] as an
    empty body, without error. *)
Theorem both_framings_body_read_back_empty
    (w : bytes) (resp : httpx.Response) (body : Source) (maxSize : Z)
    (sh : nat -> nat -> nat) (bufsz : nat -> nat) :
  let h := httpx.resp_Header resp in
  httpx.Body resp = Some body ->
  strconv.ParseInt (strings.TrimSpace (Header_Get h b!"Content-Length")) 10
  = Some (Z.of_nat (length (unread body))) ->
  strings.EqualFold (Header_Get h b!"Transfer-Encoding") b!"chunked" = true ->
  ~ In LF (unread body) ->
  exists body' c,
    httpx.WriteResponse None w resp
    = (None, w ++ httpx.response_head resp ++ unread body, Some body') /\
    httpx.NewBodyReader None {| httpx.req_Header := h |}
      {| unread := unread body; short := sh; calls := 0 |} maxSize
    = (Some (httpx.ChunkedBody c), (-1)%Z, None) /\
    exists b',
      forall fuel, (1 <= fuel)%nat ->
        httpx.ReadAll fuel bufsz (httpx.ChunkedBody c) 0 [] = Some ([], None, b').
Proof.
  intros h Hbody Hparse Hte Hno.
  rewrite (WriteResponse_body w resp body Hbody). cbv zeta. fold h.
  unfold httpx.NewBodyReader. cbn [httpx.req_Header]. rewrite Hte.
  destruct (Header_Get h b!"Content-Length") as [|x cl] eqn:Hcl;
    [discriminate|].
  rewrite Hparse.
  assert ((Z.of_nat (length (unread body)) <? 0)%Z = false) as -> by zbool.
  set (c := httpx.newChunkedReader None
              {| unread := unread body; short := sh; calls := 0 |} maxSize h).
  assert (httpx.chunk_at c httpx.stateChunkHeader 0 (unread body) c) as Hat
    by (unfold httpx.chunk_at, c; simpl; repeat apply conj; auto).
  destruct (chunked_Read_header_eof c c 0 _ (S (bufsz 0%nat)) Hat Hno)
    as (c' & Hread).
  exists (if (Z.of_nat (length (unread body)) <=? 0)%Z then body
          else advance body (length (unread body))), c.
  split.
  { unfold httpx.io_CopyN. rewrite Nat2Z.id, Nat.min_id, Z.eqb_refl.
    rewrite firstn_all. now rewrite <- app_assoc. }
  split; [reflexivity|].
  exists (httpx.ChunkedBody c'). intros [|fuel] Hf; [lia|].
  cbn [httpx.ReadAll httpx.Read]. rewrite Hread. reflexivity.
Qed.

Lemma both_framings_body_read_back_empty_witness :
  let resp :=
    {| httpx.Proto := b!"HTTP/1.1"; httpx.StatusCode := 200;
       httpx.Status := b!"OK";
       httpx.resp_Header :=
         Header_Set (Header_Set ∅ b!"Content-Length" b!"3")
           b!"Transfer-Encoding" b!"chunked";
       httpx.Body := Some (NewReader b!"abc") |} in
  exists body' c,
    httpx.WriteResponse None [] resp
    = (None, [] ++ httpx.response_head resp ++ unread (NewReader b!"abc"),
       Some body') /\
    httpx.NewBodyReader None {| httpx.req_Header := httpx.resp_Header resp |}
      {| unread := unread (NewReader b!"abc"); short := fun _ n => n;
         calls := 0 |} 0
    = (Some (httpx.ChunkedBody c), (-1)%Z, None) /\
    exists b',
      forall fuel, (1 <= fuel)%nat ->
        httpx.ReadAll fuel (fun _ => 511%nat) (httpx.ChunkedBody c) 0 []
        = Some ([], None, b').
Proof.
  intros resp.
  apply (both_framings_body_read_back_empty [] resp (NewReader b!"abc") 0
           (fun _ n => n) (fun _ => 511%nat)).
  - reflexivity.
  - vm_compute. reflexivity.
  - vm_compute. reflexivity.
  - intros H. repeat (destruct H as [H|H]; [discriminate|]). exact H.
Defined.

(** X24. When [WriteResponse] writes the head only. Without a body the
    head is all that is written, whatever the header says about framing.
    With a body and a Content-Length that does not parse or is negative,
    the head has already been written when [ErrLengthMismatch] is
    returned, and the body has not been read. *)
Theorem WriteResponse_head_only (w : bytes) (resp : httpx.Response) :
  (httpx.Body resp = None ->
   httpx.WriteResponse None w resp
   = (None, w ++ httpx.response_head resp, None))
  /\
  (forall body,
      httpx.Body resp = Some body ->
      Header_Get (httpx.resp_Header resp) b!"Content-Length" <> [] ->
      let parsed :=
        strconv.ParseInt
          (strings.TrimSpace
             (Header_Get (httpx.resp_Header resp) b!"Content-Length")) 10 in
      parsed = None \/ (exists n, parsed = Some n /\ (n < 0)%Z) ->
      httpx.WriteResponse None w resp
      = (Some ErrLengthMismatch, w ++ httpx.response_head resp, Some body)).
Proof.
  split.
  - intros Hbody. unfold httpx.WriteResponse.
    rewrite WriteResponse_head, Hbody. f_equal. f_equal.
    unfold httpx.response_head. now rewrite <- !app_assoc.
  - intros body Hbody Hcl parsed Hbad.
    rewrite (WriteResponse_body w resp body Hbody). cbv zeta.
    destruct (Header_Get (httpx.resp_Header resp) b!"Content-Length")
      as [|x cl] eqn:Hget; [contradiction|].
    fold parsed. destruct Hbad as [-> | (n & -> & Hn)]; [reflexivity|].
    assert ((n <? 0)%Z = true) as -> by zbool. reflexivity.
Qed.

Lemma WriteResponse_head_only_witness :
  let resp :=
    {| httpx.Proto := []; httpx.StatusCode := 204; httpx.Status := [];
       httpx.resp_Header := Header_Set ∅ b!"Content-Length" b!"12";
       httpx.Body := None |} in
  httpx.WriteResponse None [] resp
  = (None, [] ++ httpx.response_head resp, None).
Proof.
  intros resp. apply (proj1 (WriteResponse_head_only [] resp)). reflexivity.
Defined.
